(** * Request governance: sliding-window rate limiter and read-through cache

    A shallow embedding of

    - [src/lib/services/redis/rate-limit.ts]  ([checkRateLimit]),
    - [src/lib/services/redis/cache.ts]       ([setWithExpiry], [getValue],
      [deleteKey], [incrementCounter], [setJson], [getJson], [cache],
      [invalidateCache]),
    - [src/lib/services/redis/client.ts]      ([isRedisHealthy]),
    - [src/lib/config/redis.ts]               ([retryStrategy], [reconnectOnError]),
    - [src/lib/middleware/rate-limiter.ts]    ([getClientIp], [rateLimiter]),
    - [src/routers/upload.ts]                 (the cache keys of the file procedures),

    over an explicit model of the shared Redis store.  Asynchronous code is
    embedded in a state-and-exception monad: [await] is sequencing,
    [try]/[catch] is [try_catch], and every call on the [redis] client may
    raise, driven by a fault schedule carried in the state.

    Conventions of the model:
    - one request runs at a time (no interleaving of store commands);
    - the application and the store read the same clock, in milliseconds;
      a store command takes no time, so the readings of [Date.now()] made
      in the course of one call agree; time passes only between calls
      ([set_clock], [at_time]) or inside the downstream handler.  Deadlines
      of keys are therefore counted from the time of the call;
    - a command struck by the fault schedule raises before it takes effect;
      the store's own error replies (wrong type, invalid expiry) are raised
      by the commands themselves;
    - [Math.random] and [nanoid] draw from a list of strings given with the
      world; a fetcher is given by the outcomes of its successive
      invocations;
    - a string is a sequence of code units below 256 (header values are
      byte strings; keys and payloads are taken in that range);
    - a number is an integer, or NaN.  The program's numbers are doubles:
      they are these integers up to magnitude 2^53, and a time value makes
      a valid [Date] up to magnitude 8.64e15.  JSON texts with fractions,
      exponents or escapes of code units above 255 are outside the model:
      [JSON.parse] rejects them, and the statements about cached values
      are made for payloads without them;
    - [next], the continuation of the middleware, belongs to the framework.
      It is a parameter of the model; what [await next()] yields is a value
      of type [resolved]. *)

From Stdlib Require Import ZArith Lia Ascii String List.
From Stdlib Require Import Decimal DecimalFacts DecimalPos DecimalString DecimalZ.
From stdpp Require Import gmap strings list.

Set Warnings "-register-all".
Local Open Scope string_scope.
Local Open Scope Z_scope.

(** ** Exceptions and outcomes *)

Inductive exn : Type :=
| ConnectionError              (* store unreachable, command timed out *)
| ReplyError (msg : string)    (* error reply of the store *)
| SyntaxError                  (* raised by JSON.parse *)
| TypeError                    (* property access on undefined *)
| AppError (msg : string).     (* raised by a fetcher or a downstream handler *)

Inductive outcome (A : Type) : Type :=
| Ok (a : A)
| Throw (e : exn).
Arguments Ok {A} a.
Arguments Throw {A} e.

(** ** The shared store *)

(** A key holds a string or a sorted set (member ↦ score); it may carry an
    absolute expiry deadline, in milliseconds on the world clock. *)
Inductive payload : Type :=
| PStr (s : string)
| PZSet (z : gmap string Z).

Record entry : Type := Entry { e_val : payload; e_deadline : option Z }.

Inductive level : Type := Debug | Info | Warn | Error.

Record world : Type := World {
  db : gmap string entry;              (* the Redis keyspace *)
  clock : Z;                           (* Date.now(), shared with the store *)
  faults : list bool;                  (* one bit per store command: true = it raises *)
  entropy : list string;               (* results of Math.random()/nanoid(), in order *)
  fetched : nat;                       (* number of fetcher invocations so far *)
  store_errors : nat;                  (* number of store commands that raised so far *)
  logged : list (level * string);      (* logger output, newest first *)
  res_headers : list (string * string);(* response headers set on the context *)
  vars : list (string * string)        (* context variables *)
}.

Definition set_db (d : gmap string entry) (w : world) : world :=
  World d (clock w) (faults w) (entropy w) (fetched w) (store_errors w) (logged w)
        (res_headers w) (vars w).
Definition set_clock (t : Z) (w : world) : world :=
  World (db w) t (faults w) (entropy w) (fetched w) (store_errors w) (logged w)
        (res_headers w) (vars w).
Definition set_faults (f : list bool) (w : world) : world :=
  World (db w) (clock w) f (entropy w) (fetched w) (store_errors w) (logged w)
        (res_headers w) (vars w).
Definition set_entropy (e : list string) (w : world) : world :=
  World (db w) (clock w) (faults w) e (fetched w) (store_errors w) (logged w)
        (res_headers w) (vars w).
Definition set_fetched (n : nat) (w : world) : world :=
  World (db w) (clock w) (faults w) (entropy w) n (store_errors w) (logged w)
        (res_headers w) (vars w).
Definition set_store_errors (n : nat) (w : world) : world :=
  World (db w) (clock w) (faults w) (entropy w) (fetched w) n (logged w)
        (res_headers w) (vars w).
Definition set_logged (l : list (level * string)) (w : world) : world :=
  World (db w) (clock w) (faults w) (entropy w) (fetched w) (store_errors w) l
        (res_headers w) (vars w).
Definition set_res_headers (h : list (string * string)) (w : world) : world :=
  World (db w) (clock w) (faults w) (entropy w) (fetched w) (store_errors w) (logged w)
        h (vars w).
Definition set_vars (v : list (string * string)) (w : world) : world :=
  World (db w) (clock w) (faults w) (entropy w) (fetched w) (store_errors w) (logged w)
        (res_headers w) v.

(** ** The monad of asynchronous computations *)

Definition M (A : Type) : Type := world → outcome A * world.

Definition ret {A} (a : A) : M A := λ w, (Ok a, w).
Definition throw {A} (e : exn) : M A := λ w, (Throw e, w).
Definition bind {A B} (c : M A) (k : A → M B) : M B :=
  λ w, match c w with
       | (Ok a, w') => k a w'
       | (Throw e, w') => (Throw e, w')
       end.
Definition try_catch {A} (body : M A) (handler : exn → M A) : M A :=
  λ w, match body w with
       | (Ok a, w') => (Ok a, w')
       | (Throw e, w') => handler e w'
       end.

Notation "'let!' x ':=' c 'in' k" := (bind c (λ x, k))
  (at level 10, x pattern, c at level 100, k at level 200).
Notation "c ';;;' k" := (bind c (λ _, k))
  (at level 100, k at level 200, right associativity).

(** ** Numbers and strings of the host language *)

(** [String(n)] / template interpolation of an integer. *)
Definition toString (z : Z) : string := NilZero.string_of_int (Z.to_int z).

Definition digit_of (c : ascii) : option Z :=
  let n := nat_of_ascii c in
  if ((48 <=? n) && (n <=? 57))%nat then Some (Z.of_nat (n - 48)) else None.

Fixpoint parse_digits (s : string) (acc : option Z) : option Z :=
  match s with
  | String c r =>
      match digit_of c with
      | Some d => parse_digits r (Some (10 * default 0 acc + d))
      | None => acc
      end
  | EmptyString => acc
  end.

(** The white space and line terminators that [String.prototype.trim] and
    [parseInt] strip, among the code units below 256: tab, line feed,
    vertical tab, form feed, carriage return, space and no-break space. *)
Definition is_space (c : ascii) : bool :=
  let n := nat_of_ascii c in
  ((n =? 32) || ((9 <=? n) && (n <=? 13)) || (n =? 160))%nat.

Fixpoint skip_spaces (s : string) : string :=
  match s with
  | String c r => if is_space c then skip_spaces r else s
  | EmptyString => s
  end.

(** [parseInt(s)]: leading blanks, an optional sign, then the longest run of
    decimal digits; [None] is NaN. *)
Definition parseInt (s : string) : option Z :=
  match skip_spaces s with
  | String "-" r => Z.opp <$> parse_digits r None
  | String "+" r => parse_digits r None
  | s' => parse_digits s' None
  end.

(** [Math.ceil(a / b)] on integers, for [b > 0]. *)
Definition ceil_div (a b : Z) : Z := - ((- a) / b).

(** A [Date]: a time value in milliseconds, or the invalid date.  The
    program's [new Date(t)] is the invalid date beyond 8.64e15 ms on either
    side of the epoch; the model does not clip, and [Date t] stands for a
    valid date for the time values in that range only. *)
Inductive date : Type := Date (ms : Z) | InvalidDate.

Definition new_Date (ms : option Z) : date :=
  match ms with Some t => Date t | None => InvalidDate end.
Definition getTime (d : date) : option Z :=
  match d with Date t => Some t | InvalidDate => None end.

(** Truthiness of a string: only the empty string is falsy. *)
Definition truthy (s : string) : bool :=
  match s with EmptyString => false | _ => true end.

(** ** The store commands used by the application *)

(** Glob patterns of KEYS: [*], [?], bracket classes with negation and
    ranges, and backslash escapes, compared byte-wise. *)
Inductive class_item : Type :=
| IChar (c : ascii)
| IRange (a b : ascii).

Inductive token : Type :=
| TStar
| TAny
| TLit (c : ascii)
| TClass (negated : bool) (items : list class_item).

Fixpoint tokens (p : string) (cls : option (bool * list class_item)) : list token :=
  match cls with
  | None =>
      match p with
      | EmptyString => []
      | String "*" r => TStar :: tokens r None
      | String "?" r => TAny :: tokens r None
      | String "[" (String "^" r) => tokens r (Some (true, []))
      | String "[" r => tokens r (Some (false, []))
      | String "\" (String c r) => TLit c :: tokens r None
      | String c r => TLit c :: tokens r None
      end
  | Some (neg, items) =>
      match p with
      | EmptyString => [TClass neg items]
      | String "\" (String c r) => tokens r (Some (neg, IChar c :: items))
      | String "]" r => TClass neg items :: tokens r None
      | String a (String "-" (String b r)) => tokens r (Some (neg, IRange a b :: items))
      | String c r => tokens r (Some (neg, IChar c :: items))
      end
  end.

Definition item_matches (c : ascii) (i : class_item) : bool :=
  match i with
  | IChar c' => Ascii.eqb c c'
  | IRange a b =>
      let lo := Nat.min (nat_of_ascii a) (nat_of_ascii b) in
      let hi := Nat.max (nat_of_ascii a) (nat_of_ascii b) in
      ((lo <=? nat_of_ascii c) && (nat_of_ascii c <=? hi))%nat
  end.

Fixpoint match_tokens (ts : list token) : string → bool :=
  match ts with
  | [] => λ s, match s with EmptyString => true | _ => false end
  | TStar :: ts' =>
      fix star (s : string) : bool :=
        match_tokens ts' s ||
        match s with String _ s' => star s' | EmptyString => false end
  | TAny :: ts' =>
      λ s, match s with String _ s' => match_tokens ts' s' | EmptyString => false end
  | TLit c :: ts' =>
      λ s, match s with
           | String c' s' => Ascii.eqb c c' && match_tokens ts' s'
           | EmptyString => false
           end
  | TClass neg items :: ts' =>
      λ s, match s with
           | String c' s' =>
               xorb neg (existsb (item_matches c') items) && match_tokens ts' s'
           | EmptyString => false
           end
  end.

Definition glob (pattern s : string) : bool := match_tokens (tokens pattern None) s.

Inductive bound : Type := NegInf | PosInf | Score (s : Z).

Definition in_range (min max : bound) (s : Z) : bool :=
  match min with NegInf => true | PosInf => false | Score a => a <=? s end &&
  match max with NegInf => false | PosInf => true | Score b => s <=? b end.

(** Order of a sorted set: by score, ties by member. *)
Definition entry_leb (a b : string * Z) : bool :=
  (a.2 <? b.2) || ((a.2 =? b.2) && String.leb a.1 b.1).

Fixpoint insert_sorted (x : string * Z) (l : list (string * Z)) : list (string * Z) :=
  match l with
  | [] => [x]
  | y :: l' => if entry_leb x y then x :: y :: l' else y :: insert_sorted x l'
  end.

Definition by_score (z : gmap string Z) : list (string * Z) :=
  foldr insert_sorted [] (map_to_list z).

(** Index range of ZRANGE / LRANGE: negative indices count from the end. *)
Definition zslice {A} (l : list A) (start stop : Z) : list A :=
  let len := Z.of_nat (length l) in
  let start := if start <? 0 then len + start else start in
  let stop := if stop <? 0 then len + stop else stop in
  let start := if start <? 0 then 0 else start in
  if (start >? stop) || (start >=? len) then []
  else
    let stop := if stop >=? len then len - 1 else stop in
    take (Z.to_nat (stop - start + 1)) (drop (Z.to_nat start) l).

Definition with_scores (l : list (string * Z)) : list string :=
  flat_map (λ ms, [ms.1; toString ms.2]) l.

Module redis.

Definition wrongtype : string :=
  "WRONGTYPE Operation against a key holding the wrong kind of value".
Definition invalid_expire : string := "ERR invalid expire time".
Definition wrong_arity : string := "ERR wrong number of arguments".

Definition expired (now : Z) (e : entry) : bool :=
  match e_deadline e with Some d => d <=? now | None => false end.

(** What a command sees at [key]: entries past their deadline are gone. *)
Definition live (w : world) (key : string) : option entry :=
  match db w !! key with
  | Some e => if expired (clock w) e then None else Some e
  | None => None
  end.

Definition raise {A} (e : exn) : M A :=
  λ w, (Throw e, set_store_errors (S (store_errors w)) w).

(** Every command first consults the fault schedule: when its bit is set
    it raises a connection error and leaves the keyspace as it was. *)
Definition command {A} (run : M A) : M A :=
  λ w, match faults w with
       | true :: fs => raise ConnectionError (set_faults fs w)
       | false :: fs => run (set_faults fs w)
       | [] => run w
       end.

(** A sorted set that becomes empty is removed together with its key. *)
Definition put_zset (key : string) (z : gmap string Z) (d : option Z) (w : world) : world :=
  if decide (size z = 0%nat) then set_db (delete key (db w)) w
  else set_db (<[key := Entry (PZSet z) d]> (db w)) w.

Definition zremrangebyscore (key : string) (min max : bound) : M Z :=
  command (λ w,
    match live w key with
    | None => (Ok 0, w)
    | Some (Entry (PZSet z) d) =>
        let z' := filter (λ ms : string * Z, in_range min max ms.2 = false) z in
        (Ok (Z.of_nat (size z - size z')), put_zset key z' d w)
    | Some (Entry (PStr _) _) => raise (ReplyError wrongtype) w
    end).

Definition zcard (key : string) : M Z :=
  command (λ w,
    match live w key with
    | None => (Ok 0, w)
    | Some (Entry (PZSet z) _) => (Ok (Z.of_nat (size z)), w)
    | Some (Entry (PStr _) _) => raise (ReplyError wrongtype) w
    end).

Definition zadd (key : string) (score : Z) (member : string) : M Z :=
  command (λ w,
    match live w key with
    | None =>
        (Ok 1, set_db (<[key := Entry (PZSet {[member := score]}) None]> (db w)) w)
    | Some (Entry (PZSet z) d) =>
        (Ok (match z !! member with Some _ => 0 | None => 1 end),
         set_db (<[key := Entry (PZSet (<[member := score]> z)) d]> (db w)) w)
    | Some (Entry (PStr _) _) => raise (ReplyError wrongtype) w
    end).

Definition zrem (key member : string) : M Z :=
  command (λ w,
    match live w key with
    | None => (Ok 0, w)
    | Some (Entry (PZSet z) d) =>
        (Ok (match z !! member with Some _ => 1 | None => 0 end), put_zset key (delete member z) d w)
    | Some (Entry (PStr _) _) => raise (ReplyError wrongtype) w
    end).

(** ZRANGE key start stop WITHSCORES: members and scores alternate. *)
Definition zrange (key : string) (start stop : Z) : M (list string) :=
  command (λ w,
    match live w key with
    | None => (Ok [], w)
    | Some (Entry (PZSet z) _) => (Ok (with_scores (zslice (by_score z) start stop)), w)
    | Some (Entry (PStr _) _) => raise (ReplyError wrongtype) w
    end).

Definition expire (key : string) (seconds : Z) : M Z :=
  command (λ w,
    match live w key with
    | None => (Ok 0, w)
    | Some (Entry v _) =>
        if seconds <=? 0 then (Ok 1, set_db (delete key (db w)) w)
        else (Ok 1, set_db (<[key := Entry v (Some (clock w + seconds * 1000))]> (db w)) w)
    end).

Definition get (key : string) : M (option string) :=
  command (λ w,
    match live w key with
    | None => (Ok None, w)
    | Some (Entry (PStr s) _) => (Ok (Some s), w)
    | Some (Entry (PZSet _) _) => raise (ReplyError wrongtype) w
    end).

Definition set (key value : string) : M string :=
  command (λ w, (Ok "OK", set_db (<[key := Entry (PStr value) None]> (db w)) w)).

Definition setex (key : string) (seconds : Z) (value : string) : M string :=
  command (λ w,
    if seconds <=? 0 then raise (ReplyError invalid_expire) w
    else (Ok "OK",
          set_db (<[key := Entry (PStr value) (Some (clock w + seconds * 1000))]> (db w)) w)).

Definition del (ks : list string) : M Z :=
  command (λ w,
    match ks with
    | [] => raise (ReplyError wrong_arity) w
    | _ =>
        (Ok (Z.of_nat (length (filter (λ k, is_Some (live w k)) (remove_dups ks)))),
         set_db (foldr delete (db w) ks) w)
    end).

Definition keys (pattern : string) : M (list string) :=
  command (λ w,
    (Ok (filter (λ k, is_Some (live w k) ∧ glob pattern k = true) (map fst (map_to_list (db w)))),
     w)).






End redis.

Module logger.
Definition write (l : level) (msg : string) : M unit :=
  λ w, (Ok tt, set_logged ((l, msg) :: logged w) w).
Definition debug := write Debug.
Definition info := write Info.
Definition warn := write Warn.
Definition error := write Error.
End logger.

(** ** JSON values and their serialisation *)

(** Values exchanged with the cache.  Numbers are the integers and NaN,
    strings are sequences of code units below 256; [JSON.parse] accordingly
    rejects fractions, exponents and escapes of code units above 255, which
    the program's [JSON.parse] reads: texts with them are outside the
    model. *)
Inductive jsval : Type :=
| JNull
| JBool (b : bool)
| JNum (n : Z)
| JNaN
| JStr (s : string)
| JArr (items : list jsval)
| JObj (fields : list (string * jsval)).

Definition dquote : ascii := "034"%char.
Definition backslash : ascii := "092"%char.

Module JSON.

Definition hex (n : nat) : ascii :=
  ascii_of_nat (if (n <? 10)%nat then 48 + n else 87 + n).

Definition escape_char (c : ascii) : string :=
  let n := nat_of_ascii c in
  if Ascii.eqb c dquote then String backslash (String dquote EmptyString)
  else if Ascii.eqb c backslash then String backslash (String backslash EmptyString)
  else if (n =? 8)%nat then String backslash "b"
  else if (n =? 12)%nat then String backslash "f"
  else if (n =? 10)%nat then String backslash "n"
  else if (n =? 13)%nat then String backslash "r"
  else if (n =? 9)%nat then String backslash "t"
  else if (n <? 32)%nat then
    String backslash (String "u" (String "0" (String "0"
      (String (hex (n / 16)) (String (hex (n mod 16)) EmptyString)))))
  else String c EmptyString.

Fixpoint escape (s : string) : string :=
  match s with
  | EmptyString => EmptyString
  | String c r => escape_char c +:+ escape r
  end.

Definition quote (s : string) : string :=
  String dquote (escape s +:+ String dquote EmptyString).

Fixpoint join (sep : string) (l : list string) : string :=
  match l with
  | [] => EmptyString
  | [x] => x
  | x :: l' => x +:+ sep +:+ join sep l'
  end.

Fixpoint stringify (v : jsval) : string :=
  match v with
  | JNull => "null"
  | JBool true => "true"
  | JBool false => "false"
  | JNum n => toString n
  | JNaN => "null"
  | JStr s => quote s
  | JArr items => "[" +:+ join "," (map stringify items) +:+ "]"
  | JObj fields =>
      "{" +:+
      join "," ((fix members (fs : list (string * jsval)) : list string :=
                   match fs with
                   | [] => []
                   | (k, x) :: fs' => (quote k +:+ ":" +:+ stringify x) :: members fs'
                   end) fields) +:+
      "}"
  end.

Definition is_ws (c : ascii) : bool :=
  let n := nat_of_ascii c in
  ((n =? 32) || (n =? 9) || (n =? 10) || (n =? 13))%nat.

Fixpoint skip_ws (s : string) : string :=
  match s with
  | String c r => if is_ws c then skip_ws r else s
  | EmptyString => s
  end.

Definition unhex (c : ascii) : option nat :=
  let n := nat_of_ascii c in
  if ((48 <=? n) && (n <=? 57))%nat then Some (n - 48)%nat
  else if ((97 <=? n) && (n <=? 102))%nat then Some (n - 87)%nat
  else if ((65 <=? n) && (n <=? 70))%nat then Some (n - 55)%nat
  else None.

Definition unescape (c : ascii) : option ascii :=
  match c with
  | "b"%char => Some (ascii_of_nat 8)
  | "f"%char => Some (ascii_of_nat 12)
  | "n"%char => Some (ascii_of_nat 10)
  | "r"%char => Some (ascii_of_nat 13)
  | "t"%char => Some (ascii_of_nat 9)
  | "/"%char => Some "/"%char
  | _ => if Ascii.eqb c dquote then Some dquote
         else if Ascii.eqb c backslash then Some backslash else None
  end.

(** The characters of a string literal, after its opening quote. *)
Fixpoint parse_chars (s : string) : option (string * string) :=
  match s with
  | EmptyString => None
  | String c r =>
      if Ascii.eqb c dquote then Some (EmptyString, r)
      else if Ascii.eqb c backslash then
        match r with
        | String "u" (String h1 (String h2 (String h3 (String h4 r')))) =>
            match unhex h1, unhex h2, unhex h3, unhex h4 with
            | Some 0%nat, Some 0%nat, Some a, Some b =>
                match parse_chars r' with
                | Some (t, rest) => Some (String (ascii_of_nat (16 * a + b)) t, rest)
                | None => None
                end
            | _, _, _, _ => None
            end
        | String e r' =>
            match unescape e, parse_chars r' with
            | Some c', Some (t, rest) => Some (String c' t, rest)
            | _, _ => None
            end
        | EmptyString => None
        end
      else if (nat_of_ascii c <? 32)%nat then None
      else
        match parse_chars r with
        | Some (t, rest) => Some (String c t, rest)
        | None => None
        end
  end.

Fixpoint take_digits (s : string) : string * string :=
  match s with
  | String c r =>
      match digit_of c with
      | Some _ => let '(ds, rest) := take_digits r in (String c ds, rest)
      | None => (EmptyString, s)
      end
  | EmptyString => (EmptyString, EmptyString)
  end.

Definition starts_fraction (s : string) : bool :=
match s with
| String c _ => Ascii.eqb c "." || Ascii.eqb c "e" || Ascii.eqb c "E"
| EmptyString => false
end.

(** Integer literals only: a fraction or an exponent is rejected. *)
Definition parse_unsigned (s : string) : option (Z * string) :=
let '(ds, rest) := take_digits s in
match ds with
| EmptyString => None
| String c ds' =>
    if Ascii.eqb c "0" && truthy ds' then None
    else if starts_fraction rest then None
    else match parse_digits ds None with Some n => Some (n, rest) | None => None end
end.

Definition parse_number (s : string) : option (jsval * string) :=
match s with
| String c r =>
    if Ascii.eqb c "-" then
      match parse_unsigned r with Some (n, rest) => Some (JNum (- n), rest) | None => None end
    else
      match parse_unsigned s with Some (n, rest) => Some (JNum n, rest) | None => None end
| EmptyString => None
end.

(** Recursive descent; [fuel] bounds the number of nested calls and is
    taken larger than the length of the text. *)
Fixpoint parse_value (fuel : nat) (s : string) : option (jsval * string) :=
  match fuel with
  | O => None
  | S fuel' =>
      match skip_ws s with
      | String "n" (String "u" (String "l" (String "l" r))) => Some (JNull, r)
      | String "t" (String "r" (String "u" (String "e" r))) => Some (JBool true, r)
      | String "f" (String "a" (String "l" (String "s" (String "e" r)))) =>
          Some (JBool false, r)
      | String "[" r =>
          match skip_ws r with
          | String "]" r' => Some (JArr [], r')
          | _ =>
              match parse_elements fuel' r with
              | Some (vs, rest) => Some (JArr vs, rest)
              | None => None
              end
          end
      | String "{" r =>
          match skip_ws r with
          | String "}" r' => Some (JObj [], r')
          | _ =>
              match parse_members fuel' r with
              | Some (fs, rest) => Some (JObj fs, rest)
              | None => None
              end
          end
      | String c r =>
          if Ascii.eqb c dquote then
            match parse_chars r with
            | Some (t, rest) => Some (JStr t, rest)
            | None => None
            end
          else parse_number (String c r)
      | EmptyString => None
      end
  end
with parse_elements (fuel : nat) (s : string) : option (list jsval * string) :=
  match fuel with
  | O => None
  | S fuel' =>
      match parse_value fuel' s with
      | Some (v, rest) =>
          match skip_ws rest with
          | String "," r =>
              match parse_elements fuel' r with
              | Some (vs, rest') => Some (v :: vs, rest')
              | None => None
              end
          | String "]" r => Some ([v], r)
          | _ => None
          end
      | None => None
      end
  end
with parse_members (fuel : nat) (s : string) : option (list (string * jsval) * string) :=
  match fuel with
  | O => None
  | S fuel' =>
      match skip_ws s with
      | String c r =>
          if Ascii.eqb c dquote then
            match parse_chars r with
            | Some (k, rest) =>
                match skip_ws rest with
                | String ":" r1 =>
                    match parse_value fuel' r1 with
                    | Some (v, rest1) =>
                        match skip_ws rest1 with
                        | String "," r2 =>
                            match parse_members fuel' r2 with
                            | Some (fs, rest2) => Some ((k, v) :: fs, rest2)
                            | None => None
                            end
                        | String "}" r2 => Some ([(k, v)], r2)
                        | _ => None
                        end
                    | None => None
                    end
                | _ => None
                end
            | None => None
            end
          else None
      | EmptyString => None
      end
  end.

Definition parse (s : string) : outcome jsval :=
  match parse_value (S (String.length s)) s with
  | Some (v, rest) =>
      match skip_ws rest with
      | EmptyString => Ok v
      | _ => Throw SyntaxError
      end
  | None => Throw SyntaxError
  end.

End JSON.

(** Property read [v.name]: the last binding wins; [None] is undefined. *)
Fixpoint field (name : string) (fs : list (string * jsval)) : option jsval :=
  match fs with
  | [] => None
  | (k, x) :: fs' =>
      match field name fs' with
      | Some y => Some y
      | None => if String.eqb k name then Some x else None
      end
  end.

(** Truthiness of a value that may be undefined. *)
Definition truthy_val (v : option jsval) : bool :=
  match v with
  | None | Some JNull | Some JNaN | Some (JBool false) => false
  | Some (JNum n) => negb (n =? 0)
  | Some (JStr s) => truthy s
  | Some _ => true
  end.

(** A primitive passed to a store command is sent as its string form;
    [None] for the arguments the client does not send as one string. *)
Definition to_arg (v : jsval) : option string :=
  match v with
  | JStr s => Some s
  | JNum n => Some (toString n)
  | JNaN => Some "NaN"
  | JBool true => Some "true"
  | JBool false => Some "false"
  | JNull => Some EmptyString
  | JArr _ | JObj _ => None
  end.

Definition lift {A} (o : outcome A) : M A := λ w, (o, w).

(** ** Ambient effects *)

(** [Date.now()].  Its readings within one call agree: no time passes
    while the store commands are awaited. *)
Definition Date_now : M Z := λ w, (Ok (clock w), w).

(** The next string of the entropy source: the result of
    [Math.random().toString(36).substring(7)] or of [nanoid()]. *)
Definition draw : M string :=
  λ w, match entropy w with
       | s :: rest => (Ok s, set_entropy rest w)
       | [] => (Ok EmptyString, w)
       end.

(** A fetcher is described by what its successive invocations resolve to;
    [invoke] runs it once. *)
Definition invoke (fetcher : nat → outcome jsval) : M jsval :=
  λ w, (fetcher (fetched w), set_fetched (S (fetched w)) w).

(** ** cache.ts *)

Definition setWithExpiry (key value : string) (ttlSeconds : Z) : M string :=
  try_catch
    (redis.setex key ttlSeconds value)
    (λ error,
      logger.error ("Redis setWithExpiry error for key " +:+ key) ;;;
      throw error).

Definition getValue (key : string) : M (option string) :=
  try_catch
    (redis.get key)
    (λ error,
      logger.error ("Redis getValue error for key " +:+ key) ;;;
      throw error).

Definition deleteKey (key : string) : M Z :=
  try_catch
    (redis.del [key])
    (λ error,
      logger.error ("Redis deleteKey error for key " +:+ key) ;;;
      throw error).


(** [ttlSeconds] is optional; [None] is an omitted argument. *)
Definition setJson (key : string) (value : jsval) (ttlSeconds : option Z) : M string :=
  try_catch
    (let stringified := JSON.stringify value in
     if truthy_val (JNum <$> ttlSeconds)
     then redis.setex key (default 0 ttlSeconds) stringified
     else redis.set key stringified)
    (λ error,
      logger.error ("Redis setJson error for key " +:+ key) ;;;
      throw error).

(** The result is [JNull] for JavaScript's [null]. *)
Definition getJson (key : string) : M jsval :=
  try_catch
    (let! value := redis.get key in
     match value with
     | None => ret JNull
     | Some s => if negb (truthy s) then ret JNull else lift (JSON.parse s)
     end)
    (λ error,
      logger.error ("Redis getJson error for key " +:+ key) ;;;
      throw error).

Definition is_null (v : jsval) : bool :=
  match v with JNull => true | _ => false end.

(** [ttlSeconds] defaults to 3600 when omitted. *)
Definition cache (key : string) (fetcher : nat → outcome jsval) (ttlSeconds : option Z)
  : M jsval :=
  let ttlSeconds := default 3600 ttlSeconds in
  try_catch
    (let! cached := getJson key in
     if negb (is_null cached) then
       logger.debug ("Cache hit for key: " +:+ key) ;;;
       ret cached
     else
       logger.debug ("Cache miss for key: " +:+ key +:+ ", fetching fresh data") ;;;
       let! fresh := invoke fetcher in
       setJson key fresh (Some ttlSeconds) ;;;
       ret fresh)
    (λ error,
      logger.error ("Cache operation error for key " +:+ key) ;;;
      invoke fetcher).

Definition invalidateCache (pattern : string) : M Z :=
  try_catch
    (let! keys := redis.keys pattern in
     if (length keys =? 0)%nat then ret 0
     else
       let! deleted := redis.del keys in
       logger.info ("Invalidated " +:+ toString deleted +:+
                    " cache entries for pattern: " +:+ pattern) ;;;
       ret deleted)
    (λ error,
      logger.error ("Cache invalidation error for pattern " +:+ pattern) ;;;
      throw error).

(** ** rate-limit.ts *)

Record RateLimitResult : Type := Result {
  allowed : bool;
  remaining : Z;
  resetAt : date;
  memberId : option string
}.

Definition checkRateLimit (identifier : string) (maxRequests windowMs : Z)
  : M RateLimitResult :=
  let key := "rate_limit:" +:+ identifier in
  let! now := Date_now in
  let windowStart := now - windowMs in
  try_catch
    (redis.zremrangebyscore key NegInf (Score windowStart) ;;;
     let! count := redis.zcard key in
     if count <? maxRequests then
       let! suffix := draw in
       let memberId := toString now +:+ "-" +:+ suffix in
       redis.zadd key now memberId ;;;
       redis.expire key (ceil_div windowMs 1000 + 1) ;;;
       ret {| allowed := true;
              remaining := maxRequests - count - 1;
              resetAt := Date (now + windowMs);
              memberId := Some memberId |}
     else
       let! oldestEntry := redis.zrange key 0 0 in
       let resetAt :=
         match oldestEntry !! 1%nat with
         | Some score =>
             if truthy score then new_Date ((λ t, t + windowMs) <$> parseInt score)
             else Date (now + windowMs)
         | None => Date (now + windowMs)
         end in
       ret {| allowed := false; remaining := 0; resetAt := resetAt; memberId := None |})
    (λ error,
      logger.error ("Rate limit check error for " +:+ identifier) ;;;
      ret {| allowed := true;
             remaining := maxRequests;
             resetAt := Date (now + windowMs);
             memberId := None |}).

(** ** rate-limiter.ts *)

(** The part of the Hono context the middleware reads: the request headers
    (lower-cased names) and the path. *)
Record request : Type := Request {
  req_headers : list (string * string);
  req_path : string
}.

Record response : Type := Response { status : Z; body : jsval }.

Definition header (c : request) (name : string) : option string :=
  snd <$> List.find (λ h, String.eqb h.1 name) (req_headers c).

Definition c_header (name value : string) : M unit :=
  λ w, (Ok tt, set_res_headers ((name, value) :: res_headers w) w).
Definition c_set (name value : string) : M unit :=
  λ w, (Ok tt, set_vars ((name, value) :: vars w) w).
Definition c_json (b : jsval) (code : Z) : response := Response code b.

(** [s.split(",")[0]] *)
Fixpoint first_hop (s : string) : string :=
  match s with
  | EmptyString => EmptyString
  | String c r => if Ascii.eqb c ","%char then EmptyString else String c (first_hop r)
  end.

Definition trim (s : string) : string :=
  String.rev (skip_spaces (String.rev (skip_spaces s))).

Definition ipHeaders : list string :=
  [ "cf-connecting-ip"; "x-real-ip"; "x-forwarded-for";
    "x-client-ip"; "true-client-ip"; "x-cluster-client-ip" ].

Fixpoint first_ip (c : request) (names : list string) : option string :=
  match names with
  | [] => None
  | name :: rest =>
      match header c name with
      | Some value =>
          if truthy value then
            if String.eqb name "x-forwarded-for" then Some (trim (first_hop value))
            else Some value
          else first_ip c rest
      | None => first_ip c rest
      end
  end.

Definition getClientIp (c : request) : string :=
  match first_ip c ipHeaders with
  | Some ip => ip
  | None =>
      match header c "remote-addr" with
      | Some a => if truthy a then a else "unknown"
      | None => "unknown"
      end
  end.

Definition defaultKeyGenerator (c : request) : string :=
  getClientIp c +:+ ":" +:+ req_path c.

(** The configuration after the defaults have been merged in.  The fields
    the middleware never reads (analytics, cost, backoff) are left out. *)
Record RateLimitConfig : Type := Config {
  windowMs : Z;
  maxRequests : Z;
  keyGenerator : request → string;
  skipSuccessfulRequests : bool;
  skipFailedRequests : bool;
  message : option string;
  handler : option (request → M response);
  whitelist : option (list string);
  standardHeaders : bool
}.

Definition defaultConfig : RateLimitConfig :=
  {| windowMs := 60000; maxRequests := 100; keyGenerator := defaultKeyGenerator;
     skipSuccessfulRequests := false; skipFailedRequests := false;
     message := None; handler := None; whitelist := None; standardHeaders := true |}.

(** [Math.ceil((resetAt.getTime() - Date.now()) / 1000)]; [None] is NaN. *)
Definition seconds_until (resetAt : date) (now : Z) : option Z :=
  (λ t, ceil_div (t - now) 1000) <$> getTime resetAt.

Definition num_toString (n : option Z) : string :=
  match n with Some z => toString z | None => "NaN" end.
Definition num_val (n : option Z) : jsval :=
  match n with Some z => JNum z | None => JNaN end.

Definition when (b : bool) (c : M unit) : M unit := if b then c else ret tt.

Definition request_key (requestId : string) : string := "ratelimit:request:" +:+ requestId.

(** The rollback performed once the downstream response is known. *)
Definition rollback (requestId : string) : M unit :=
  let! requestInfo := getValue (request_key requestId) in
  match requestInfo with
  | Some info =>
      when (truthy info)
        (try_catch
           (let! parsed := lift (JSON.parse info) in
            match parsed with
            | JNull => throw TypeError
            | _ =>
                let fs := match parsed with JObj fs => fs | _ => [] end in
                let key := field "key" fs in
                let storedMemberId := field "memberId" fs in
                when (truthy_val key && truthy_val storedMemberId)
                  match key ≫= to_arg, storedMemberId ≫= to_arg with
                  | Some k, Some m =>
                      redis.zrem k m ;;;
                      deleteKey (request_key requestId) ;;;
                      ret tt
                  | _, _ => throw TypeError
                  end
            end)
           (λ error, logger.warn "Failed to rollback rate limit entry"))
  | None => ret tt
  end.

(** What [await next()] yields.  [Next] is declared [() => Promise<void>].
    Hono, the framework the middleware is written for and mounted on,
    resolves it to the context object [c], whose [res] property holds the
    response of the downstream stages and whose [status] property is a
    method; a continuation written by hand may resolve it to [undefined] or
    to a [Response]. *)
Inductive resolved : Type :=
| Undefined
| HonoContext (res : response)
| AResponse (r : response).

(** [response.status], where [response] is what [await next()] yielded:
    the status code of a [Response]; a function for the context object,
    which compares as NaN ([None]); a TypeError for [undefined]. *)
Definition status_of (response : resolved) : M (option Z) :=
  match response with
  | AResponse r => ret (Some (status r))
  | HonoContext _ => ret None
  | Undefined => throw TypeError
  end.

(** [x < n] and [x >= n] on numbers: both are false of NaN. *)
Definition num_lt (x : option Z) (n : Z) : bool :=
  match x with Some s => s <? n | None => false end.
Definition num_ge (x : option Z) (n : Z) : bool :=
  match x with Some s => s >=? n | None => false end.

(** The skip condition
    [(skipSuccessfulRequests && response.status < 400) ||
     (skipFailedRequests && response.status >= 400)],
    evaluated left to right with short-circuiting. *)
Definition skip_matches (finalConfig : RateLimitConfig) (response : resolved)
  : M bool :=
  let! successful :=
    if skipSuccessfulRequests finalConfig
    then let! s := status_of response in ret (num_lt s 400)
    else ret false in
  if successful then ret true
  else if skipFailedRequests finalConfig
       then let! s := status_of response in ret (num_ge s 400)
       else ret false.

(** The middleware returned by [rateLimiter(config)], applied to a request
    and to the rest of the pipeline.  [next] resolves to whatever the
    framework hands back from the downstream stages.  A promise returned
    without [await] ([return next()], [return handler(c)]) settles outside
    the [try] block: the body yields it as a computation that is run after
    the block.  The [catch] block calls [next()] whether or not the [try]
    block had called it already; what a second call does is the
    framework's business (Hono's dispatcher rejects it), and the statements
    below are about runs that call [next()] once. *)
Definition rateLimiter (finalConfig : RateLimitConfig) (c : request)
  (next : M resolved) : M resolved :=
  let! continue :=
    try_catch
      (if match whitelist finalConfig with
          | Some ips => bool_decide (getClientIp c ∈ ips)
          | None => false
          end
       then ret next
       else
         let identifier := keyGenerator finalConfig c in
         let effectiveMaxRequests := maxRequests finalConfig in
         let effectiveWindowMs := windowMs finalConfig in
         let! r := checkRateLimit identifier effectiveMaxRequests effectiveWindowMs in
         let! requestId := draw in
         let! requestTimestamp := Date_now in
         c_set "rateLimitRequestId" requestId ;;;
         match memberId r with
         | Some mid =>
             if (skipSuccessfulRequests finalConfig || skipFailedRequests finalConfig)
                && truthy mid
             then
               setWithExpiry (request_key requestId)
                 (JSON.stringify
                    (JObj [("identifier", JStr identifier);
                           ("timestamp", JNum requestTimestamp);
                           ("memberId", JStr mid);
                           ("key", JStr ("rate_limit:" +:+ identifier))]))
                 60 ;;;
               ret tt
             else ret tt
         | None => ret tt
         end ;;;
         if negb (allowed r) then
           let! now := Date_now in
           let resetTime := seconds_until (resetAt r) now in
           when (standardHeaders finalConfig)
             (c_header "X-RateLimit-Limit" (toString effectiveMaxRequests) ;;;
              c_header "X-RateLimit-Remaining" "0" ;;;
              c_header "X-RateLimit-Reset" (num_toString resetTime) ;;;
              c_header "Retry-After" (num_toString resetTime)) ;;;
           match handler finalConfig with
           | Some h => ret (let! r := h c in ret (AResponse r))
           | None =>
               ret (ret (AResponse (c_json
                 (JObj [("error", JStr "Too Many Requests");
                        ("message",
                         JStr (match message finalConfig with
                               | Some m =>
                                   if truthy m then m
                                   else "Rate limit exceeded. Please try again later."
                               | None => "Rate limit exceeded. Please try again later."
                               end));
                        ("retryAfter", num_val resetTime)])
                 429)))
           end
         else
           (if standardHeaders finalConfig then
              c_header "X-RateLimit-Limit" (toString effectiveMaxRequests) ;;;
              c_header "X-RateLimit-Remaining" (toString (remaining r)) ;;;
              let! now := Date_now in
              c_header "X-RateLimit-Reset" (num_toString (seconds_until (resetAt r) now))
            else ret tt) ;;;
           let! response := next in
           let! matched := skip_matches finalConfig response in
           when matched (rollback requestId) ;;;
           ret (ret response))
      (λ error,
        logger.error "Rate limiter error" ;;;
        ret next)
  in continue.

Definition ipRateLimiter (maxRequests windowMs : Z)
  : request → M resolved → M resolved :=
  rateLimiter
    {| windowMs := windowMs; maxRequests := maxRequests; keyGenerator := getClientIp;
       skipSuccessfulRequests := false; skipFailedRequests := false;
       message := None; handler := None; whitelist := None; standardHeaders := true |}.

(** ** Vocabulary of the statements *)

(** No store command of the schedule raises. *)
Definition quiet (w : world) : Prop := Forall (λ b, b = false) (faults w).

(** The world once a command has consumed its bit of the fault schedule. *)
Definition tick (w : world) : world := set_faults (tail (faults w)) w.

(** The Admission Window Record of [key] as the commands see it: an absent
    key is the empty set; [None] when the key holds a string. *)
Definition window_set (w : world) (key : string) : option (gmap string Z) :=
  match redis.live w key with
  | None => Some ∅
  | Some (Entry (PZSet z) _) => Some z
  | Some (Entry (PStr _) _) => None
  end.

(** The members that survive the purge of the scores up to [windowStart]. *)
Definition surviving (windowStart : Z) (z : gmap string Z) : gmap string Z :=
  filter (λ ms : string * Z, in_range NegInf (Score windowStart) ms.2 = false) z.

(** What [getJson] finds at [key] when the store answers: [None] when the
    read itself fails (wrong type, corrupt payload). *)
Definition cached_value (w : world) (key : string) : option jsval :=
  match redis.live w key with
  | None => Some JNull
  | Some (Entry (PStr s) _) =>
      if truthy s then
        match JSON.parse s with Ok v => Some v | Throw _ => None end
      else Some JNull
  | Some (Entry (PZSet _) _) => None
  end.

(** A run of calls, the clock reading [t] at the call made at [t]. *)
Definition at_time (t : Z) : M unit := λ w, (Ok tt, set_clock t w).

Fixpoint calls_at (identifier : string) (maxRequests windowMs : Z) (times : list Z)
  : M (list RateLimitResult) :=
  match times with
  | [] => ret []
  | t :: ts =>
      at_time t ;;;
      let! r := checkRateLimit identifier maxRequests windowMs in
      let! rs := calls_at identifier maxRequests windowMs ts in
      ret (r :: rs)
  end.


(** The first two store commands of [checkRateLimit]: purge, then count. *)
Definition windowCount (key : string) (windowStart : Z) : M Z :=
  redis.zremrangebyscore key NegInf (Score windowStart) ;;;
  redis.zcard key.

(** A downstream pipeline that resolves to [x] and leaves the keys [ks] of
    the store as they are. *)
Definition leaves_alone (next : M resolved) (x : resolved) (ks : list string)
  : Prop :=
  ∀ w, ∃ w', next w = (Ok x, w') ∧ (quiet w → quiet w') ∧
             ∀ k, k ∈ ks → redis.live w' k = redis.live w k.

(** A downstream pipeline that resolves to [x], after any lapse of time,
    and leaves what the store holds under the keys [ks] as it is. *)
Definition resolves_to (next : M resolved) (x : resolved) (ks : list string) : Prop :=
  ∀ w, ∃ w', next w = (Ok x, w') ∧ ∀ k, k ∈ ks → db w' !! k = db w !! k.

(** Value of a digit sequence read after the prefix [acc]. *)
Fixpoint uint_value (d : Decimal.uint) (acc : Z) : Z :=
  match d with
  | Decimal.Nil => acc
  | Decimal.D0 l => uint_value l (10 * acc)
  | Decimal.D1 l => uint_value l (10 * acc + 1)
  | Decimal.D2 l => uint_value l (10 * acc + 2)
  | Decimal.D3 l => uint_value l (10 * acc + 3)
  | Decimal.D4 l => uint_value l (10 * acc + 4)
  | Decimal.D5 l => uint_value l (10 * acc + 5)
  | Decimal.D6 l => uint_value l (10 * acc + 6)
  | Decimal.D7 l => uint_value l (10 * acc + 7)
  | Decimal.D8 l => uint_value l (10 * acc + 8)
  | Decimal.D9 l => uint_value l (10 * acc + 9)
  end.

(** What a store command leaves unchanged when it only touches [key]. *)
Definition frame (key : string) (w w' : world) : Prop :=
  clock w' = clock w ∧ entropy w' = entropy w ∧ (quiet w → quiet w') ∧
  ∀ k, k ≠ key → db w' !! k = db w !! k.

(** What every store command leaves alone, and how it counts its errors. *)
Definition command_effect {A} (c : M A) : Prop :=
  ∀ w o w', c w = (o, w') →
    fetched w' = fetched w ∧ entropy w' = entropy w ∧ clock w' = clock w ∧
    logged w' = logged w ∧
    match o with
    | Ok _ => store_errors w' = store_errors w
    | Throw _ => store_errors w' = S (store_errors w)
    end.

(** The text [s] does not go on with a digit. *)
Definition not_digit_start (s : string) : Prop :=
  match s with String c _ => digit_of c = None | EmptyString => True end.

(** The same configuration with both skip options off. *)
Definition no_skip (cfg : RateLimitConfig) : RateLimitConfig :=
  {| windowMs := windowMs cfg; maxRequests := maxRequests cfg;
     keyGenerator := keyGenerator cfg;
     skipSuccessfulRequests := false; skipFailedRequests := false;
     message := message cfg; handler := handler cfg; whitelist := whitelist cfg;
     standardHeaders := standardHeaders cfg |}.

(** Whether the skip condition of [cfg] matches the response. *)
Definition skipped (cfg : RateLimitConfig) (resp : response) : bool :=
  (skipSuccessfulRequests cfg && (status resp <? 400)) ||
  (skipFailedRequests cfg && (status resp >=? 400)).

(** Whether the client of [c] is on the whitelist of [cfg]. *)
Definition whitelisted (cfg : RateLimitConfig) (c : request) : bool :=
  match whitelist cfg with
  | Some ips => bool_decide (getClientIp c ∈ ips)
  | None => false
  end.

(** The Rollback Record the middleware stores at admission. *)
Definition rollback_record (identifier : string) (timestamp : Z) (mid : string) : jsval :=
  JObj [("identifier", JStr identifier);
        ("timestamp", JNum timestamp);
        ("memberId", JStr mid);
        ("key", JStr ("rate_limit:" +:+ identifier))].

(** ** Sample worlds *)

(** An empty store at time 0. *)
Definition w_empty : world :=
  World ∅ 0 [] ["a"; "b"; "c"; "d"] 0 0 [] [] [].

(** Three admissions of identifier [A] at times 0, 100 and 200. *)
Definition zset_full : gmap string Z :=
  <["0-a" := 0]> (<["100-b" := 100]> (<["200-c" := 200]> ∅)).

(** The store at time 300, with those admissions in place. *)
Definition w_full : world :=
  World {["rate_limit:A" := Entry (PZSet zset_full) (Some 3000)]} 300 [] ["d"; "e"] 0 0 [] [] [].

(** A store whose fourth command fails: inside [checkRateLimit], the
    EXPIRE that follows a successful ZADD. *)
Definition w_expire_fails : world :=
  World ∅ 0 [false; false; false; true] ["a"] 0 0 [] [] [].

(** A store that is down, and one that fails on the second command. *)
Definition w_down : world := World ∅ 0 [true] [] 0 0 [] [] [].
Definition w_write_fails : world := World ∅ 0 [false; true] [] 0 0 [] [] [].

(** Sample fetchers. *)
Definition fetch_total (n : nat) : outcome jsval := Ok (JObj [("total", JNum 5)]).
Definition fetch_null (n : nat) : outcome jsval := Ok JNull.

(** A configuration that does not count successful requests, a request,
    and the response of a downstream handler that answers 200. *)
Definition cfg_skip : RateLimitConfig :=
  {| windowMs := 1000; maxRequests := 3; keyGenerator := defaultKeyGenerator;
     skipSuccessfulRequests := true; skipFailedRequests := false;
     message := None; handler := None; whitelist := None; standardHeaders := true |}.
Definition req_sample : request := Request [("x-real-ip", "1.2.3.4")] "/api".
Definition resp_ok : response := Response 200 JNull.

(** The continuation under Hono, for that handler: it resolves to the
    context, whose response is the handler's; at once, or after 25 ms. *)
Definition next_ok : M resolved := ret (HonoContext resp_ok).
Definition next_hono : M resolved :=
  λ w, (Ok (HonoContext resp_ok), set_clock (clock w + 25) w).

(** ** client.ts *)


(** ** config/redis.ts *)

(** [retryStrategy]: the delay, in milliseconds, before reconnection attempt
    number [times]. *)
Definition retryStrategy (times : Z) : Z :=
  let delay := Z.min (times * 50) 2000 in
  delay.

(** [s.includes(sub)] *)
Fixpoint includes (sub s : string) : bool :=
  String.prefix sub s ||
  match s with
  | String _ r => includes sub r
  | EmptyString => false
  end.

(** [reconnectOnError], applied to the message of the error. *)
Definition reconnectOnError (err_message : string) : bool :=
  let targetError := "READONLY" in
  if includes targetError err_message then true else false.

(** ** routers/upload.ts: the cache keys of the file procedures *)

(** [`files:user:${ctx.session.user.id}:${JSON.stringify(input)}`] *)
Definition userFilesKey (userId : string) (input : jsval) : string :=
  "files:user:" +:+ userId +:+ ":" +:+ JSON.stringify input.

(** [`files:public:${JSON.stringify(input)}`] *)
Definition publicFilesKey (input : jsval) : string :=
  "files:public:" +:+ JSON.stringify input.

(** [`stats:user:${ctx.session.user.id}`] *)
Definition statsKey (userId : string) : string := "stats:user:" +:+ userId.

(** [`files:user:${ctx.session.user.id}:*`], the pattern invalidated after
    an upload, an update or a deletion. *)
Definition userFilesPattern (userId : string) : string :=
  "files:user:" +:+ userId +:+ ":*".

(** ** Further vocabulary *)

(** Characters with a meaning of their own in a KEYS pattern. *)
Definition glob_special (c : ascii) : bool :=
  Ascii.eqb c "*" || Ascii.eqb c "?" || Ascii.eqb c "[" || Ascii.eqb c "\".

Fixpoint chars (s : string) : list ascii :=
  match s with
  | EmptyString => []
  | String c r => c :: chars r
  end.

(** A string without pattern characters. *)
Definition plain (s : string) : Prop := Forall (λ c, glob_special c = false) (chars s).

(** A value without NaN, which [JSON.stringify] writes as [null]. *)
Fixpoint nan_free (v : jsval) : bool :=
  match v with
  | JNaN => false
  | JArr items => forallb nan_free items
  | JObj fields =>
      (fix all (fs : list (string * jsval)) : bool :=
         match fs with
         | [] => true
         | (_, x) :: fs' => nan_free x && all fs'
         end) fields
  | _ => true
  end.

(** [Number.isSafeInteger]: the integers a number holds exactly and that
    are written in decimal notation. *)
Definition isSafeInteger (n : Z) : bool :=
  (-9007199254740991 <=? n) && (n <=? 9007199254740991).

(** A value whose numbers are safe integers (so without NaN): on these the
    values of the model are the values of the program. *)
Fixpoint safe_numbers (v : jsval) : bool :=
  match v with
  | JNaN => false
  | JNum n => isSafeInteger n
  | JArr items => forallb safe_numbers items
  | JObj fields =>
      (fix all (fs : list (string * jsval)) : bool :=
         match fs with
         | [] => true
         | (_, x) :: fs' => safe_numbers x && all fs'
         end) fields
  | _ => true
  end.

(** The characters a JSON value can begin with. *)
Definition starts_value (c : ascii) : bool :=
  Ascii.eqb c "{" || Ascii.eqb c "[" || Ascii.eqb c dquote || Ascii.eqb c "-" ||
  Ascii.eqb c "t" || Ascii.eqb c "f" || Ascii.eqb c "n" ||
  match digit_of c with Some _ => true | None => false end.

(** A text that is not JSON whatever follows: past its white space it is
    empty or begins with a character no JSON value begins with. *)
Definition not_json (s : string) : bool :=
  match JSON.skip_ws s with
  | EmptyString => true
  | String c _ => negb (starts_value c)
  end.

(** An entry that [getJson] cannot read: a sorted set, or a text, not
    empty, that is not JSON. *)
Definition unreadable (e : entry) : bool :=
  match e_val e with
  | PZSet _ => true
  | PStr s => truthy s && not_json s
  end.

(** The time values of the valid dates. *)
Definition valid_time (t : Z) : bool :=
  (-8640000000000000 <=? t) && (t <=? 8640000000000000).

(** A store that holds the statistics of user 42 and one of their listings. *)
Definition w_cached : world :=
  World (<[statsKey "42" := Entry (PStr (JSON.stringify (JObj [("totalFiles", JNum 3)])))
                                  (Some 600000)]>
         (<[userFilesKey "42" (JObj [("limit", JNum 10)]) :=
              Entry (PStr (JSON.stringify (JArr [JNum 1; JNum 2; JNum 3]))) (Some 300000)]> ∅))
        1000 [] [] 0 0 [] [] [].

(** The texts of the members of an object, as [JSON.stringify] joins them. *)
Fixpoint members (fs : list (string * jsval)) : list string :=
  match fs with
  | [] => []
  | (k, x) :: fs' => (JSON.quote k +:+ ":" +:+ JSON.stringify x) :: members fs'
  end.

(** What the parser needs of the text that follows a number. *)
Definition after_value (rest : string) : Prop :=
  not_digit_start rest ∧ JSON.starts_fraction rest = false.

(** The text of [v] is read back as [v], whatever follows it. *)
Definition reads_back (v : jsval) : Prop :=
  ∀ fuel rest, (String.length (JSON.stringify v) ≤ fuel)%nat → after_value rest →
    JSON.parse_value fuel (JSON.stringify v +:+ rest) = Some (v, rest).

(** A store whose key [k] holds a text that is not JSON. *)
Definition w_corrupt : world :=
  World {["k" := Entry (PStr "<html>Bad Gateway</html>") None]} 0 [] [] 0 0 [] [] [].

(** A fetcher that fails on its first invocation only. *)
Definition fetch_flaky (n : nat) : outcome jsval :=
  match n with
  | O => Throw (AppError "database unavailable")
  | S _ => Ok (JObj [("total", JNum 5)])
  end.

(** A store command, or a program made of them, that leaves every key other
    than [key] as it is. *)
Definition touches_only {A} (key : string) (c : M A) : Prop :=
  ∀ w o w', c w = (o, w') → ∀ k, k ≠ key → db w' !! k = db w !! k.

(** A program that leaves the request context (response headers, context
    variables) and the fetch counter as they are. *)
Definition keeps_context {A} (c : M A) : Prop :=
  ∀ w o w', c w = (o, w') →
    res_headers w' = res_headers w ∧ vars w' = vars w ∧ fetched w' = fetched w.

(** A configuration with a whitelist, and one that limits a fixed
    identifier [A] to three requests per second. *)
Definition cfg_whitelist : RateLimitConfig :=
  {| windowMs := 1000; maxRequests := 3; keyGenerator := defaultKeyGenerator;
     skipSuccessfulRequests := false; skipFailedRequests := false;
     message := None; handler := None; whitelist := Some ["10.0.0.1"; "1.2.3.4"];
     standardHeaders := true |}.
Definition cfg_A : RateLimitConfig :=
  {| windowMs := 1000; maxRequests := 3; keyGenerator := λ _, "A";
     skipSuccessfulRequests := false; skipFailedRequests := false;
     message := None; handler := None; whitelist := None; standardHeaders := true |}.

(** The configuration [cfg_A] with a handler of its own for the requests
    over the quota. *)
Definition teapot (c : request) : M response :=
  ret (c_json (JObj [("error", JStr "slow down")]) 418).
Definition cfg_handler : RateLimitConfig :=
  {| windowMs := 1000; maxRequests := 3; keyGenerator := λ _, "A";
     skipSuccessfulRequests := false; skipFailedRequests := false;
     message := None; handler := Some teapot; whitelist := None; standardHeaders := true |}.

(** A quota of one request per second for the identifier [A], successful
    requests not to be counted. *)
Definition cfg_once : RateLimitConfig :=
  {| windowMs := 1000; maxRequests := 1; keyGenerator := λ _, "A";
     skipSuccessfulRequests := true; skipFailedRequests := false;
     message := None; handler := None; whitelist := None; standardHeaders := true |}.

(** The middleware from the call of [next()] on, for a request admitted
    under the request id [requestId]. *)
Definition downstream (finalConfig : RateLimitConfig) (requestId : string)
  (next : M resolved) : M resolved :=
  let! continue :=
    try_catch
      (let! response := next in
       let! matched := skip_matches finalConfig response in
       when matched (rollback requestId) ;;;
       ret (ret response))
      (λ error,
        logger.error "Rate limiter error" ;;;
        ret next)
  in continue.

(** A request that came through two proxies. *)
Definition req_forwarded : request :=
  Request [("x-forwarded-for", " 203.0.113.7 , 10.0.0.1")] "/api/upload".

(** The same, with no-break spaces (code unit 160) around the first hop. *)
Definition nbsp : ascii := "160"%char.
Definition req_padded : request :=
  Request [("x-forwarded-for",
            String nbsp ("203.0.113.7" +:+ String nbsp ", 10.0.0.1"))] "/api/upload".

(** A store whose fifth command fails: in the middleware, the SETEX of
    the Rollback Record that follows a successful check. *)
Definition w_record_fails : world :=
  World ∅ 0 [false; false; false; false; true] ["a"; "b"] 0 0 [] [] [].

(** A store whose Rollback Record for request [b] is not JSON. *)
Definition w_corrupt_record : world :=
  World {[request_key "b" := Entry (PStr "{oops") None]} 0 [] [] 0 0 [] [] [].

(** ** Runs of calls: what the quota means *)

(** The times of the allowed calls of a run. *)
Fixpoint admitted_times (times : list Z) (rs : list RateLimitResult) : list Z :=
  match times, rs with
  | t :: ts, r :: rs' =>
      if allowed r then t :: admitted_times ts rs' else admitted_times ts rs'
  | _, _ => []
  end.

(** Times that never go back: each is at least the one before, the first at
    least [tlast]. *)
Fixpoint ascending (tlast : Z) (times : list Z) : Prop :=
  match times with
  | [] => True
  | t :: ts => tlast ≤ t ∧ ascending t ts
  end.

(** The number of stamps later than [ws], and the number of stamps in the
    interval from [a] (excluded) to [a + windowMs] (included). *)
Definition later_than (ws : Z) (stamps : list Z) : Z :=
  Z.of_nat (length (filter (λ s, ws < s) stamps)).
Definition within (a windowMs : Z) (stamps : list Z) : Z :=
  Z.of_nat (length (filter (λ s, a < s ≤ a + windowMs) stamps)).

(** The store follows the admissions [adm] made so far, none later than
    [tlast]: the window set counts them, its members carry suffixes that
    the entropy source will not give again, and the key outlives the window
    of every admission. *)
Definition tracks (windowMs : Z) (key : string) (w : world) (adm : list Z) (tlast : Z)
  : Prop :=
  quiet w ∧ NoDup (entropy w) ∧ Forall (λ s, s ≤ tlast) adm ∧
  ((db w !! key = None ∧ adm = []) ∨
   ∃ z d, db w !! key = Some (Entry (PZSet z) (Some d)) ∧
          (∀ ws, tlast - windowMs ≤ ws →
                 Z.of_nat (size (surviving ws z)) = later_than ws adm) ∧
          Forall (λ s, s + windowMs < d) adm ∧
          ∀ m, is_Some (z !! m) →
               ∃ s x, m = toString s +:+ "-" +:+ x ∧ x ∉ entropy w).
(** * Properties *)

(** ** Numbers as text *)

Example toString_examples :
  toString 0 = "0" ∧ toString 1700000000123 = "1700000000123" ∧ toString (-42) = "-42".
Proof. repeat split; reflexivity. Qed.

Example parseInt_examples :
  parseInt "1700000000123" = Some 1700000000123 ∧ parseInt " -42x" = Some (-42) ∧
  parseInt "abc" = None ∧ parseInt EmptyString = None.
Proof. repeat split; reflexivity. Qed.

Section Decimal.

Lemma parse_digits_uint d acc :
  parse_digits (NilEmpty.string_of_uint d) (Some acc) = Some (uint_value d acc).
Proof.
  revert acc. induction d; intros acc; simpl; [reflexivity|..];
    rewrite IHd; do 2 f_equal; cbn; lia.
Qed.

Lemma parse_digits_uint_start d :
  d ≠ Nil → parse_digits (NilEmpty.string_of_uint d) None = Some (uint_value d 0).
Proof.
  destruct d; [congruence|..]; intros _; simpl; by rewrite parse_digits_uint.
Qed.

Lemma uint_value_pos d p : uint_value d (Z.pos p) = Z.pos (Pos.of_uint_acc d p).
Proof.
  revert p. induction d; intros p; simpl; try reflexivity;
    change (Pos.mul 10 p) with (10 * p)%positive;
    rewrite <- IHd; f_equal; lia.
Qed.

Lemma uint_value_0 d : uint_value d 0 = Z.of_N (Pos.of_uint d).
Proof.
  induction d; simpl; try reflexivity; try assumption;
    match goal with |- uint_value _ ?n = _ => change n with (Z.pos (Z.to_pos n)) end;
    rewrite uint_value_pos; reflexivity.
Qed.

Lemma parse_digits_pos p :
  parse_digits (NilZero.string_of_uint (Pos.to_uint p)) None = Some (Z.pos p).
Proof.
  pose proof (DecimalPos.Unsigned.to_uint_nonnil p) as Hnil.
  pose proof (DecimalPos.Unsigned.of_to p) as Hp.
  revert Hnil Hp. generalize (Pos.to_uint p). intros d Hnil Hp.
  assert (NilZero.string_of_uint d = NilEmpty.string_of_uint d) as ->
    by (destruct d; [congruence|reflexivity..]).
  rewrite parse_digits_uint_start by done.
  by rewrite uint_value_0, Hp.
Qed.

(** A rendered positive number starts with a digit. *)
Lemma string_of_uint_digit p :
  ∃ c r, NilZero.string_of_uint (Pos.to_uint p) = String c r ∧ is_Some (digit_of c).
Proof.
  pose proof (DecimalPos.Unsigned.to_uint_nonnil p) as Hnil.
  revert Hnil. generalize (Pos.to_uint p). intros d Hnil.
  destruct d; try congruence; simpl; eexists _, _; split; eauto.
Qed.
End Decimal.

Lemma digit_not_sign c :
  is_Some (digit_of c) → is_space c = false ∧ c ≠ "-"%char ∧ c ≠ "+"%char.
Proof.
  intros [d Hd]. unfold digit_of in Hd. unfold is_space.
  repeat split; [|intros ->; discriminate..].
  destruct (48 <=? nat_of_ascii c)%nat eqn:H1; [|discriminate].
  destruct (nat_of_ascii c <=? 57)%nat eqn:H2; [|discriminate].
  apply Nat.leb_le in H1, H2.
  destruct (nat_of_ascii c =? 32)%nat eqn:H3; [apply Nat.eqb_eq in H3; lia|].
  destruct (nat_of_ascii c <=? 13)%nat eqn:H4; [apply Nat.leb_le in H4; lia|].
  destruct (nat_of_ascii c =? 160)%nat eqn:H5; [apply Nat.eqb_eq in H5; lia|].
  by rewrite andb_false_r.
Qed.

(** [parseInt] reads back the text of an integer. *)
Lemma parseInt_toString z : parseInt (toString z) = Some z.
Proof.
  unfold toString. destruct z as [|p|p]; [reflexivity|..]; simpl.
  - destruct (string_of_uint_digit p) as (c & r & Hs & Hc).
    pose proof (parse_digits_pos p) as Hp. rewrite Hs in *.
    destruct (digit_not_sign c Hc) as (Hsp & Hm & Hpl).
    unfold parseInt. simpl. rewrite Hsp.
    destruct c as [[] [] [] [] [] [] [] []]; try exact Hp; congruence.
  - unfold parseInt. simpl. by rewrite parse_digits_pos.
Qed.

Lemma toString_truthy z : truthy (toString z) = true.
Proof.
  unfold toString. destruct z as [|p|p]; [reflexivity| |reflexivity]. simpl.
  destruct (string_of_uint_digit p) as (c & r & -> & _). reflexivity.
Qed.

(** ** The store commands when nothing fails *)

Lemma command_quiet {A} (run : M A) w : quiet w → redis.command run w = run (tick w).
Proof.
  unfold quiet, redis.command, tick. destruct w as [d c f e n se lg hs vs]; simpl.
  intros Hq. destruct f as [|[] f]; simpl; try reflexivity.
  by apply Forall_cons_1 in Hq as [? _].
Qed.

Lemma quiet_tick w : quiet w → quiet (tick w).
Proof.
  unfold quiet, tick. destruct (faults w) as [|b f] eqn:E; simpl; rewrite ?E; [done|].
  intros H. by apply Forall_cons_1 in H as [_ ?].
Qed.

Lemma frame_refl key w : frame key w w.
Proof. by repeat split. Qed.

Lemma frame_trans key w1 w2 w3 : frame key w1 w2 → frame key w2 w3 → frame key w1 w3.
Proof.
  intros (Ha1&Hb1&Hc1&Hd1) (Ha2&Hb2&Hc2&Hd2). repeat split; try congruence; auto.
  intros k Hk. rewrite Hd2, Hd1; auto.
Qed.

Lemma frame_tick key w : frame key w (tick w).
Proof. repeat split; auto using quiet_tick. Qed.

Lemma size_zero_empty (z : gmap string Z) : size z = 0%nat → z = ∅.
Proof. apply map_size_empty_inv. Qed.

Lemma live_Some w key e : redis.live w key = Some e → db w !! key = Some e ∧ redis.expired (clock w) e = false.
Proof.
  unfold redis.live. destruct (db w !! key) as [e'|]; [|done].
  destruct (redis.expired (clock w) e') eqn:E; [done|]. by intros [= ->].
Qed.

Lemma put_zset_spec key z d w :
  redis.expired (clock w) (Entry (PZSet z) d) = false →
  window_set (redis.put_zset key z d w) key = Some z ∧ frame key w (redis.put_zset key z d w) ∧
  (size z ≠ 0%nat → db (redis.put_zset key z d w) !! key = Some (Entry (PZSet z) d)) ∧
  (size z = 0%nat → db (redis.put_zset key z d w) !! key = None).
Proof.
  intros Hd. unfold redis.put_zset, window_set, redis.live. case_decide as Hz; unfold set_db, frame, quiet; cbn [db clock entropy faults].
  - rewrite lookup_delete_eq. rewrite (size_zero_empty z Hz). repeat split; try done.
    intros k Hk. by rewrite lookup_delete_ne.
  - rewrite lookup_insert_eq. rewrite Hd.
    repeat split; try done. intros k Hk. by rewrite lookup_insert_ne.
Qed.

Lemma window_set_cases w key z :
  window_set w key = Some z →
  (redis.live w key = None ∧ z = ∅) ∨ ∃ d, redis.live w key = Some (Entry (PZSet z) d).
Proof.
  unfold window_set. destruct (redis.live w key) as [[[s|z'] d]|]; intros [=]; subst; eauto.
Qed.

Lemma zremrangebyscore_quiet w key ws z :
  quiet w → window_set w key = Some z →
  ∃ w', redis.zremrangebyscore key NegInf (Score ws) w =
          (Ok (Z.of_nat (size z - size (surviving ws z))), w') ∧
        window_set w' key = Some (surviving ws z) ∧ frame key w w'.
Proof.
  intros Hq Hz. unfold redis.zremrangebyscore. rewrite command_quiet by done.
  change (redis.live (tick w) key) with (redis.live w key).
  destruct (window_set_cases _ _ _ Hz) as [[Hl ->]|[d Hl]]; rewrite Hl.
  - eexists; split; [reflexivity|]. split; [|apply frame_tick].
    unfold surviving. rewrite map_filter_empty. exact Hz.
  - apply live_Some in Hl as [Hdb Hexp].
    destruct (put_zset_spec key (surviving ws z) d (tick w)) as (Hw & Hf & _); [done|].
    eexists; split; [reflexivity|]. split; [exact Hw|].
    eapply frame_trans; [apply frame_tick|exact Hf].
Qed.

Lemma zcard_quiet w key z :
  quiet w → window_set w key = Some z →
  redis.zcard key w = (Ok (Z.of_nat (size z)), tick w).
Proof.
  intros Hq Hz. unfold redis.zcard. rewrite command_quiet by done.
  change (redis.live (tick w) key) with (redis.live w key).
  destruct (window_set_cases _ _ _ Hz) as [[Hl ->]|[d Hl]]; rewrite Hl; [|done].
  by rewrite map_size_empty.
Qed.

Lemma windowCount_quiet w key ws z :
  quiet w → window_set w key = Some z →
  ∃ w', windowCount key ws w = (Ok (Z.of_nat (size (surviving ws z))), w') ∧
        window_set w' key = Some (surviving ws z) ∧ frame key w w'.
Proof.
  intros Hq Hz. unfold windowCount, bind.
  destruct (zremrangebyscore_quiet w key ws z Hq Hz) as (w1 & -> & Hz1 & Hf1).
  assert (quiet w1) as Hq1 by (by apply Hf1).
  rewrite (zcard_quiet w1 key _ Hq1 Hz1).
  eexists; split; [reflexivity|]. split; [exact Hz1|].
  eapply frame_trans; [exact Hf1|apply frame_tick].
Qed.

Lemma live_lookup w key e :
  db w !! key = Some e → redis.expired (clock w) e = false → redis.live w key = Some e.
Proof. intros Hdb He. unfold redis.live. by rewrite Hdb, He. Qed.

Lemma zadd_quiet w key s m z :
  quiet w → window_set w key = Some z →
  ∃ w' d, redis.zadd key s m w =
            (Ok (match z !! m with Some _ => 0 | None => 1 end), w') ∧
          db w' !! key = Some (Entry (PZSet (<[m := s]> z)) d) ∧
          redis.expired (clock w) (Entry (PZSet (<[m := s]> z)) d) = false ∧
          frame key w w'.
Proof.
  intros Hq Hz. unfold redis.zadd. rewrite command_quiet by done.
  change (redis.live (tick w) key) with (redis.live w key).
  destruct (window_set_cases _ _ _ Hz) as [[Hl ->]|[d Hl]]; rewrite Hl.
  - eexists _, None; split; [by rewrite lookup_empty|].
    unfold set_db, frame, quiet; cbn [db clock entropy faults].
    rewrite lookup_insert_eq, insert_empty. repeat split; try done.
    + apply quiet_tick.
    + intros k Hk. by rewrite lookup_insert_ne.
  - apply live_Some in Hl as [Hdb Hexp].
    eexists _, d; split; [reflexivity|].
    unfold set_db, frame, quiet; cbn [db clock entropy faults].
    rewrite lookup_insert_eq. repeat split; try done.
    + apply quiet_tick.
    + intros k Hk. by rewrite lookup_insert_ne.
Qed.

Lemma expire_quiet w key seconds v d :
  quiet w → db w !! key = Some (Entry v d) → redis.expired (clock w) (Entry v d) = false →
  0 < seconds →
  ∃ w', redis.expire key seconds w = (Ok 1, w') ∧
        db w' !! key = Some (Entry v (Some (clock w + seconds * 1000))) ∧
        frame key w w'.
Proof.
  intros Hq Hdb Hexp Hs. unfold redis.expire. rewrite command_quiet by done.
  change (redis.live (tick w) key) with (redis.live w key).
  rewrite (live_lookup _ _ _ Hdb Hexp).
  destruct (seconds <=? 0) eqn:E; [apply Z.leb_le in E; lia|].
  eexists; split; [reflexivity|].
  unfold set_db, frame, quiet; cbn [db clock entropy faults].
  rewrite lookup_insert_eq. repeat split; try done.
  - apply quiet_tick.
  - intros k Hk. by rewrite lookup_insert_ne.
Qed.

Lemma draw_spec w :
  draw w = (Ok (hd EmptyString (entropy w)), set_entropy (tail (entropy w)) w).
Proof.
  unfold draw. destruct w as [d c f e n se lg hs vs]; simpl. by destruct e.
Qed.

Lemma ceil_div_pos a : 0 < a → 0 < ceil_div a 1000 ∧ a ≤ ceil_div a 1000 * 1000.
Proof.
  intros Ha. unfold ceil_div.
  pose proof (Z.div_mod (- a) 1000 ltac:(lia)).
  pose proof (Z.mod_pos_bound (- a) 1000 ltac:(lia)). lia.
Qed.

(** The admitting path of [checkRateLimit], when the store answers. *)
Lemma checkRateLimit_admit identifier maxRequests windowMs w z :
  let key := "rate_limit:" +:+ identifier in
  let now := clock w in
  let z' := surviving (now - windowMs) z in
  let mid := toString now +:+ "-" +:+ hd EmptyString (entropy w) in
  quiet w → window_set w key = Some z →
  Z.of_nat (size z') < maxRequests → 0 < windowMs →
  ∃ w', checkRateLimit identifier maxRequests windowMs w =
          (Ok {| allowed := true; remaining := maxRequests - Z.of_nat (size z') - 1;
                 resetAt := Date (now + windowMs); memberId := Some mid |}, w') ∧
        db w' !! key = Some (Entry (PZSet (<[mid := now]> z'))
                                   (Some (now + (ceil_div windowMs 1000 + 1) * 1000))) ∧
        clock w' = now ∧ entropy w' = tail (entropy w) ∧ quiet w' ∧
        ∀ k, k ≠ key → db w' !! k = db w !! k.
Proof.
  intros key now z' mid Hq Hz Hlt Hwin.
  unfold checkRateLimit, bind, try_catch, Date_now. fold key. fold now.
  destruct (windowCount_quiet w key (now - windowMs) z Hq Hz) as (w1 & Hc & Hz1 & Hf1).
  unfold windowCount, bind in Hc.
  destruct (redis.zremrangebyscore key NegInf (Score (now - windowMs)) w) as [[n|e] w0];
    [|discriminate].
  rewrite Hc. fold z'. apply Z.ltb_lt in Hlt as Hlt'. rewrite Hlt'.
  rewrite draw_spec.
  destruct Hf1 as (Hclk1 & Hent1 & Hq1 & Hdb1).
  set (w2 := set_entropy (tail (entropy w1)) w1).
  assert (quiet w2) as Hq2 by (by apply Hq1).
  assert (window_set w2 key = Some z') as Hz2 by exact Hz1.
  rewrite Hent1. fold mid.
  destruct (zadd_quiet w2 key now mid z' Hq2 Hz2) as (w3 & d & -> & Hdb3 & Hexp3 & Hf3).
  destruct Hf3 as (Hclk3 & Hent3 & Hq3 & Hdb3').
  assert (0 < ceil_div windowMs 1000 + 1) as Hsec by (pose proof (ceil_div_pos _ Hwin); lia).
  change (clock w2) with (clock w1) in *. rewrite <- Hclk3 in Hexp3.
  destruct (expire_quiet w3 key _ _ _ (Hq3 Hq2) Hdb3 Hexp3 Hsec) as (w4 & -> & Hdb4 & Hf4).
  destruct Hf4 as (Hclk4 & Hent4 & Hq4 & Hdb4').
  eexists; split; [reflexivity|].
  rewrite Hdb4, Hclk4, Hclk3, Hent4, Hent3. change (entropy w2) with (tail (entropy w1)).
  rewrite Hclk1, Hent1. repeat split; auto.
  intros k Hk. rewrite Hdb4', Hdb3' by done. change (db w2) with (db w1). by apply Hdb1.
Qed.

(** ** The oldest member of a sorted set *)

Ltac zbool :=
  repeat match goal with
  | H : (_ >? _) = _ |- _ => rewrite Z.gtb_ltb in H
  | H : (_ >=? _) = _ |- _ => rewrite Z.geb_leb in H
  | H : (_ <? _) = true |- _ => apply Z.ltb_lt in H
  | H : (_ <? _) = false |- _ => apply Z.ltb_ge in H
  | H : (_ <=? _) = true |- _ => apply Z.leb_le in H
  | H : (_ <=? _) = false |- _ => apply Z.leb_gt in H
  end.

Lemma entry_leb_true a b : entry_leb a b = true → a.2 ≤ b.2.
Proof. unfold entry_leb. intros H. apply orb_prop in H as [H|H]; lia. Qed.

Lemma entry_leb_false a b : entry_leb a b = false → b.2 ≤ a.2.
Proof. unfold entry_leb. intros H. apply orb_false_elim in H as [H _]. lia. Qed.

Lemma insert_sorted_head x l :
  head (insert_sorted x l) =
  Some (match head l with Some y => if entry_leb x y then x else y | None => x end).
Proof. destruct l as [|y l]; simpl; [done|]. by destruct (entry_leb x y). Qed.

Lemma sorted_head_min (l : list (string * Z)) :
  match head (foldr insert_sorted [] l) with
  | None => l = []
  | Some a => a ∈ l ∧ ∀ b, b ∈ l → a.2 ≤ b.2
  end.
Proof.
  induction l as [|x l IH]; simpl; [done|].
  rewrite insert_sorted_head.
  destruct (head (foldr insert_sorted [] l)) as [y|].
  - destruct IH as [Hy Hmin]. destruct (entry_leb x y) eqn:E.
    + apply entry_leb_true in E. split; [left|].
      intros b [->|Hb]%elem_of_cons; [lia|]. specialize (Hmin b Hb). lia.
    + apply entry_leb_false in E. split; [by right|].
      intros b [->|Hb]%elem_of_cons; [lia|]. by apply Hmin.
  - subst l. split; [left|]. by intros b ->%list_elem_of_singleton.
Qed.

(** The head of [by_score] is a member with the least score. *)
Lemma by_score_head (z : gmap string Z) :
  match head (by_score z) with
  | None => z = ∅
  | Some (m, s) => z !! m = Some s ∧ ∀ m' s', z !! m' = Some s' → s ≤ s'
  end.
Proof.
  unfold by_score. pose proof (sorted_head_min (map_to_list z)) as H.
  destruct (head (foldr insert_sorted [] (map_to_list z))) as [[m s]|].
  - destruct H as [Hin Hmin]. split; [by apply elem_of_map_to_list|].
    intros m' s' H'. apply elem_of_map_to_list in H'. exact (Hmin _ H').
  - by apply map_to_list_empty_iff.
Qed.

Lemma zslice_first {A} (l : list A) : zslice l 0 0 = take 1 l.
Proof.
  unfold zslice. destruct l as [|x l]; [reflexivity|].
  cbn [length]. rewrite Nat2Z.inj_succ. cbv zeta.
  do 2 (change (0 <? 0) with false; cbv iota). change (0 >? 0) with false.
  destruct (0 >=? Z.succ (Z.of_nat (length l))) eqn:E; [zbool; lia|].
  reflexivity.
Qed.

Lemma zslice_nil {A} start stop : zslice (@nil A) start stop = [].
Proof.
  unfold zslice. cbv zeta. cbn [length]. change (Z.of_nat 0) with 0.
  match goal with |- (if _ || (?s >=? 0) then _ else _) = _ =>
    assert ((s >=? 0) = true) as ->
  end; [|by rewrite orb_true_r].
  rewrite Z.geb_leb. apply Z.leb_le.
  destruct (start <? 0) eqn:E1;
    match goal with |- context [if ?b then _ else _] => destruct b eqn:E2 end;
    zbool; lia.
Qed.

Lemma oldest_score (z : gmap string Z) :
  with_scores (zslice (by_score z) 0 0) !! 1%nat =
  (λ ms : string * Z, toString ms.2) <$> head (by_score z).
Proof. rewrite zslice_first. by destruct (by_score z) as [|[m s] l]. Qed.

Lemma zrange_quiet w key z start stop :
  quiet w → window_set w key = Some z →
  redis.zrange key start stop w = (Ok (with_scores (zslice (by_score z) start stop)), tick w).
Proof.
  intros Hq Hz. unfold redis.zrange. rewrite command_quiet by done.
  change (redis.live (tick w) key) with (redis.live w key).
  destruct (window_set_cases _ _ _ Hz) as [[Hl ->]|[d Hl]]; rewrite Hl; [|done].
  unfold by_score. rewrite map_to_list_empty. cbn [foldr]. by rewrite zslice_nil.
Qed.

(** The denying path of [checkRateLimit], when the store answers. *)
Lemma checkRateLimit_deny identifier maxRequests windowMs w z :
  let key := "rate_limit:" +:+ identifier in
  let now := clock w in
  let z' := surviving (now - windowMs) z in
  quiet w → window_set w key = Some z → maxRequests ≤ Z.of_nat (size z') →
  ∃ w', checkRateLimit identifier maxRequests windowMs w =
          (Ok {| allowed := false; remaining := 0;
                 resetAt := match head (by_score z') with
                            | Some (_, s) => Date (s + windowMs)
                            | None => Date (now + windowMs)
                            end;
                 memberId := None |}, w') ∧
        window_set w' key = Some z' ∧ frame key w w'.
Proof.
  intros key now z' Hq Hz Hge.
  unfold checkRateLimit, bind, try_catch, Date_now. fold key. fold now.
  destruct (windowCount_quiet w key (now - windowMs) z Hq Hz) as (w1 & Hc & Hz1 & Hf1).
  unfold windowCount, bind in Hc.
  destruct (redis.zremrangebyscore key NegInf (Score (now - windowMs)) w) as [[n|e] w0];
    [|discriminate].
  rewrite Hc. fold z'.
  destruct (Z.of_nat (size z') <? maxRequests) eqn:E; [apply Z.ltb_lt in E; lia|].
  assert (quiet w1) as Hq1 by (by apply Hf1).
  rewrite (zrange_quiet w1 key z' 0 0 Hq1 Hz1). fold z'.
  exists (tick w1); split; [|split; [exact Hz1|]].
  - unfold ret. do 2 f_equal. rewrite oldest_score.
    destruct (head (by_score z')) as [[m s]|]; simpl; [|done].
    by rewrite toString_truthy, parseInt_toString.
  - eapply frame_trans; [exact Hf1|apply frame_tick].
Qed.

(** ** Outcomes of [checkRateLimit] *)

Lemma zcard_nonneg key w n w' : redis.zcard key w = (Ok n, w') → 0 ≤ n.
Proof.
  unfold redis.zcard, redis.command, redis.raise.
  destruct (faults w) as [|[] fs]; intros H;
  repeat match type of H with
  | context [match ?x with _ => _ end] => destruct x; simpl in H
  end; inversion H; lia.
Qed.

(** Runs the next command or conditional of a monadic program. *)
Ltac step :=
  match goal with
  | |- context [match ?c with _ => _ end] =>
      lazymatch c with
      | context [match _ with _ => _ end] => fail
      | (_ <? _) => destruct c eqn:?
      | entropy _ => destruct c eqn:?
      | _ => let o := fresh "o" in let w := fresh "w" in
             destruct c as [[o|o] w] eqn:?
      end
  end.

Lemma command_quiet_ok {A} (run : M A) w :
  quiet w → (∀ w0, ∃ a w1, run w0 = (Ok a, w1) ∧ faults w1 = faults w0) →
  ∃ a w', redis.command run w = (Ok a, w') ∧ quiet w'.
Proof.
  intros Hq Hrun. rewrite command_quiet by done.
  destruct (Hrun (tick w)) as (a & w1 & -> & Hf). eexists _, _; split; [done|].
  unfold quiet. rewrite Hf. by apply quiet_tick.
Qed.

Lemma put_zset_faults key z d w : faults (redis.put_zset key z d w) = faults w.
Proof. unfold redis.put_zset. by case_decide. Qed.

Lemma zadd_quiet_ok key s m w :
  quiet w → window_set w key ≠ None → ∃ n w', redis.zadd key s m w = (Ok n, w') ∧ quiet w'.
Proof.
  intros Hq Hz. destruct (window_set w key) as [z|] eqn:E; [|done].
  destruct (zadd_quiet w key s m z Hq E) as (w' & d & -> & _ & _ & Hf).
  eexists _, _; split; [done|]. by apply Hf.
Qed.

Lemma expire_quiet_ok key seconds w :
  quiet w → ∃ n w', redis.expire key seconds w = (Ok n, w') ∧ quiet w'.
Proof.
  intros Hq. apply command_quiet_ok; [done|]. intros w0.
  destruct (redis.live w0 key) as [[v d]|]; [destruct (seconds <=? 0)|]; by eexists _, _.
Qed.

(** What [checkRateLimit] decides, when the store answers. *)
Lemma checkRateLimit_decision identifier maxRequests windowMs w z :
  let key := "rate_limit:" +:+ identifier in
  let z' := surviving (clock w - windowMs) z in
  quiet w → window_set w key = Some z →
  ∃ r w', checkRateLimit identifier maxRequests windowMs w = (Ok r, w') ∧
          allowed r = bool_decide (Z.of_nat (size z') < maxRequests) ∧
          (allowed r = true → remaining r = maxRequests - Z.of_nat (size z') - 1) ∧
          (allowed r = false → remaining r = 0).
Proof.
  intros key z' Hq Hz.
  destruct (decide (Z.of_nat (size z') < maxRequests)) as [Hlt|Hge].
  - unfold checkRateLimit, bind, try_catch, Date_now. fold key.
    destruct (windowCount_quiet w key (clock w - windowMs) z Hq Hz) as (w1 & Hc & Hz1 & Hf1).
    unfold windowCount, bind in Hc.
    destruct (redis.zremrangebyscore key NegInf (Score (clock w - windowMs)) w)
      as [[n|e] w0]; [|discriminate].
    rewrite Hc. fold z'. apply Z.ltb_lt in Hlt as Hlt'. rewrite Hlt'. rewrite draw_spec.
    assert (quiet (set_entropy (tail (entropy w1)) w1)) as Hq2 by (by apply Hf1).
    destruct (zadd_quiet_ok key (clock w)
                (toString (clock w) +:+ "-" +:+ hd EmptyString (entropy w1))
                _ Hq2) as (n1 & w2 & -> & Hq3).
    { change (window_set w1 key ≠ None). by rewrite Hz1. }
    destruct (expire_quiet_ok key (ceil_div windowMs 1000 + 1) w2 Hq3) as (n2 & w3 & -> & _).
    eexists _, _; split; [reflexivity|]. cbn [allowed remaining].
    rewrite bool_decide_eq_true_2 by done. done.
  - destruct (checkRateLimit_deny identifier maxRequests windowMs w z Hq Hz ltac:(fold z'; lia))
      as (w' & -> & _).
    eexists _, _; split; [reflexivity|]. cbn [allowed remaining].
    rewrite bool_decide_eq_false_2 by done. done.
Qed.

(** ** The claims about the Rate Limit Engine *)

(** C9: for every call to [checkRateLimit] with [maxRequests ≥ 1], whatever
    the store holds and whichever commands fail, the call returns a result
    whose [remaining] lies between 0 and [maxRequests], and whose [remaining]
    is exactly 0 whenever [allowed] is false. *)
Theorem remaining_bounds identifier maxRequests windowMs w :
  1 ≤ maxRequests →
  ∃ r w', checkRateLimit identifier maxRequests windowMs w = (Ok r, w') ∧
          0 ≤ remaining r ≤ maxRequests ∧ (allowed r = false → remaining r = 0).
Proof.
  intros Hmax.
  unfold checkRateLimit, bind, try_catch, Date_now, ret, logger.error, logger.write, draw.
  repeat step;
    (eexists _, _; split; [reflexivity|]; simpl; split; [|congruence || done]);
    try lia;
    match goal with H : redis.zcard _ _ = (Ok _, _) |- _ => apply zcard_nonneg in H end;
    zbool; lia.
Qed.

Lemma remaining_bounds_witness :
  1 ≤ 3 ∧ ∃ r w', checkRateLimit "A" 3 1000 w_empty = (Ok r, w') ∧
          0 ≤ remaining r ≤ 3 ∧ (allowed r = false → remaining r = 0).
Proof. split; [lia|]. apply (remaining_bounds "A" 3 1000 w_empty). lia. Defined.

(** C2: when the window set, once purged, still holds at least
    [maxRequests] members and the store answers, [checkRateLimit] denies:
    [allowed = false], [remaining = 0], no member id, and [resetAt] is the
    timestamp of an oldest surviving member plus [windowMs]; when no member
    survives to be read, [resetAt] falls back to [now + windowMs]. *)
Theorem deny_when_window_full identifier maxRequests windowMs w z :
  let key := "rate_limit:" +:+ identifier in
  let now := clock w in
  let z' := surviving (now - windowMs) z in
  quiet w → window_set w key = Some z → maxRequests ≤ Z.of_nat (size z') →
  ∃ r w', checkRateLimit identifier maxRequests windowMs w = (Ok r, w') ∧
          allowed r = false ∧ remaining r = 0 ∧ memberId r = None ∧
          (∀ m s, z' !! m = Some s → (∀ m' s', z' !! m' = Some s' → s ≤ s') →
                  resetAt r = Date (s + windowMs)) ∧
          (z' = ∅ → resetAt r = Date (now + windowMs)).
Proof.
  intros key now z' Hq Hz Hge.
  destruct (checkRateLimit_deny identifier maxRequests windowMs w z Hq Hz Hge)
    as (w' & -> & _ & _).
  eexists _, _; split; [reflexivity|]. cbn [allowed remaining memberId resetAt].
  fold now. fold z'. pose proof (by_score_head z') as Hhead.
  repeat split.
  - intros m s Hm Hmin. destruct (head (by_score z')) as [[m0 s0]|].
    + destruct Hhead as [Hm0 Hmin0]. f_equal.
      specialize (Hmin0 _ _ Hm). specialize (Hmin _ _ Hm0). lia.
    + rewrite Hhead in Hm. by rewrite lookup_empty in Hm.
  - intros He. destruct (head (by_score z')) as [[m0 s0]|]; [|done].
    destruct Hhead as [Hm0 _]. rewrite He in Hm0. by rewrite lookup_empty in Hm0.
Qed.

Lemma deny_when_window_full_witness :
  quiet w_full ∧ window_set w_full "rate_limit:A" = Some zset_full ∧
  3 ≤ Z.of_nat (size (surviving (300 - 1000) zset_full)) ∧
  ∃ r w', checkRateLimit "A" 3 1000 w_full = (Ok r, w') ∧
          allowed r = false ∧ remaining r = 0 ∧ memberId r = None ∧
          (∀ m s, surviving (300 - 1000) zset_full !! m = Some s →
                  (∀ m' s', surviving (300 - 1000) zset_full !! m' = Some s' → s ≤ s') →
                  resetAt r = Date (s + 1000)) ∧
          (surviving (300 - 1000) zset_full = ∅ → resetAt r = Date (300 + 1000)).
Proof.
  assert (quiet w_full) as Hq by constructor.
  assert (window_set w_full "rate_limit:A" = Some zset_full) as Hz by (vm_compute; reflexivity).
  assert (3 ≤ Z.of_nat (size (surviving (300 - 1000) zset_full))) as Hn by (vm_compute; discriminate).
  repeat split; try assumption.
  exact (deny_when_window_full "A" 3 1000 w_full zset_full Hq Hz Hn).
Defined.

Lemma window_set_db w key z dl :
  db w !! key = Some (Entry (PZSet z) (Some dl)) → clock w < dl → window_set w key = Some z.
Proof.
  intros Hdb Hdl. unfold window_set.
  rewrite (live_lookup w key _ Hdb); [done|].
  unfold redis.expired. simpl. apply Z.leb_gt. lia.
Qed.

(** C4: in every call of [checkRateLimit] on a store that answers and
    holds no member stamped later than [now], the members stamped
    [windowStart = now - windowMs] or earlier, those stamped exactly
    [windowStart] included, are removed before the count is taken.  The
    members counted toward the quota are exactly those stamped in the
    half-open window [(windowStart, now]]: the call is allowed exactly when
    their number is below [maxRequests], [remaining] is computed from that
    number and, for a positive window, the window set the call leaves
    behind is made of those members, with the new member when the call is
    allowed. *)
Theorem window_is_half_open identifier maxRequests windowMs w z :
  let key := "rate_limit:" +:+ identifier in
  let now := clock w in
  let windowStart := now - windowMs in
  let counted := filter (λ ms : string * Z, windowStart < ms.2 ≤ now) z in
  let mid := toString now +:+ "-" +:+ hd EmptyString (entropy w) in
  quiet w → window_set w key = Some z →
  (∀ m s, z !! m = Some s → s ≤ now) →
  (∀ m s, z !! m = Some s → s ≤ windowStart → counted !! m = None) ∧
  ∃ r w',
    checkRateLimit identifier maxRequests windowMs w = (Ok r, w') ∧
    allowed r = bool_decide (Z.of_nat (size counted) < maxRequests) ∧
    remaining r = (if allowed r then maxRequests - Z.of_nat (size counted) - 1 else 0) ∧
    (0 < windowMs →
     window_set w' key = Some (if allowed r then <[mid := now]> counted else counted)).
Proof.
  intros key now windowStart counted mid Hq Hz Hle.
  assert (surviving windowStart z = counted) as Hs.
  { unfold surviving, counted. apply map_filter_ext. intros m s Hm. simpl.
    specialize (Hle _ _ Hm). unfold in_range. destruct (s <=? windowStart) eqn:E; simpl; zbool;
      (split; [intros; try discriminate; lia | intros; try reflexivity; lia]). }
  split.
  { intros m s Hm Hold. apply map_lookup_filter_None. right. intros s' Hs'. simpl.
    assert (s' = s) as -> by congruence. lia. }
  destruct (decide (0 < windowMs)) as [Hwin|Hwin].
  - destruct (decide (Z.of_nat (size counted) < maxRequests)) as [Hlt|Hge].
    + destruct (checkRateLimit_admit identifier maxRequests windowMs w z Hq Hz) as
        (w' & Hr & Hdb & Hclk & _); [fold now windowStart; by rewrite Hs|done|].
      fold key now windowStart mid in Hr, Hdb. rewrite Hs in Hr, Hdb.
      eexists _, w'. split; [exact Hr|]. cbn [allowed remaining].
      rewrite bool_decide_eq_true_2 by done. split; [done|]. split; [done|]. intros _.
      apply (window_set_db w' key _ _ Hdb). rewrite Hclk. fold now.
      pose proof (ceil_div_pos windowMs Hwin). lia.
    + destruct (checkRateLimit_deny identifier maxRequests windowMs w z Hq Hz) as
        (w' & Hr & Hz' & _); [fold now windowStart; rewrite Hs; lia|].
      fold key now windowStart in Hr, Hz'. rewrite Hs in Hz'.
      eexists _, w'. split; [exact Hr|]. cbn [allowed remaining].
      rewrite bool_decide_eq_false_2 by done. done.
  - destruct (checkRateLimit_decision identifier maxRequests windowMs w z Hq Hz)
      as (r & w' & Hr & Ha & Hrem1 & Hrem0).
    fold now windowStart in Ha, Hrem1. rewrite Hs in Ha, Hrem1.
    exists r, w'. split; [exact Hr|]. split; [exact Ha|]. split; [|done].
    destruct (allowed r); [by apply Hrem1|by apply Hrem0].
Qed.

Lemma window_is_half_open_witness :
  quiet (set_clock 1000 w_full) ∧
  window_set (set_clock 1000 w_full) "rate_limit:A" = Some zset_full ∧
  (∀ m s, zset_full !! m = Some s → s ≤ 1000) ∧
  (∀ m s, zset_full !! m = Some s → s ≤ 1000 - 1000 →
          filter (λ ms : string * Z, 1000 - 1000 < ms.2 ≤ 1000) zset_full !! m = None) ∧
  ∃ r w',
    checkRateLimit "A" 3 1000 (set_clock 1000 w_full) = (Ok r, w') ∧
    allowed r =
      bool_decide
        (Z.of_nat (size (filter (λ ms : string * Z, 1000 - 1000 < ms.2 ≤ 1000) zset_full)) < 3) ∧
    remaining r =
      (if allowed r
       then 3 - Z.of_nat (size (filter (λ ms : string * Z, 1000 - 1000 < ms.2 ≤ 1000)
                                       zset_full)) - 1
       else 0) ∧
    (0 < 1000 →
     window_set w' "rate_limit:A" =
       Some (if allowed r
             then <[toString 1000 +:+ "-" +:+ "d" := 1000]>
                    (filter (λ ms : string * Z, 1000 - 1000 < ms.2 ≤ 1000) zset_full)
             else filter (λ ms : string * Z, 1000 - 1000 < ms.2 ≤ 1000) zset_full)).
Proof.
  assert (quiet (set_clock 1000 w_full)) as Hq by constructor.
  assert (window_set (set_clock 1000 w_full) "rate_limit:A" = Some zset_full) as Hz
    by (vm_compute; reflexivity).
  assert (∀ m s, zset_full !! m = Some s → s ≤ 1000) as Hle.
  { intros m s. unfold zset_full. intros H.
    repeat (apply lookup_insert_Some in H as [[_ <-]|[_ H]]; [lia|]).
    by rewrite lookup_empty in H. }
  do 3 (split; [assumption|]).
  exact (window_is_half_open "A" 3 1000 (set_clock 1000 w_full) zset_full Hq Hz Hle).
Defined.

(** The call of the sample above, evaluated: the member stamped at the
    boundary is gone, the two others are counted and the call is allowed. *)
Example boundary_member_is_purged :
  ∃ w', checkRateLimit "A" 3 1000 (set_clock 1000 w_full) =
          (Ok {| allowed := true; remaining := 0; resetAt := Date 2000;
                 memberId := Some "1000-d" |}, w') ∧
        window_set w' "rate_limit:A" =
          Some (<["1000-d" := 1000]> (<["100-b" := 100]> (<["200-c" := 200]> ∅))).
Proof. eexists. split; vm_compute; reflexivity. Qed.


Section Run.
Variables (identifier : string) (maxRequests windowMs t0 : Z).
Let key := "rate_limit:" +:+ identifier.

End Run.

(** Members are never stamped later than the clock: a call of
    [checkRateLimit] on a store that answers keeps this true, so it holds of
    every window set built by such calls under a clock that does not run
    backwards. *)
Lemma stamps_not_ahead identifier maxRequests windowMs w z :
  let key := "rate_limit:" +:+ identifier in
  quiet w → window_set w key = Some z → 0 < windowMs →
  (∀ m s, z !! m = Some s → s ≤ clock w) →
  ∃ r w' z1, checkRateLimit identifier maxRequests windowMs w = (Ok r, w') ∧
             clock w' = clock w ∧ window_set w' key = Some z1 ∧
             ∀ m s, z1 !! m = Some s → s ≤ clock w'.
Proof.
  intros key Hq Hz Hwin Hle.
  set (z' := surviving (clock w - windowMs) z).
  assert (∀ m s, z' !! m = Some s → s ≤ clock w) as Hle'.
  { intros m s [Hm _]%map_lookup_filter_Some. by apply (Hle m). }
  destruct (decide (Z.of_nat (size z') < maxRequests)) as [Hlt|Hge].
  - destruct (checkRateLimit_admit identifier maxRequests windowMs w z Hq Hz Hlt Hwin)
      as (w' & Hr & Hdb & Hclk & _).
    eexists _, w', _. split; [exact Hr|]. split; [exact Hclk|]. split.
    + apply (window_set_db w' key _ _ Hdb). rewrite Hclk.
      pose proof (ceil_div_pos windowMs Hwin). lia.
    + intros m s [[_ <-]|[_ Hm]]%lookup_insert_Some; rewrite Hclk; [lia|by apply (Hle' m)].
  - destruct (checkRateLimit_deny identifier maxRequests windowMs w z Hq Hz
                ltac:(fold z'; lia)) as (w' & Hr & Hz' & Hclk & _).
    eexists _, w', z'. split; [exact Hr|]. split; [exact Hclk|]. split; [exact Hz'|].
    intros m s Hm. rewrite Hclk. by apply (Hle' m).
Qed.




(** ** Store errors *)

Ltac command_effect :=
  let H := fresh "H" in
  intros [d c f e n se lg hs vs] o w' H;
  unfold redis.command, redis.raise, redis.put_zset in H; cbn in H;
  repeat match type of H with
         | context [match ?x with _ => _ end] => destruct x; cbn in H
         end;
  injection H as <- <-; cbn; auto.

Lemma get_effect key : command_effect (redis.get key).
Proof. unfold redis.get. command_effect. Qed.
Lemma set_effect key v : command_effect (redis.set key v).
Proof. unfold redis.set. command_effect. Qed.
Lemma setex_effect key s v : command_effect (redis.setex key s v).
Proof. unfold redis.setex. command_effect. Qed.
Lemma del_effect ks : command_effect (redis.del ks).
Proof. unfold redis.del. command_effect. Qed.
Lemma keys_effect p : command_effect (redis.keys p).
Proof. unfold redis.keys. command_effect. Qed.
Lemma zremrangebyscore_effect key lo hi : command_effect (redis.zremrangebyscore key lo hi).
Proof. unfold redis.zremrangebyscore. command_effect. Qed.
Lemma zcard_effect key : command_effect (redis.zcard key).
Proof. unfold redis.zcard. command_effect. Qed.
Lemma zadd_effect key s m : command_effect (redis.zadd key s m).
Proof. unfold redis.zadd. command_effect. Qed.
Lemma expire_effect key s : command_effect (redis.expire key s).
Proof. unfold redis.expire. command_effect. Qed.
Lemma zrange_effect key a b : command_effect (redis.zrange key a b).
Proof. unfold redis.zrange. command_effect. Qed.
Lemma zrem_effect key m : command_effect (redis.zrem key m).
Proof. unfold redis.zrem. command_effect. Qed.

Ltac effects :=
  repeat match goal with
  | H : redis.get _ _ = _ |- _ => apply get_effect in H as (?&?&?&?&?)
  | H : redis.set _ _ _ = _ |- _ => apply set_effect in H as (?&?&?&?&?)
  | H : redis.setex _ _ _ _ = _ |- _ => apply setex_effect in H as (?&?&?&?&?)
  | H : redis.del _ _ = _ |- _ => apply del_effect in H as (?&?&?&?&?)
  | H : redis.keys _ _ = _ |- _ => apply keys_effect in H as (?&?&?&?&?)
  | H : redis.zremrangebyscore _ _ _ _ = _ |- _ =>
      apply zremrangebyscore_effect in H as (?&?&?&?&?)
  | H : redis.zcard _ _ = _ |- _ => apply zcard_effect in H as (?&?&?&?&?)
  | H : redis.zadd _ _ _ _ = _ |- _ => apply zadd_effect in H as (?&?&?&?&?)
  | H : redis.expire _ _ _ = _ |- _ => apply expire_effect in H as (?&?&?&?&?)
  | H : redis.zrange _ _ _ _ = _ |- _ => apply zrange_effect in H as (?&?&?&?&?)
  | H : redis.zrem _ _ _ = _ |- _ => apply zrem_effect in H as (?&?&?&?&?)
  end.

Lemma checkRateLimit_fail_open_run identifier maxRequests windowMs w :
  let '(o, w') := checkRateLimit identifier maxRequests windowMs w in
  (store_errors w < store_errors w')%nat →
  o = Ok {| allowed := true; remaining := maxRequests;
            resetAt := Date (clock w + windowMs); memberId := None |}.
Proof.
  unfold checkRateLimit, bind, try_catch, Date_now, ret, logger.error, logger.write, draw.
  repeat step; effects; cbn in *; intros; try reflexivity; lia.
Qed.

(** Whenever a store command raises during [checkRateLimit], the call
    answers with the fail-open result. *)
Lemma checkRateLimit_fail_open identifier maxRequests windowMs w o w' :
  checkRateLimit identifier maxRequests windowMs w = (o, w') →
  (store_errors w < store_errors w')%nat →
  o = Ok {| allowed := true; remaining := maxRequests;
            resetAt := Date (clock w + windowMs); memberId := None |}.
Proof.
  intros H. pose proof (checkRateLimit_fail_open_run identifier maxRequests windowMs w) as R.
  by rewrite H in R.
Qed.

(** C3: [checkRateLimit] evaluated on a store whose EXPIRE fails after the
    ZADD has succeeded: the call answers with the fail-open result and no
    member id, yet the member it added is still in the window set. *)
Theorem failed_expire_leaves_member :
  ∃ w', checkRateLimit "A" 3 1000 w_expire_fails =
          (Ok {| allowed := true; remaining := 3; resetAt := Date 1000; memberId := None |}, w') ∧
        store_errors w' = 1%nat ∧
        window_set w' "rate_limit:A" = Some {["0-a" := 0]}.
Proof. eexists. split; [vm_compute; reflexivity|]. split; vm_compute; reflexivity. Qed.

(** ** The claims about the Cache Engine *)

Lemma cache_fallback_run key fetcher ttl w :
  let '(r, w') := cache key fetcher ttl w in
  (store_errors w < store_errors w')%nat →
  (fetched w < fetched w')%nat ∧ r = fetcher (pred (fetched w')).
Proof.
  unfold cache, getJson, setJson, bind, try_catch, ret, throw, lift, invoke,
    logger.error, logger.debug, logger.write.
  repeat match goal with
         | |- context [match ?c with _ => _ end] =>
             lazymatch c with
             | context [match _ with _ => _ end] => fail
             | _ => destruct c eqn:?
             end
         | |- context [if ?c then _ else _] =>
             lazymatch c with
             | context [match _ with _ => _ end] => fail
             | _ => destruct c eqn:?
             end
         end.
  all: effects; cbn in *; intros; simplify_eq; try lia.
  all: split; [lia|reflexivity].
Qed.

(** C6: whenever a store command raises during [cache(key, fetcher, ttl)],
    be it the read or the write, the call invokes the fetcher afresh and
    its outcome is the outcome of that last invocation; the store's error
    does not reach the caller. *)
Theorem cache_falls_back_on_store_error key fetcher ttl w r w' :
  cache key fetcher ttl w = (r, w') →
  (store_errors w < store_errors w')%nat →
  (fetched w < fetched w')%nat ∧ r = fetcher (pred (fetched w')).
Proof.
  intros H. pose proof (cache_fallback_run key fetcher ttl w) as R.
  by rewrite H in R.
Qed.

Lemma cache_falls_back_on_store_error_witness :
  ∃ r w', cache "files:user:42" fetch_total (Some 300) w_write_fails = (r, w') ∧
          (store_errors w_write_fails < store_errors w')%nat ∧
          (fetched w_write_fails < fetched w')%nat ∧
          r = fetch_total (pred (fetched w')).
Proof.
  set (p := cache "files:user:42" fetch_total (Some 300) w_write_fails).
  assert (cache "files:user:42" fetch_total (Some 300) w_write_fails = (p.1, p.2)) as Hrun
    by apply surjective_pairing.
  assert (store_errors w_write_fails < store_errors p.2)%nat as Herr by (vm_compute; lia).
  exists p.1, p.2. split; [exact Hrun|]. split; [exact Herr|].
  exact (cache_falls_back_on_store_error _ _ _ _ _ _ Hrun Herr).
Defined.

(** C7, as amended: whenever a store command raises during
    [invalidateCache(pattern)], be it KEYS or DEL, the function logs the
    failure and raises that very error to its caller, nothing else having
    been done. *)
Theorem invalidateCache_rethrows pattern w r w' :
  invalidateCache pattern w = (r, w') →
  (store_errors w < store_errors w')%nat →
  ∃ e w0,
    r = Throw e ∧
    w' = set_logged ((Error, "Cache invalidation error for pattern " +:+ pattern) :: logged w0)
                    w0 ∧
    (redis.keys pattern w = (Throw e, w0) ∨
     ∃ ks w1, redis.keys pattern w = (Ok ks, w1) ∧ redis.del ks w1 = (Throw e, w0)).
Proof.
  unfold invalidateCache, try_catch, bind, ret, throw, logger.error, logger.info, logger.write.
  destruct (redis.keys pattern w) as [[ks|e] w1] eqn:Ek.
  - destruct (length ks =? 0)%nat.
    + intros [= <- <-] Herr. effects. lia.
    + destruct (redis.del ks w1) as [[n|e] w2] eqn:Ed.
      * intros [= <- <-] Herr. effects. cbn in Herr. lia.
      * intros [= <- <-] _. exists e, w2. split; [done|]. split; [done|]. right. by exists ks, w1.
  - intros [= <- <-] _. exists e, w1. split; [done|]. split; [done|]. by left.
Qed.

Lemma invalidateCache_rethrows_witness :
  ∃ r w', invalidateCache "files:user:42:*" w_down = (r, w') ∧
          (store_errors w_down < store_errors w')%nat ∧
          ∃ e w0,
            r = Throw e ∧
            w' = set_logged
                   ((Error, "Cache invalidation error for pattern " +:+ "files:user:42:*")
                      :: logged w0) w0 ∧
            (redis.keys "files:user:42:*" w_down = (Throw e, w0) ∨
             ∃ ks w1, redis.keys "files:user:42:*" w_down = (Ok ks, w1) ∧
                      redis.del ks w1 = (Throw e, w0)).
Proof.
  set (p := invalidateCache "files:user:42:*" w_down).
  assert (invalidateCache "files:user:42:*" w_down = (p.1, p.2)) as Hrun by apply surjective_pairing.
  assert (store_errors w_down < store_errors p.2)%nat as Herr by (vm_compute; lia).
  exists p.1, p.2. split; [exact Hrun|]. split; [exact Herr|].
  exact (invalidateCache_rethrows _ _ _ _ Hrun Herr).
Defined.

(** C7, counterexample: on a store that is down, [invalidateCache] raises
    the connection error to its caller instead of recovering from it. *)
Lemma invalidateCache_surfaces_store_error :
  ∃ w', invalidateCache "files:user:42:*" w_down = (Throw ConnectionError, w') ∧
        store_errors w_down = 0%nat ∧ store_errors w' = 1%nat.
Proof. eexists. split; [vm_compute; reflexivity|]. split; reflexivity. Qed.

Lemma get_quiet w key :
  quiet w →
  redis.get key w =
  match redis.live w key with
  | None => (Ok None, tick w)
  | Some (Entry (PStr s) _) => (Ok (Some s), tick w)
  | Some (Entry (PZSet _) _) => redis.raise (ReplyError redis.wrongtype) (tick w)
  end.
Proof. intros Hq. unfold redis.get. by rewrite command_quiet. Qed.

Lemma setex_quiet w key seconds value :
  quiet w → 0 < seconds →
  redis.setex key seconds value w =
  (Ok "OK", set_db (<[key := Entry (PStr value) (Some (clock w + seconds * 1000))]> (db w))
                   (tick w)).
Proof.
  intros Hq Hs. unfold redis.setex. rewrite command_quiet by done.
  destruct (seconds <=? 0) eqn:E; [zbool; lia|]. done.
Qed.

Lemma set_quiet w key value :
  quiet w →
  redis.set key value w = (Ok "OK", set_db (<[key := Entry (PStr value) None]> (db w)) (tick w)).
Proof. intros Hq. unfold redis.set. by rewrite command_quiet. Qed.

(** [getJson] when the store answers. *)
Lemma getJson_quiet w key c :
  quiet w → cached_value w key = Some c → getJson key w = (Ok c, tick w).
Proof.
  intros Hq Hc. unfold getJson, try_catch, bind. rewrite get_quiet by done.
  unfold cached_value in Hc.
  destruct (redis.live w key) as [[[s|z] d]|]; [| |by injection Hc as <-]; [|done].
  unfold ret, lift. destruct (truthy s); simpl; [|by injection Hc as <-].
  by destruct (JSON.parse s); simplify_eq.
Qed.

(** [setJson] when the store answers: the text is stored under [key]. *)
Lemma setJson_quiet w key v ttl :
  quiet w → 0 ≤ ttl →
  ∃ w' d, setJson key v (Some ttl) w = (Ok "OK", w') ∧
          db w' !! key = Some (Entry (PStr (JSON.stringify v)) d) ∧
          redis.expired (clock w) (Entry (PStr (JSON.stringify v)) d) = false ∧
          quiet w' ∧ clock w' = clock w ∧ fetched w' = fetched w.
Proof.
  intros Hq Httl. unfold setJson, try_catch. simpl.
  destruct (ttl =? 0) eqn:E; simpl.
  - rewrite set_quiet by done. eexists _, None. split; [done|].
    unfold set_db; cbn. rewrite lookup_insert_eq. repeat split. by apply quiet_tick.
  - rewrite setex_quiet by (try done; apply Z.eqb_neq in E; lia).
    eexists _, _. split; [done|].
    unfold set_db, redis.expired; cbn. rewrite lookup_insert_eq. repeat split.
    + apply Z.leb_gt. apply Z.eqb_neq in E. lia.
    + by apply quiet_tick.
Qed.

(** A hit: the stored value is returned and the fetcher is not invoked. *)
Lemma cache_hit w key fetcher ttl c :
  quiet w → cached_value w key = Some c → is_null c = false →
  cache key fetcher ttl w =
  (Ok c, set_logged ((Debug, "Cache hit for key: " +:+ key) :: logged w) (tick w)).
Proof.
  intros Hq Hc Hn. unfold cache, try_catch, bind, logger.debug, logger.write, ret.
  rewrite (getJson_quiet w key c Hq Hc), Hn. reflexivity.
Qed.

(** A miss: the fetcher is invoked once and its value is stored. *)
Lemma cache_miss w key fetcher ttl c v :
  quiet w → cached_value w key = Some c → is_null c = true →
  fetcher (fetched w) = Ok v → 0 ≤ default 3600 ttl →
  ∃ w1 d, cache key fetcher ttl w = (Ok v, w1) ∧
          db w1 !! key = Some (Entry (PStr (JSON.stringify v)) d) ∧
          redis.expired (clock w) (Entry (PStr (JSON.stringify v)) d) = false ∧
          quiet w1 ∧ clock w1 = clock w ∧ fetched w1 = S (fetched w).
Proof.
  intros Hq Hc Hn Hf Httl.
  unfold cache, try_catch, bind, logger.debug, logger.write, invoke, ret.
  rewrite (getJson_quiet w key c Hq Hc), Hn. cbn [negb].
  change (fetched (set_logged _ (tick w))) with (fetched w). rewrite Hf.
  match goal with |- context [setJson _ _ _ ?w0] =>
    destruct (setJson_quiet w0 key v (default 3600 ttl))
      as (w1 & d & -> & Hdb & Hexp & Hq1 & Hclk & Hfet); [by apply quiet_tick|done|]
  end.
  by exists w1, d.
Qed.

Lemma parse_null : JSON.parse "null" = Ok JNull.
Proof. reflexivity. Qed.

(** Reading a stored ["null"]: a miss, or an error when the read fails. *)
Lemma getJson_stored_null w key d :
  redis.live w key = Some (Entry (PStr "null") d) →
  ∃ o w', getJson key w = (o, w') ∧ fetched w' = fetched w ∧
          (o = Ok JNull ∨ ∃ e, o = Throw e).
Proof.
  intros Hlive. unfold getJson, try_catch, bind, redis.get, redis.command, redis.raise.
  destruct (faults w) as [|[] fs];
    change (redis.live (set_faults _ w) key) with (redis.live w key); rewrite ?Hlive;
    cbn [truthy negb]; unfold lift; rewrite ?parse_null;
    eexists _, _; (split; [reflexivity|]); split; eauto.
Qed.

Lemma cache_on_stored_null w key fetcher ttl d :
  redis.live w key = Some (Entry (PStr "null") d) →
  (fetched w < fetched (cache key fetcher ttl w).2)%nat.
Proof.
  intros Hlive. destruct (getJson_stored_null w key d Hlive) as (o & w' & Hg & Hf & Ho).
  unfold cache, try_catch, bind at 1. rewrite Hg.
  unfold setJson, bind, try_catch, invoke, ret, throw, logger.debug, logger.error, logger.write.
  destruct Ho as [->|[e ->]]; cbn [is_null negb].
  - repeat match goal with
           | |- context [match ?c with _ => _ end] =>
               lazymatch c with
               | context [match _ with _ => _ end] => fail
               | _ => destruct c eqn:?
               end
           | |- context [if ?c then _ else _] =>
               lazymatch c with
               | context [match _ with _ => _ end] => fail
               | _ => destruct c eqn:?
               end
           end; effects; cbn in *; lia.
  - cbn. lia.
Qed.

(** C10: when the fetcher resolves to [null] on a miss, the text ["null"] is
    written to the store; and whenever the store holds ["null"] under the
    key, every call of [cache] for that key, with any fetcher, invokes the
    fetcher again: a stored [null] is never served. *)
Theorem null_is_never_served key fetcher ttl w :
  quiet w → cached_value w key = Some JNull → fetcher (fetched w) = Ok JNull →
  0 ≤ default 3600 ttl →
  ∃ w1 d, cache key fetcher ttl w = (Ok JNull, w1) ∧
          redis.live w1 key = Some (Entry (PStr "null") d) ∧
          ∀ w2 fetcher' ttl' d',
            redis.live w2 key = Some (Entry (PStr "null") d') →
            (fetched w2 < fetched (cache key fetcher' ttl' w2).2)%nat.
Proof.
  intros Hq Hc Hf Httl.
  destruct (cache_miss w key fetcher ttl JNull JNull Hq Hc eq_refl Hf Httl)
    as (w1 & d & -> & Hdb & Hexp & _ & Hclk & _).
  exists w1, d. split; [reflexivity|]. split.
  { apply live_lookup; [exact Hdb|]. by rewrite Hclk. }
  intros w2 fetcher' ttl' d'. apply cache_on_stored_null.
Qed.

Lemma null_is_never_served_witness :
  quiet w_empty ∧ cached_value w_empty "k" = Some JNull ∧
  fetch_null (fetched w_empty) = Ok JNull ∧ 0 ≤ default 3600 (Some 300) ∧
  ∃ w1 d, cache "k" fetch_null (Some 300) w_empty = (Ok JNull, w1) ∧
          redis.live w1 "k" = Some (Entry (PStr "null") d) ∧
          ∀ w2 fetcher' ttl' d',
            redis.live w2 "k" = Some (Entry (PStr "null") d') →
            (fetched w2 < fetched (cache "k" fetcher' ttl' w2).2)%nat.
Proof.
  assert (quiet w_empty) as Hq by constructor.
  assert (cached_value w_empty "k" = Some JNull) as Hc by reflexivity.
  assert (fetch_null (fetched w_empty) = Ok JNull) as Hf by reflexivity.
  assert (0 ≤ default 3600 (Some 300)) as Httl by (simpl; lia).
  repeat (split; [assumption|]).
  exact (null_is_never_served "k" fetch_null (Some 300) w_empty Hq Hc Hf Httl).
Defined.

(** ** JSON text read back *)

Lemma parse_chars_escape_char c t :
  JSON.parse_chars (JSON.escape_char c +:+ t) =
  match JSON.parse_chars t with
  | Some (s, rest) => Some (String c s, rest)
  | None => None
  end.
Proof. destruct c as [[] [] [] [] [] [] [] []]; reflexivity. Qed.

Lemma append_assoc (a b c : string) : (a +:+ b) +:+ c = a +:+ b +:+ c.
Proof.
  induction a as [|x a IH]; [done|].
  change (String x ((a +:+ b) +:+ c) = String x (a +:+ b +:+ c)). by rewrite IH.
Qed.

(** A quoted string is read back, whatever follows it. *)
Lemma parse_chars_escape s rest :
  JSON.parse_chars (JSON.escape s +:+ String dquote rest) = Some (s, rest).
Proof.
  induction s as [|c s IH]; [reflexivity|].
  cbn [JSON.escape]. by rewrite append_assoc, parse_chars_escape_char, IH.
Qed.

Lemma to_uint_no_leading_zero p d : Pos.to_uint p ≠ D0 d.
Proof.
  intros H. pose proof (DecimalPos.Unsigned.to_of (Pos.to_uint p)) as Hn.
  rewrite DecimalPos.Unsigned.of_to in Hn. cbn in Hn.
  unfold unorm in Hn. destruct (nzhead (Pos.to_uint p)) eqn:E;
    try (rewrite H in Hn; discriminate).
  - by apply (DecimalPos.Unsigned.to_uint_nonzero p).
  - rewrite H in Hn. subst. by apply nzhead_nonzero in E.
Qed.

Lemma app_cons c (s r : string) : String c s +:+ r = String c (s +:+ r).
Proof. reflexivity. Qed.

Lemma app_nil (r : string) : EmptyString +:+ r = r.
Proof. reflexivity. Qed.

Lemma take_digits_uint d rest :
  not_digit_start rest →
  JSON.take_digits (NilEmpty.string_of_uint d +:+ rest) = (NilEmpty.string_of_uint d, rest).
Proof.
  intros Hr. induction d; cbn [NilEmpty.string_of_uint];
    rewrite ?app_cons, ?app_nil; cbn; rewrite ?IHd; try reflexivity.
  destruct rest as [|c r]; [done|]. cbn in *. by rewrite Hr.
Qed.

Lemma parse_unsigned_uint d rest :
  d ≠ Nil → (∀ d', d = D0 d' → d' = Nil) →
  not_digit_start rest → JSON.starts_fraction rest = false →
  JSON.parse_unsigned (NilEmpty.string_of_uint d +:+ rest) = Some (uint_value d 0, rest).
Proof.
  intros Hnil Hz Hr Hf. unfold JSON.parse_unsigned.
  rewrite take_digits_uint by done.
  pose proof (parse_digits_uint_start d Hnil) as Hp.
  destruct d; try congruence; cbn [NilEmpty.string_of_uint] in *;
    try (rewrite (Hz d eq_refl) in *);
    cbn [NilEmpty.string_of_uint truthy Ascii.eqb Bool.eqb andb] in *; by rewrite Hf, Hp.
Qed.

Lemma parse_unsigned_pos p rest :
  not_digit_start rest → JSON.starts_fraction rest = false →
  JSON.parse_unsigned (NilZero.string_of_uint (Pos.to_uint p) +:+ rest) = Some (Z.pos p, rest).
Proof.
  intros Hr Hf.
  pose proof (DecimalPos.Unsigned.of_to p) as Hp.
  pose proof (DecimalPos.Unsigned.to_uint_nonnil p) as Hnil.
  pose proof (to_uint_no_leading_zero p) as Hz.
  revert Hp Hnil Hz. generalize (Pos.to_uint p). intros d Hp Hnil Hz.
  assert (NilZero.string_of_uint d = NilEmpty.string_of_uint d) as ->
    by (destruct d; [congruence|reflexivity..]).
  rewrite parse_unsigned_uint; try done.
  - by rewrite uint_value_0, Hp.
  - intros d' ->. by destruct (Hz d').
Qed.

Lemma parse_number_toString n rest :
  not_digit_start rest → JSON.starts_fraction rest = false →
  JSON.parse_number (toString n +:+ rest) = Some (JNum n, rest).
Proof.
  intros Hr Hf. unfold toString. destruct n as [|p|p]; cbn [Z.to_int NilZero.string_of_int].
  - change (NilZero.string_of_uint zero) with (NilEmpty.string_of_uint (D0 Nil)).
    pose proof (parse_unsigned_uint (D0 Nil) rest ltac:(done) ltac:(by intros ? [= <-]) Hr Hf)
      as Hp.
    cbn [NilEmpty.string_of_uint] in *. rewrite app_cons in *.
    unfold JSON.parse_number. cbn [Ascii.eqb Bool.eqb]. by rewrite Hp.
  - destruct (string_of_uint_digit p) as (c & r & Hs & Hc).
    pose proof (parse_unsigned_pos p rest Hr Hf) as Hp. rewrite Hs in *.
    destruct (digit_not_sign c Hc) as (_ & Hm & _).
    rewrite app_cons in *. unfold JSON.parse_number.
    destruct (Ascii.eqb_spec c "-"%char); [done|]. by rewrite Hp.
  - rewrite app_cons. unfold JSON.parse_number. cbn [Ascii.eqb Bool.eqb].
    by rewrite parse_unsigned_pos.
Qed.

(** A number is read back as a value when a separator follows it. *)
Lemma parse_value_toString fuel n rest :
  not_digit_start rest → JSON.starts_fraction rest = false →
  JSON.parse_value (S fuel) (toString n +:+ rest) = Some (JNum n, rest).
Proof.
  intros Hr Hf. pose proof (parse_number_toString n rest Hr Hf) as Hn.
  unfold toString in *. destruct n as [|p|p]; cbn [Z.to_int NilZero.string_of_int] in *.
  - exact Hn.
  - destruct (string_of_uint_digit p) as (c & r & Hs & [d Hc]). rewrite Hs in *.
    unfold digit_of in Hc.
    destruct c as [[] [] [] [] [] [] [] []]; try discriminate Hc; exact Hn.
  - exact Hn.
Qed.

Lemma parse_value_toString_comma fuel n r :
  JSON.parse_value (S fuel) (toString n +:+ String "," r) = Some (JNum n, String "," r).
Proof. by apply parse_value_toString. Qed.

Lemma parse_value_quoted fuel x :
  JSON.parse_value (S fuel) (String dquote x) =
  match JSON.parse_chars x with Some (t, r) => Some (JStr t, r) | None => None end.
Proof. reflexivity. Qed.

Lemma quote_app s rest :
  JSON.quote s +:+ rest = String dquote (JSON.escape s +:+ String dquote rest).
Proof. unfold JSON.quote. by rewrite app_cons, append_assoc, app_cons, app_nil. Qed.

(** A string is read back as a value, whatever follows it. *)
Lemma parse_value_string fuel s rest :
  JSON.parse_value (S fuel) (JSON.quote s +:+ rest) = Some (JStr s, rest).
Proof. by rewrite quote_app, parse_value_quoted, parse_chars_escape. Qed.

Lemma parse_members_step fuel k x :
  JSON.parse_members (S fuel) (JSON.quote k +:+ String ":" x) =
  match JSON.parse_value fuel x with
  | Some (v, rest1) =>
      match JSON.skip_ws rest1 with
      | String "," r2 =>
          match JSON.parse_members fuel r2 with
          | Some (fs, rest2) => Some ((k, v) :: fs, rest2)
          | None => None
          end
      | String "}" r2 => Some ([(k, v)], r2)
      | _ => None
      end
  | None => None
  end.
Proof.
  rewrite quote_app. cbn [JSON.parse_members JSON.skip_ws].
  change (JSON.is_ws dquote) with false. cbv iota.
  change (Ascii.eqb dquote dquote) with true. cbv iota.
  rewrite parse_chars_escape. reflexivity.
Qed.

Lemma parse_members_more fuel k v x rest :
  JSON.parse_value fuel x = Some (v, String "," rest) →
  JSON.parse_members (S fuel) (JSON.quote k +:+ String ":" x) =
  match JSON.parse_members fuel rest with
  | Some (fs, r) => Some ((k, v) :: fs, r)
  | None => None
  end.
Proof. intros H. by rewrite parse_members_step, H. Qed.

Lemma parse_members_last fuel k v x rest :
  JSON.parse_value fuel x = Some (v, String "}" rest) →
  JSON.parse_members (S fuel) (JSON.quote k +:+ String ":" x) = Some ([(k, v)], rest).
Proof. intros H. by rewrite parse_members_step, H. Qed.

Lemma parse_value_object fuel k y :
  JSON.parse_value (S fuel) (String "{" (JSON.quote k +:+ y)) =
  match JSON.parse_members fuel (JSON.quote k +:+ y) with
  | Some (fs, rest) => Some (JObj fs, rest)
  | None => None
  end.
Proof. rewrite quote_app. reflexivity. Qed.

(** The Rollback Record is read back from its text. *)
Lemma rollback_record_parses identifier timestamp mid :
  JSON.parse (JSON.stringify (rollback_record identifier timestamp mid)) =
  Ok (rollback_record identifier timestamp mid).
Proof.
  unfold JSON.parse.
  set (text := JSON.stringify (rollback_record identifier timestamp mid)).
  assert (∃ n, String.length text = S (S (S (S (S (S n)))))) as [n ->].
  { subst text. unfold rollback_record. cbn [JSON.stringify JSON.join map].
    rewrite app_cons, (quote_app "identifier"). cbn. eauto. }
  subst text. unfold rollback_record.
  set (key := "rate_limit:" +:+ identifier).
  cbn [JSON.stringify JSON.join map].
  repeat (rewrite app_cons || rewrite app_nil || rewrite append_assoc).
  rewrite parse_value_object.
  rewrite (parse_members_more _ _ _ _ _ (parse_value_string _ _ _)).
  rewrite (parse_members_more _ _ _ _ _ (parse_value_toString_comma _ _ _)).
  rewrite (parse_members_more _ _ _ _ _ (parse_value_string _ _ _)).
  rewrite (parse_members_last _ _ _ _ _ (parse_value_string _ _ _)).
  reflexivity.
Qed.

Lemma stringify_record_truthy identifier timestamp mid :
  truthy (JSON.stringify (rollback_record identifier timestamp mid)) = true.
Proof. reflexivity. Qed.

(** ** The commands of the Rate Limit Middleware *)

Lemma bind_ok {A B} (c : M A) (k : A → M B) w a w' :
  c w = (Ok a, w') → bind c k w = k a w'.
Proof. intros H. unfold bind. by rewrite H. Qed.

Lemma setWithExpiry_quiet w key value ttl :
  quiet w → 0 < ttl →
  setWithExpiry key value ttl w =
  (Ok "OK", set_db (<[key := Entry (PStr value) (Some (clock w + ttl * 1000))]> (db w)) (tick w)).
Proof. intros Hq Ht. unfold setWithExpiry, try_catch. by rewrite setex_quiet. Qed.

Lemma getValue_quiet w key s d :
  quiet w → redis.live w key = Some (Entry (PStr s) d) →
  getValue key w = (Ok (Some s), tick w).
Proof. intros Hq Hl. unfold getValue, try_catch. by rewrite get_quiet, Hl. Qed.

Lemma zrem_quiet w key m z d :
  quiet w → redis.live w key = Some (Entry (PZSet z) d) →
  redis.zrem key m w =
  (Ok (match z !! m with Some _ => 1 | None => 0 end), redis.put_zset key (delete m z) d (tick w)).
Proof.
  intros Hq Hl. unfold redis.zrem. rewrite command_quiet by done.
  change (redis.live (tick w) key) with (redis.live w key). by rewrite Hl.
Qed.

Lemma deleteKey_quiet w key :
  quiet w → ∃ n, deleteKey key w = (Ok n, set_db (delete key (db w)) (tick w)).
Proof.
  intros Hq. unfold deleteKey, try_catch, redis.del. rewrite command_quiet by done.
  by eexists.
Qed.

Lemma truthy_app a b : truthy a = true → truthy (a +:+ b) = true.
Proof. by destruct a. Qed.

Lemma keys_differ requestId identifier : request_key requestId ≠ "rate_limit:" +:+ identifier.
Proof. unfold request_key. intros H. discriminate H. Qed.

Lemma quiet_faults w w' : faults w' = faults w → quiet w → quiet w'.
Proof. unfold quiet. by intros ->. Qed.

(** The rollback, when the store answers and holds the Rollback Record. *)
Lemma rollback_quiet w requestId identifier timestamp mid d z dz :
  let key := "rate_limit:" +:+ identifier in
  quiet w → truthy mid = true →
  redis.live w (request_key requestId) =
    Some (Entry (PStr (JSON.stringify (rollback_record identifier timestamp mid))) d) →
  redis.live w key = Some (Entry (PZSet z) dz) →
  ∃ w', rollback requestId w = (Ok tt, w') ∧ quiet w' ∧
        db w' !! request_key requestId = None ∧
        db w' !! key = (if decide (size (delete mid z) = 0%nat) then None
                        else Some (Entry (PZSet (delete mid z)) dz)).
Proof.
  intros key Hq Hmid Hrec Hz. unfold rollback.
  rewrite (bind_ok _ _ _ _ _ (getValue_quiet w _ _ _ Hq Hrec)).
  rewrite stringify_record_truthy. cbn [when].
  unfold try_catch. unfold lift, bind at 1. rewrite rollback_record_parses.
  unfold rollback_record. cbn [field String.eqb Ascii.eqb Bool.eqb].
  fold key. assert (truthy key = true) as Hk by reflexivity.
  cbn [truthy_val mbind option_bind to_arg]. rewrite Hk, Hmid. cbn [andb when].
  assert (quiet (tick w)) as Hq1 by (by apply quiet_tick).
  rewrite (bind_ok _ _ _ _ _ (zrem_quiet (tick w) key mid z dz Hq1 Hz)). cbv beta.
  set (w2 := redis.put_zset key (delete mid z) dz (tick (tick w))).
  assert (quiet w2) as Hq2.
  { apply (quiet_faults (tick (tick w))); [apply put_zset_faults|by apply quiet_tick]. }
  destruct (deleteKey_quiet w2 (request_key requestId) Hq2) as [n Hdel].
  rewrite (bind_ok _ _ _ _ _ Hdel). cbv beta. unfold ret.
  eexists; split; [reflexivity|]. split; [by apply quiet_tick|].
  unfold set_db; cbn [db]. rewrite lookup_delete_eq. split; [done|].
  rewrite lookup_delete_ne by apply keys_differ.
  apply live_Some in Hz as [Hdb Hexp].
  assert (redis.expired (clock (tick (tick w))) (Entry (PZSet (delete mid z)) dz) = false)
    as Hexp' by exact Hexp.
  destruct (put_zset_spec key (delete mid z) dz (tick (tick w)) Hexp') as (_ & _ & Hne & Heq).
  case_decide as Hsz; [exact (Heq Hsz)|exact (Hne Hsz)].
Qed.

(** The skip condition on a [Response]: it reads the status code. *)
Lemma skip_matches_response cfg resp w :
  skip_matches cfg (AResponse resp) w = (Ok (skipped cfg resp), w).
Proof.
  unfold skip_matches, skipped, status_of, num_lt, num_ge, bind, ret.
  destruct (skipSuccessfulRequests cfg), (skipFailedRequests cfg),
    (status resp <? 400), (status resp >=? 400); reflexivity.
Qed.

(** The skip condition on the context object: [c.status] is a method, so
    neither comparison holds, whatever the response and the options. *)
Lemma skip_matches_context cfg res w :
  skip_matches cfg (HonoContext res) w = (Ok false, w).
Proof.
  unfold skip_matches, status_of, num_lt, num_ge, bind, ret.
  by destruct (skipSuccessfulRequests cfg), (skipFailedRequests cfg).
Qed.

Lemma live_eq w w' key :
  db w' !! key = db w !! key → clock w' = clock w → redis.live w' key = redis.live w key.
Proof. unfold redis.live. by intros -> ->. Qed.

Lemma window_set_of_db w key (zs : gmap string Z) dl :
  db w !! key = (if decide (size zs = 0%nat) then None else Some (Entry (PZSet zs) (Some dl))) →
  clock w < dl → window_set w key = Some zs.
Proof.
  intros Hdb Hdl. case_decide as Hsz.
  - unfold window_set, redis.live. rewrite Hdb. by rewrite (map_size_empty_inv zs Hsz).
  - by apply (window_set_db w key zs dl).
Qed.

Lemma surviving_delete ws m (zs : gmap string Z) s :
  zs !! m = Some s → ws < s →
  size (surviving ws zs) = S (size (surviving ws (delete m zs))).
Proof.
  intros Hm Hs. unfold surviving. rewrite map_filter_delete.
  set (f := filter _ zs).
  assert (is_Some (f !! m)) as Hf.
  { exists s. apply map_lookup_filter_Some. split; [done|]. simpl. apply Z.leb_gt. lia. }
  rewrite (map_size_delete_Some m f Hf).
  pose proof (map_size_ne_0_lookup_2 f m Hf). lia.
Qed.

(** * Further properties *)

(** ** Patterns of the cache keys *)

Lemma tokens_plain_char c r :
  glob_special c = false → tokens (String c r) None = TLit c :: tokens r None.
Proof.
  destruct c as [[] [] [] [] [] [] [] []]; try discriminate; reflexivity.
Qed.

Lemma chars_app a b : chars (a +:+ b) = (chars a ++ chars b)%list.
Proof. induction a as [|c a IH]; [done|]. rewrite app_cons. simpl. by rewrite IH. Qed.

Lemma plain_app a b : plain a → plain b → plain (a +:+ b).
Proof. unfold plain. rewrite chars_app. apply Forall_app_2. Qed.

Lemma tokens_plain p rest :
  plain p → tokens (p +:+ rest) None = (map TLit (chars p) ++ tokens rest None)%list.
Proof.
  induction p as [|c p IH]; intros H; [by rewrite app_nil|].
  rewrite app_cons. inversion_clear H. rewrite tokens_plain_char by done.
  simpl. f_equal. by apply IH.
Qed.

Lemma match_literals p ts s :
  match_tokens (map TLit (chars p) ++ ts)%list s = true ↔
  ∃ r, s = p +:+ r ∧ match_tokens ts r = true.
Proof.
  revert s. induction p as [|c p IH]; intros s.
  - simpl. split; [intros H; exists s; by rewrite app_nil|].
    intros (r & -> & H). by rewrite app_nil.
  - destruct s as [|c' s]; simpl.
    + split; [done|]. intros (r & H & _). by rewrite app_cons in H.
    + rewrite andb_true_iff, IH, Ascii.eqb_eq. split.
      * intros (-> & r & -> & H). exists r. by rewrite app_cons.
      * intros (r & H & Hm). rewrite app_cons in H. injection H as -> ->. eauto.
Qed.

Lemma match_star s : match_tokens [TStar] s = true.
Proof.
  induction s as [|c s IH]; [done|].
  change (match_tokens [TStar] (String c s))
    with (match_tokens [] (String c s) || match_tokens [TStar] s).
  by rewrite IH, orb_true_r.
Qed.

(** A pattern made of a plain prefix and a final star matches exactly the
    keys that begin with the prefix. *)
Lemma glob_prefix p s : plain p → glob (p +:+ "*") s = true ↔ ∃ r, s = p +:+ r.
Proof.
  intros Hp. unfold glob. rewrite tokens_plain by done.
  change (tokens "*" None) with [TStar]. rewrite match_literals.
  split; [intros (r & -> & _); eauto|]. intros (r & ->). exists r. by rewrite match_star.
Qed.

Lemma append_inj_l p a b : p +:+ a = p +:+ b → a = b.
Proof.
  induction p as [|c p IH]; [by rewrite !app_nil|].
  rewrite !app_cons. intros H. injection H as H. by apply IH.
Qed.

Lemma split_at_colon a b r r' :
  ":"%char ∉ chars a → ":"%char ∉ chars b →
  a +:+ String ":" r = b +:+ String ":" r' → a = b.
Proof.
  revert b. induction a as [|c a IH]; intros [|c' b] Ha Hb; rewrite ?app_cons, ?app_nil.
  - done.
  - intros H. injection H as <- _. exfalso. apply Hb. simpl. left.
  - intros H. injection H as -> _. exfalso. apply Ha. simpl. left.
  - intros H. injection H as -> H. f_equal. apply (IH b); [| |done].
    + intros ?. apply Ha. simpl. by right.
    + intros ?. apply Hb. simpl. by right.
Qed.

Lemma plain_files_prefix userId : plain userId → plain ("files:user:" +:+ userId +:+ ":").
Proof.
  intros H. apply plain_app; [by repeat constructor|].
  apply plain_app; [done|by repeat constructor].
Qed.

Lemma user_pattern_own a input :
  plain a → glob (userFilesPattern a) (userFilesKey a input) = true.
Proof.
  intros Hp. unfold userFilesPattern, userFilesKey.
  change ("files:user:" +:+ a +:+ ":*") with ("files:user:" +:+ a +:+ ":" +:+ "*").
  rewrite <- !append_assoc. rewrite glob_prefix.
  2:{ rewrite append_assoc. by apply plain_files_prefix. }
  exists (JSON.stringify input). by rewrite !append_assoc.
Qed.

Lemma user_pattern_not_stats a b : glob (userFilesPattern a) (statsKey b) = false.
Proof.
  unfold userFilesPattern, statsKey, glob. apply not_true_is_false.
  change ("files:user:" +:+ a +:+ ":*") with ("f" +:+ "iles:user:" +:+ a +:+ ":*").
  rewrite tokens_plain by (by repeat constructor). rewrite match_literals.
  intros (r & H & _). cbv [String.append] in H. discriminate.
Qed.

(** X1: the pattern invalidated for a user matches the listing keys of that
    user and of no other user, whatever the query: for user ids without
    pattern characters and without colons,
    [files:user:A:*] matches [files:user:B:<input>] exactly when A = B. *)
Theorem user_pattern_matches_own_keys a b input :
  plain a → ":"%char ∉ chars a → ":"%char ∉ chars b →
  glob (userFilesPattern a) (userFilesKey b input) = true ↔ a = b.
Proof.
  intros Hp Ha Hb. split; [|intros <-; by apply user_pattern_own].
  unfold userFilesPattern, userFilesKey.
  change ("files:user:" +:+ a +:+ ":*") with ("files:user:" +:+ a +:+ ":" +:+ "*").
  rewrite <- !append_assoc. rewrite glob_prefix.
  2:{ rewrite append_assoc. by apply plain_files_prefix. }
  intros (r & H). rewrite !append_assoc in H. apply append_inj_l in H.
  rewrite !app_cons, !app_nil in H. by apply split_at_colon in H.
Qed.

Lemma user_pattern_matches_own_keys_witness :
  plain "42" ∧ (":"%char ∉ chars "42") ∧ (":"%char ∉ chars "43") ∧
  (glob (userFilesPattern "42") (userFilesKey "43" (JObj [("page", JNum 1)])) = true ↔
   "42" = "43").
Proof.
  assert (plain "42") as H1 by (by repeat constructor).
  assert (":"%char ∉ chars "42") as H2
    by (by apply not_elem_of_cons; split; [|apply not_elem_of_cons; split; [|apply not_elem_of_nil]]).
  assert (":"%char ∉ chars "43") as H3
    by (by apply not_elem_of_cons; split; [|apply not_elem_of_cons; split; [|apply not_elem_of_nil]]).
  split; [exact H1|]. split; [exact H2|]. split; [exact H3|].
  exact (user_pattern_matches_own_keys "42" "43" (JObj [("page", JNum 1)]) H1 H2 H3).
Defined.

(** X2: the pattern invalidated for a user never matches the statistics key
    of any user nor a key of the public listings, whatever the ids are. *)
Theorem user_pattern_spares_stats_and_public a b input :
  glob (userFilesPattern a) (statsKey b) = false ∧
  glob (userFilesPattern a) (publicFilesKey input) = false.
Proof.
  split; [apply user_pattern_not_stats|].
  unfold userFilesPattern, publicFilesKey, glob. apply not_true_is_false.
  change ("files:user:" +:+ a +:+ ":*") with ("files:u" +:+ "ser:" +:+ a +:+ ":*").
  rewrite tokens_plain by (by repeat constructor). rewrite match_literals.
  intros (r & H & _). cbv [String.append] in H. discriminate.
Qed.

(** ** Invalidation *)

Lemma keys_quiet w pattern :
  quiet w →
  redis.keys pattern w =
  (Ok (filter (λ k, is_Some (redis.live w k) ∧ glob pattern k = true)
              (map fst (map_to_list (db w)))), tick w).
Proof. intros Hq. unfold redis.keys. by rewrite command_quiet. Qed.

Lemma del_quiet w ks :
  quiet w → ks ≠ [] →
  redis.del ks w =
  (Ok (Z.of_nat (length (filter (λ k, is_Some (redis.live w k)) (remove_dups ks)))),
   set_db (foldr delete (db w) ks) (tick w)).
Proof.
  intros Hq Hks. unfold redis.del. rewrite command_quiet by done. by destruct ks.
Qed.

Lemma remove_dups_NoDup {A} `{EqDecision A} (l : list A) : NoDup l → remove_dups l = l.
Proof.
  induction 1 as [|x l Hx Hl IH]; [done|]. simpl.
  destruct (decide_rel elem_of x l); [done|]. by rewrite IH.
Qed.

(** The keys that KEYS reports: the live keys that match. *)
Lemma elem_of_keys w pattern k :
  k ∈ filter (λ k, is_Some (redis.live w k) ∧ glob pattern k = true)
             (map fst (map_to_list (db w))) ↔
  is_Some (redis.live w k) ∧ glob pattern k = true.
Proof.
  rewrite list_elem_of_filter. split; [tauto|]. intros [[e He] Hg].
  split; [by eauto|]. apply live_Some in He as [He _].
  apply list_elem_of_fmap. exists (k, e). split; [done|]. by apply elem_of_map_to_list.
Qed.

Lemma filter_all {A} (P : A → Prop) `{∀ x, Decision (P x)} (l : list A) :
  Forall P l → filter P l = l.
Proof.
  induction 1 as [|x l Hx Hl IH]; [done|]. rewrite filter_cons_True by done. by rewrite IH.
Qed.

(** [invalidateCache] when the store answers. *)
Lemma invalidateCache_keys pattern w :
  quiet w →
  ∃ ks w', invalidateCache pattern w = (Ok (Z.of_nat (length ks)), w') ∧
    NoDup ks ∧ (∀ k, k ∈ ks ↔ is_Some (redis.live w k) ∧ glob pattern k = true) ∧
    (∀ k, db w' !! k = if bool_decide (k ∈ ks) then None else db w !! k) ∧
    quiet w' ∧ clock w' = clock w ∧ fetched w' = fetched w.
Proof.
  intros Hq. unfold invalidateCache, try_catch, bind. rewrite keys_quiet by done.
  set (ks := filter _ _).
  assert (NoDup ks) as Hnd by apply NoDup_filter, NoDup_fst_map_to_list.
  exists ks. destruct ks as [|k0 ks'] eqn:Eks.
  - simpl. eexists. split; [reflexivity|]. split; [done|]. split; [|split].
    + intros k. rewrite <- (elem_of_keys w pattern k). fold ks. by rewrite Eks.
    + done.
    + split; [by apply quiet_tick|done].
  - rewrite <- Eks in *. replace (length ks =? 0)%nat with false by (by rewrite Eks).
    rewrite del_quiet; [|by apply quiet_tick|by rewrite Eks].
    rewrite remove_dups_NoDup by done.
    rewrite filter_all.
    2:{ apply Forall_forall. intros k Hk. apply elem_of_keys in Hk as [Hk _]. exact Hk. }
    unfold logger.info, logger.write, ret. eexists. split; [reflexivity|].
    split; [done|]. split; [intros k; apply elem_of_keys|]. split.
    + intros k. cbn. case_bool_decide.
      * by apply lookup_foldr_delete.
      * by apply lookup_foldr_delete_not_elem_of.
    + split; [by do 2 apply quiet_tick|done].
Qed.

Lemma invalidateCache_quiet pattern w :
  quiet w →
  ∃ ks w', invalidateCache pattern w = (Ok (Z.of_nat (length ks)), w') ∧
    NoDup ks ∧ (∀ k, k ∈ ks ↔ is_Some (redis.live w k) ∧ glob pattern k = true) ∧
    (∀ k, glob pattern k = true → redis.live w' k = None) ∧
    (∀ k, glob pattern k = false → redis.live w' k = redis.live w k) ∧
    quiet w' ∧ clock w' = clock w ∧ fetched w' = fetched w.
Proof.
  intros Hq.
  destruct (invalidateCache_keys pattern w Hq)
    as (ks & w' & Hrun & Hnd & Hks & Hdb & Hq' & Hclk & Hfet).
  exists ks, w'. do 3 (split; [done|]). split; [|split; [|done]].
  - intros k Hg. unfold redis.live at 1. rewrite Hdb. case_bool_decide; [done|].
    rewrite Hclk. change (redis.live w k = None).
    destruct (redis.live w k) eqn:E; [|done]. exfalso. apply H, Hks. by eauto.
  - intros k Hg. apply live_eq; [|done]. rewrite Hdb.
    rewrite bool_decide_eq_false_2; [done|]. intros Hk. apply Hks in Hk as [_ Hk]. congruence.
Qed.

(** X3: when the store answers, [invalidateCache(pattern)] returns the
    number of live keys that match the pattern; afterwards no key matching
    the pattern is left, and every other key holds what it held. *)
Theorem invalidateCache_clears pattern w :
  quiet w →
  ∃ ks w', invalidateCache pattern w = (Ok (Z.of_nat (length ks)), w') ∧
    NoDup ks ∧ (∀ k, k ∈ ks ↔ is_Some (redis.live w k) ∧ glob pattern k = true) ∧
    (∀ k, glob pattern k = true → redis.live w' k = None) ∧
    (∀ k, glob pattern k = false → redis.live w' k = redis.live w k).
Proof.
  intros Hq.
  destruct (invalidateCache_quiet pattern w Hq) as (ks & w' & H1 & H2 & H3 & H4 & H5 & _).
  by exists ks, w'.
Qed.

Lemma invalidateCache_clears_witness :
  quiet w_full ∧
  ∃ ks w', invalidateCache "rate_limit:*" w_full = (Ok (Z.of_nat (length ks)), w') ∧
    NoDup ks ∧
    (∀ k, k ∈ ks ↔ is_Some (redis.live w_full k) ∧ glob "rate_limit:*" k = true) ∧
    (∀ k, glob "rate_limit:*" k = true → redis.live w' k = None) ∧
    (∀ k, glob "rate_limit:*" k = false → redis.live w' k = redis.live w_full k).
Proof.
  assert (quiet w_full) as Hq by constructor.
  split; [exact Hq|]. exact (invalidateCache_clears "rate_limit:*" w_full Hq).
Defined.

Lemma cached_value_eq w w' key :
  redis.live w' key = redis.live w key → cached_value w' key = cached_value w key.
Proof. unfold cached_value. by intros ->. Qed.

(** X4: after the invalidation that follows an upload, an update or a
    deletion, the next listing of that user's files is fetched afresh,
    whatever was cached for the query. *)
Theorem listing_refetched_after_invalidation userId input fetcher ttl w v :
  plain userId → quiet w → 0 ≤ default 3600 ttl → fetcher (fetched w) = Ok v →
  ∃ n w1 w2,
    invalidateCache (userFilesPattern userId) w = (Ok n, w1) ∧
    cache (userFilesKey userId input) fetcher ttl w1 = (Ok v, w2) ∧
    fetched w2 = S (fetched w).
Proof.
  intros Hp Hq Httl Hf.
  destruct (invalidateCache_quiet (userFilesPattern userId) w Hq)
    as (ks & w1 & Hrun & _ & _ & Hgone & _ & Hq1 & _ & Hfet).
  specialize (Hgone _ (user_pattern_own userId input Hp)).
  destruct (cache_miss w1 (userFilesKey userId input) fetcher ttl JNull v)
    as (w2 & d & Hc & _ & _ & _ & _ & Hf2); try done.
  - unfold cached_value. by rewrite Hgone.
  - by rewrite Hfet.
  - exists (Z.of_nat (length ks)), w1, w2. by rewrite Hf2, Hfet.
Qed.

(** X5: that invalidation leaves the cached statistics of every user in
    place: a statistics entry that was served from the cache before is
    still served from it, and its fetcher is not invoked. *)
Theorem stats_survive_invalidation a b fetcher ttl w c :
  quiet w → cached_value w (statsKey b) = Some c → is_null c = false →
  ∃ n w1 w2,
    invalidateCache (userFilesPattern a) w = (Ok n, w1) ∧
    cache (statsKey b) fetcher ttl w1 = (Ok c, w2) ∧
    fetched w2 = fetched w.
Proof.
  intros Hq Hc Hn.
  destruct (invalidateCache_quiet (userFilesPattern a) w Hq)
    as (ks & w1 & Hrun & _ & _ & _ & Hkept & Hq1 & _ & Hfet).
  specialize (Hkept _ (user_pattern_not_stats a b)).
  exists (Z.of_nat (length ks)), w1. eexists. split; [done|].
  rewrite (cache_hit w1 (statsKey b) fetcher ttl c); [done|done| |done].
  by rewrite (cached_value_eq w w1).
Qed.
Lemma listing_refetched_after_invalidation_witness :
  plain "42" ∧ quiet w_cached ∧ 0 ≤ default 3600 (Some 300) ∧
  fetch_total (fetched w_cached) = Ok (JObj [("total", JNum 5)]) ∧
  ∃ n w1 w2,
    invalidateCache (userFilesPattern "42") w_cached = (Ok n, w1) ∧
    cache (userFilesKey "42" (JObj [("limit", JNum 10)])) fetch_total (Some 300) w1 =
      (Ok (JObj [("total", JNum 5)]), w2) ∧
    fetched w2 = S (fetched w_cached).
Proof.
  assert (plain "42") as H1 by (by repeat constructor).
  assert (quiet w_cached) as H2 by constructor.
  assert (0 ≤ default 3600 (Some 300)) as H3 by (simpl; lia).
  assert (fetch_total (fetched w_cached) = Ok (JObj [("total", JNum 5)])) as H4 by reflexivity.
  do 4 (split; [assumption|]).
  exact (listing_refetched_after_invalidation "42" (JObj [("limit", JNum 10)]) fetch_total
           (Some 300) w_cached _ H1 H2 H3 H4).
Defined.

Lemma stats_survive_invalidation_witness :
  quiet w_cached ∧
  cached_value w_cached (statsKey "42") = Some (JObj [("totalFiles", JNum 3)]) ∧
  is_null (JObj [("totalFiles", JNum 3)]) = false ∧
  ∃ n w1 w2,
    invalidateCache (userFilesPattern "42") w_cached = (Ok n, w1) ∧
    cache (statsKey "42") fetch_total (Some 300) w1 =
      (Ok (JObj [("totalFiles", JNum 3)]), w2) ∧
    fetched w2 = fetched w_cached.
Proof.
  assert (quiet w_cached) as H1 by constructor.
  assert (cached_value w_cached (statsKey "42") = Some (JObj [("totalFiles", JNum 3)])) as H2
    by (vm_compute; reflexivity).
  assert (is_null (JObj [("totalFiles", JNum 3)]) = false) as H3 by reflexivity.
  do 3 (split; [assumption|]).
  exact (stats_survive_invalidation "42" "42" fetch_total (Some 300) w_cached _ H1 H2 H3).
Defined.

(** ** String keys: write, read, delete *)

Lemma live_inserted w key e t :
  redis.live (set_clock t (set_db (<[key := e]> (db w)) (tick w))) key =
  if redis.expired t e then None else Some e.
Proof. unfold redis.live, set_clock, set_db; cbn. by rewrite lookup_insert_eq. Qed.

Lemma quiet_set_clock t w : quiet w → quiet (set_clock t w).
Proof. done. Qed.

(** X6: a value written by [setWithExpiry(key, value, ttl)] is what
    [getValue(key)] returns at every time before [ttl] seconds have passed,
    and from then on [getValue(key)] returns null. *)
Theorem setWithExpiry_then_getValue key value ttlSeconds w :
  quiet w → 0 < ttlSeconds →
  ∃ w1, setWithExpiry key value ttlSeconds w = (Ok "OK", w1) ∧
        ∀ t, ∃ w2, getValue key (set_clock t w1) =
                     (Ok (if bool_decide (t < clock w + ttlSeconds * 1000)
                          then Some value else None), w2).
Proof.
  intros Hq Httl. rewrite setWithExpiry_quiet by done. eexists. split; [reflexivity|].
  intros t. unfold getValue, try_catch. rewrite get_quiet by (by apply quiet_tick).
  rewrite live_inserted. unfold redis.expired; cbn [e_deadline].
  case_bool_decide.
  - rewrite (proj2 (Z.leb_gt _ _)) by done. by eexists.
  - rewrite (proj2 (Z.leb_le _ _)) by lia. by eexists.
Qed.

Lemma setWithExpiry_then_getValue_witness :
  quiet w_empty ∧ 0 < 60 ∧
  ∃ w1, setWithExpiry "k" "v" 60 w_empty = (Ok "OK", w1) ∧
        ∀ t, ∃ w2, getValue "k" (set_clock t w1) =
                     (Ok (if bool_decide (t < clock w_empty + 60 * 1000)
                          then Some "v" else None), w2).
Proof.
  assert (quiet w_empty) as H1 by constructor.
  assert (0 < 60) as H2 by lia.
  do 2 (split; [assumption|]).
  exact (setWithExpiry_then_getValue "k" "v" 60 w_empty H1 H2).
Defined.

(** X7: [deleteKey(key)] answers 1 when the key was there and 0 when it was
    absent or expired; afterwards [getValue(key)] returns null at every
    time, and the other keys are as they were. *)
Theorem deleteKey_then_getValue key w :
  quiet w →
  ∃ w1, deleteKey key w = (Ok (match redis.live w key with Some _ => 1 | None => 0 end), w1) ∧
        (∀ t, ∃ w2, getValue key (set_clock t w1) = (Ok None, w2)) ∧
        ∀ k, k ≠ key → db w1 !! k = db w !! k.
Proof.
  intros Hq. unfold deleteKey, try_catch.
  rewrite del_quiet by done. cbn [remove_dups foldr].
  eexists. split; [|split].
  - do 2 f_equal. destruct (decide_rel elem_of key []) as [Hin|_]; [by apply elem_of_nil in Hin|].
    rewrite filter_cons. by destruct (redis.live w key).
  - intros t. unfold getValue, try_catch. rewrite get_quiet by (by apply quiet_tick).
    unfold redis.live, set_clock, set_db; cbn. rewrite lookup_delete_eq. by eexists.
  - intros k Hk. unfold set_db; cbn. by rewrite lookup_delete_ne.
Qed.

Lemma deleteKey_then_getValue_witness :
  quiet w_cached ∧
  ∃ w1, deleteKey (statsKey "42") w_cached =
          (Ok (match redis.live w_cached (statsKey "42") with Some _ => 1 | None => 0 end),
           w1) ∧
        (∀ t, ∃ w2, getValue (statsKey "42") (set_clock t w1) = (Ok None, w2)) ∧
        ∀ k, k ≠ statsKey "42" → db w1 !! k = db w_cached !! k.
Proof.
  assert (quiet w_cached) as H1 by constructor.
  split; [assumption|]. exact (deleteKey_then_getValue (statsKey "42") w_cached H1).
Defined.

(** ** JSON text of any value, read back *)

Lemma jsval_nested_ind (P : jsval → Prop) :
  P JNull → (∀ b, P (JBool b)) → (∀ n, P (JNum n)) → P JNaN → (∀ s, P (JStr s)) →
  (∀ items, Forall P items → P (JArr items)) →
  (∀ fields, Forall (λ kv : string * jsval, P kv.2) fields → P (JObj fields)) →
  ∀ v, P v.
Proof.
  intros Hnull Hbool Hnum Hnan Hstr Harr Hobj.
  fix IH 1. intros [|b|n| |s|items|fields].
  - exact Hnull.
  - apply Hbool.
  - apply Hnum.
  - exact Hnan.
  - apply Hstr.
  - apply Harr. induction items as [|x items IHi]; constructor; [apply IH|exact IHi].
  - apply Hobj. induction fields as [|[k x] fields IHf]; constructor; [apply IH|exact IHf].
Qed.

Lemma length_app a b : String.length (a +:+ b) = (String.length a + String.length b)%nat.
Proof. induction a as [|c a IH]; [done|]. rewrite app_cons. simpl. by rewrite IH. Qed.

Lemma append_nil_r (s : string) : s +:+ EmptyString = s.
Proof. induction s as [|c s IH]; [done|]. by rewrite app_cons, IH. Qed.

Lemma stringify_obj fields :
  JSON.stringify (JObj fields) = "{" +:+ JSON.join "," (members fields) +:+ "}".
Proof.
  reflexivity.
Qed.

Lemma nan_free_obj fields :
  nan_free (JObj fields) = forallb (λ kv : string * jsval, nan_free kv.2) fields.
Proof.
  cbn [nan_free]. induction fields as [|[k x] fields IH]; [done|]. cbn [forallb snd].
  by rewrite <- IH.
Qed.

(** Every text of a value starts with a character of its own. *)
Lemma stringify_head v :
  ∃ c s, JSON.stringify v = String c s ∧ JSON.is_ws c = false ∧ c ≠ "]"%char.
Proof.
  destruct v as [|[]|n| |s|items|fields]; try (by eexists _, _).
  cbn [JSON.stringify]. unfold toString.
  destruct n as [|p|p]; cbn [Z.to_int NilZero.string_of_int]; try (by eexists _, _).
  destruct (string_of_uint_digit p) as (c & r & -> & [d Hc]).
    exists c, r. split; [done|]. unfold digit_of in Hc.
    destruct c as [[] [] [] [] [] [] [] []]; try discriminate Hc; done.
Qed.

Lemma stringify_truthy v : truthy (JSON.stringify v) = true.
Proof. by destruct (stringify_head v) as (c & s & -> & _). Qed.

Lemma parse_value_array fuel r :
  (∀ r', JSON.skip_ws r ≠ String "]" r') →
  JSON.parse_value (S fuel) (String "[" r) =
  match JSON.parse_elements fuel r with
  | Some (vs, rest) => Some (JArr vs, rest)
  | None => None
  end.
Proof.
  intros H. cbn [JSON.parse_value JSON.skip_ws].
  change (JSON.is_ws "[") with false. cbv iota.
  destruct (JSON.skip_ws r) as [|c r'] eqn:E; [done|].
  destruct c as [[] [] [] [] [] [] [] []]; try reflexivity. by destruct (H r').
Qed.

Lemma parse_elements_step fuel s :
  JSON.parse_elements (S fuel) s =
  match JSON.parse_value fuel s with
  | Some (v, rest) =>
      match JSON.skip_ws rest with
      | String "," r =>
          match JSON.parse_elements fuel r with
          | Some (vs, rest') => Some (v :: vs, rest')
          | None => None
          end
      | String "]" r => Some ([v], r)
      | _ => None
      end
  | None => None
  end.
Proof. reflexivity. Qed.

Lemma skip_ws_head c s : JSON.is_ws c = false → JSON.skip_ws (String c s) = String c s.
Proof. intros H. cbn [JSON.skip_ws]. by rewrite H. Qed.

Lemma parse_elements_join items :
  Forall reads_back items → items ≠ [] →
  ∀ fuel rest,
    (String.length (JSON.join "," (map JSON.stringify items)) + 1 ≤ fuel)%nat →
    JSON.parse_elements fuel (JSON.join "," (map JSON.stringify items) +:+ String "]" rest) =
    Some (items, rest).
Proof.
  intros Hall. induction Hall as [|x l Hx Hl IH]; [done|]. intros _ fuel rest Hlen.
  destruct fuel as [|fuel]; [lia|]. rewrite parse_elements_step.
  destruct l as [|y l].
  - cbn [map JSON.join] in *. rewrite Hx; [done|lia|done].
  - change (JSON.join "," (map JSON.stringify (x :: y :: l)))
      with (JSON.stringify x +:+ "," +:+ JSON.join "," (map JSON.stringify (y :: l))) in *.
    rewrite !length_app in Hlen. rewrite !append_assoc, app_cons, app_nil.
    rewrite Hx; [|lia|done]. rewrite skip_ws_head by done.
    rewrite IH; [done|done|]. cbn [String.length] in Hlen. lia.
Qed.

Lemma parse_members_join fields :
  Forall (λ kv : string * jsval, reads_back kv.2) fields → fields ≠ [] →
  ∀ fuel rest,
    (String.length (JSON.join "," (members fields)) + 1 ≤ fuel)%nat →
    JSON.parse_members fuel (JSON.join "," (members fields) +:+ String "}" rest) =
    Some (fields, rest).
Proof.
  intros Hall. induction Hall as [|[k x] l Hx Hl IH]; [done|]. intros _ fuel rest Hlen.
  destruct fuel as [|fuel]; [lia|]. cbn [snd] in Hx.
  destruct l as [|[k' y] l].
  - cbn [members JSON.join] in *. rewrite !length_app in Hlen.
    rewrite !append_assoc, app_cons, app_nil.
    apply parse_members_last. rewrite Hx; [done|lia|done].
  - change (JSON.join "," (members ((k, x) :: (k', y) :: l)))
      with ((JSON.quote k +:+ ":" +:+ JSON.stringify x) +:+ "," +:+
            JSON.join "," (members ((k', y) :: l))) in *.
    rewrite !length_app in Hlen. rewrite !append_assoc, !app_cons, !app_nil.
    rewrite (parse_members_more _ _ x _
               (JSON.join "," (members ((k', y) :: l)) +:+ String "}" rest)).
    + rewrite IH; [done|done|]. cbn [String.length] in Hlen. lia.
    + rewrite Hx; [done|lia|done].
Qed.

(** The parser reads the text of a value back, whatever follows it. *)
Lemma parse_value_stringify v : nan_free v = true → reads_back v.
Proof.
  induction v as [|b|n| |s|items IH|fields IH] using jsval_nested_ind;
    intros Hnan fuel rest Hlen Hrest.
  - destruct fuel as [|fuel]; [cbn in Hlen; lia|]. reflexivity.
  - destruct fuel as [|fuel]; [destruct b; vm_compute in Hlen; lia|]. by destruct b.
  - cbn [JSON.stringify] in *. destruct fuel as [|fuel].
    + pose proof (toString_truthy n). destruct (toString n); [done|cbn in Hlen; lia].
    + destruct Hrest. by apply parse_value_toString.
  - done.
  - cbn [JSON.stringify] in *. destruct fuel as [|fuel]; [cbn in Hlen; lia|].
    apply parse_value_string.
  - cbn [JSON.stringify nan_free] in *.
    destruct fuel as [|fuel]; [rewrite app_cons in Hlen; cbn [String.length] in Hlen; lia|].
    rewrite !length_app in Hlen. cbn [String.length] in Hlen.
    rewrite !append_assoc, !app_cons, !app_nil.
    destruct items as [|x items]; [reflexivity|].
    rewrite parse_value_array.
    + rewrite parse_elements_join; [done| |done|lia].
      apply Forall_forall. intros v Hv. rewrite Forall_forall in IH. apply IH; [done|].
      rewrite forallb_forall in Hnan. apply Hnan. by apply list_elem_of_In.
    + intros r'. destruct (stringify_head x) as (c & t & Hx & Hws & Hc).
      destruct items; cbn [map JSON.join]; rewrite Hx, ?app_cons, skip_ws_head by done;
        congruence.
  - rewrite nan_free_obj in Hnan. rewrite stringify_obj in *.
    destruct fuel as [|fuel]; [rewrite app_cons in Hlen; cbn [String.length] in Hlen; lia|].
    rewrite !length_app in Hlen. cbn [String.length] in Hlen.
    rewrite !append_assoc, !app_cons, !app_nil.
    destruct fields as [|[k x] fields]; [reflexivity|].
    assert (∃ y, JSON.join "," (members ((k, x) :: fields)) +:+ String "}" rest =
                 JSON.quote k +:+ y) as [y Hy].
    { destruct fields as [|[k' x'] fields]; cbn [members JSON.join];
        rewrite !append_assoc; eauto. }
    rewrite Hy, parse_value_object, <- Hy.
    rewrite parse_members_join; [done| |done|lia].
    apply Forall_forall. intros [k' v] Hv. rewrite Forall_forall in IH.
    apply (IH _ Hv). rewrite forallb_forall in Hnan. apply (Hnan (k', v)).
    by apply list_elem_of_In.
Qed.

(** Every value without NaN is read back from its text. *)
Lemma parse_stringify v : nan_free v = true → JSON.parse (JSON.stringify v) = Ok v.
Proof.
  intros Hnan. unfold JSON.parse.
  pose proof (parse_value_stringify v Hnan (S (String.length (JSON.stringify v))) EmptyString)
    as H.
  rewrite append_nil_r in H. rewrite H; [done|lia|done].
Qed.

Lemma safe_numbers_nan_free v : safe_numbers v = true → nan_free v = true.
Proof.
  induction v as [|b|n| |s|items IH|fields IH] using jsval_nested_ind; try done.
  - cbn [safe_numbers nan_free]. induction IH as [|x items Hx _ IHi]; [done|].
    cbn [forallb]. intros [H1 H2]%andb_prop. by rewrite Hx, IHi.
  - cbn [safe_numbers nan_free]. induction IH as [|[k x] fields Hx _ IHf]; [done|].
    intros [H1 H2]%andb_prop. cbn [snd] in Hx. by rewrite Hx, IHf.
Qed.

(** X8: a value made of null, booleans, safe integers, strings, arrays and
    objects, written by [setJson(key, value, ttl)], is the value
    [getJson(key)] returns: at every time when [ttl] is omitted or 0 (the
    entry is then stored without expiry), and otherwise at every time
    before [ttl] seconds have passed. *)
Theorem setJson_then_getJson key value ttlSeconds w :
  quiet w → safe_numbers value = true → 0 ≤ default 0 ttlSeconds →
  ∃ w1, setJson key value ttlSeconds w = (Ok "OK", w1) ∧
        ∀ t, default 0 ttlSeconds = 0 ∨ t < clock w + default 0 ttlSeconds * 1000 →
             ∃ w2, getJson key (set_clock t w1) = (Ok value, w2).
Proof.
  intros Hq Hnan%safe_numbers_nan_free Httl. unfold setJson, try_catch.
  assert (∀ d t, redis.expired t (Entry (PStr (JSON.stringify value)) d) = false →
            cached_value
              (set_clock t (set_db (<[key := Entry (PStr (JSON.stringify value)) d]> (db w))
                                   (tick w))) key = Some value) as Hread.
  { intros d t Hd. unfold cached_value. rewrite live_inserted, Hd.
    by rewrite stringify_truthy, parse_stringify. }
  destruct ttlSeconds as [ttl|]; cbn [fmap option_fmap option_map truthy_val default] in *.
  - destruct (ttl =? 0) eqn:E; cbn [negb].
    + rewrite set_quiet by done. eexists. split; [reflexivity|]. intros t _.
      eexists. apply getJson_quiet; [by apply quiet_tick|]. by apply Hread.
    + apply Z.eqb_neq in E. assert (0 < ttl) as Hpos by (simpl in Httl; lia).
      rewrite setex_quiet by done.
      eexists. split; [reflexivity|]. intros t [?|Ht]; [done|].
      eexists. apply getJson_quiet; [by apply quiet_tick|]. apply Hread.
      by apply Z.leb_gt.
  - rewrite set_quiet by done. eexists. split; [reflexivity|]. intros t _.
    eexists. apply getJson_quiet; [by apply quiet_tick|]. by apply Hread.
Qed.

Lemma setJson_then_getJson_witness :
  quiet w_empty ∧
  safe_numbers (JObj [("total", JNum 5); ("tags", JArr [JStr "a"; JNull])]) = true ∧
  0 ≤ default 0 (Some 300) ∧
  ∃ w1, setJson "k" (JObj [("total", JNum 5); ("tags", JArr [JStr "a"; JNull])]) (Some 300)
          w_empty = (Ok "OK", w1) ∧
        ∀ t, default 0 (Some 300) = 0 ∨ t < clock w_empty + default 0 (Some 300) * 1000 →
             ∃ w2, getJson "k" (set_clock t w1) =
                     (Ok (JObj [("total", JNum 5); ("tags", JArr [JStr "a"; JNull])]), w2).
Proof.
  assert (quiet w_empty) as H1 by constructor.
  assert (safe_numbers (JObj [("total", JNum 5); ("tags", JArr [JStr "a"; JNull])]) = true)
    as H2 by reflexivity.
  assert (0 ≤ default 0 (Some 300)) as H3 by (simpl; lia).
  do 3 (split; [assumption|]).
  exact (setJson_then_getJson "k" _ (Some 300) w_empty H1 H2 H3).
Defined.

(** ** Edge behaviour of [cache] *)

Lemma command_false {A} (run : M A) w fs :
  faults w = false :: fs → redis.command run w = run (set_faults fs w).
Proof. intros H. unfold redis.command. by rewrite H. Qed.

Lemma command_true {A} (run : M A) w fs :
  faults w = true :: fs → redis.command run w = redis.raise ConnectionError (set_faults fs w).
Proof. intros H. unfold redis.command. by rewrite H. Qed.

(** A text that is not JSON is refused by [JSON.parse]. *)
Lemma parse_not_json s : not_json s = true → JSON.parse s = Throw SyntaxError.
Proof.
  unfold not_json, JSON.parse. cbn [JSON.parse_value].
  destruct (JSON.skip_ws s) as [|c r]; [done|].
  intros H%negb_true_iff.
  destruct c as [[] [] [] [] [] [] [] []]; try discriminate H; reflexivity.
Qed.

(** X9: an entry that cannot be read (a sorted set, or a text that is not
    empty and, past its white space, is empty or begins with a character
    no JSON value begins with) is never repaired: [cache] answers with the
    outcome of the fetcher, invoked once, and leaves the store as it was,
    so that the next call finds the same entry. *)
Theorem cache_unreadable_entry key fetcher ttl w e :
  quiet w → redis.live w key = Some e → unreadable e = true →
  ∃ w', cache key fetcher ttl w = (fetcher (fetched w), w') ∧
        fetched w' = S (fetched w) ∧ db w' = db w ∧
        quiet w' ∧ redis.live w' key = Some e.
Proof.
  intros Hq Hl He. unfold cache, try_catch, bind, getJson, try_catch, bind.
  rewrite get_quiet, Hl by done.
  assert (∀ w', db w' = db w → clock w' = clock w → redis.live w' key = Some e) as Hsame.
  { intros w' Hdb Hclk. unfold redis.live. rewrite Hdb, Hclk. exact Hl. }
  destruct e as [[s|z] d]; unfold unreadable in He; cbn [e_val] in He.
  - apply andb_prop in He as [Ht Hs]. rewrite Ht. cbn [negb]. unfold lift.
    rewrite (parse_not_json s Hs).
    eexists. split; [reflexivity|]. cbn. repeat split; [by apply quiet_tick|by apply Hsame].
  - eexists. split; [reflexivity|]. cbn. repeat split; [by apply quiet_tick|by apply Hsame].
Qed.

Lemma cache_unreadable_entry_witness :
  quiet w_corrupt ∧
  redis.live w_corrupt "k" = Some (Entry (PStr "<html>Bad Gateway</html>") None) ∧
  unreadable (Entry (PStr "<html>Bad Gateway</html>") None) = true ∧
  ∃ w', cache "k" fetch_total (Some 300) w_corrupt = (fetch_total (fetched w_corrupt), w') ∧
        fetched w' = S (fetched w_corrupt) ∧ db w' = db w_corrupt ∧
        quiet w' ∧
        redis.live w' "k" = Some (Entry (PStr "<html>Bad Gateway</html>") None).
Proof.
  assert (quiet w_corrupt) as H1 by constructor.
  assert (redis.live w_corrupt "k" = Some (Entry (PStr "<html>Bad Gateway</html>") None))
    as H2 by reflexivity.
  assert (unreadable (Entry (PStr "<html>Bad Gateway</html>") None) = true) as H3
    by reflexivity.
  do 3 (split; [assumption|]).
  exact (cache_unreadable_entry "k" fetch_total (Some 300) w_corrupt _ H1 H2 H3).
Defined.





(** X11: when, on a miss, the value cannot be written (the store fails on
    the write, or [ttl] is negative and the store refuses it), the fetcher
    has run twice: the first result is dropped, the caller gets the outcome
    of the second invocation, and nothing is stored. *)
Theorem cache_failed_write_fetches_twice key fetcher ttl w c v fs :
  cached_value w key = Some c → is_null c = true → fetcher (fetched w) = Ok v →
  faults w = false :: true :: fs ∨ (quiet w ∧ default 3600 ttl < 0) →
  ∃ w', cache key fetcher ttl w = (fetcher (S (fetched w)), w') ∧
        fetched w' = S (S (fetched w)) ∧ db w' = db w.
Proof.
  intros Hc Hn Hf Hfail.
  assert (∃ w0, redis.get key w =
                  (match redis.live w key with
                   | Some (Entry (PStr s) _) => Ok (Some s)
                   | _ => Ok None
                   end, w0) ∧
                db w0 = db w ∧ clock w0 = clock w ∧ fetched w0 = fetched w ∧
                logged w0 = logged w ∧ store_errors w0 = store_errors w ∧
                (faults w0 = true :: fs ∨ (quiet w0 ∧ default 3600 ttl < 0)))
    as (w0 & Hget & Hdb0 & Hclk0 & Hfet0 & _ & _ & Hfail0).
  { unfold cached_value in Hc. unfold redis.get. destruct Hfail as [Hfs|[Hq Httl]].
    - rewrite (command_false _ w _ Hfs). change (redis.live (set_faults _ w) key)
        with (redis.live w key).
      destruct (redis.live w key) as [[[s|z] d]|]; [|done|]; eexists; (split; [reflexivity|]);
        cbn; repeat split; by left.
    - rewrite command_quiet by done. change (redis.live (tick w) key) with (redis.live w key).
      destruct (redis.live w key) as [[[s|z] d]|]; [|done|]; eexists; (split; [reflexivity|]);
        cbn; repeat split; right; (split; [by apply quiet_tick|done]). }
  assert (getJson key w = (Ok c, w0)) as Hgj.
  { unfold getJson, try_catch, bind. rewrite Hget. unfold cached_value in Hc.
    destruct (redis.live w key) as [[[s|z] d]|]; [|done|by injection Hc as <-].
    unfold ret, lift. destruct (truthy s); cbn [negb]; [|by injection Hc as <-].
    by destruct (JSON.parse s); simplify_eq. }
  unfold cache, try_catch, bind, logger.debug, logger.write, invoke, ret.
  rewrite Hgj, Hn. cbn [negb].
  unfold set_logged at 1. cbn [fetched]. rewrite Hfet0, Hf.
  unfold setJson, try_catch, bind, throw, logger.error, logger.write.
  cbn [fmap option_fmap option_map truthy_val default].
  set (secs := default 3600 ttl) in *.
  destruct Hfail0 as [Hfs|[Hq Httl]].
  - destruct (negb (secs =? 0)).
    + unfold redis.setex. erewrite command_true by exact Hfs.
      unfold redis.raise. cbn. rewrite Hfet0. eexists. split; [reflexivity|]. by cbn.
    + unfold redis.set. erewrite command_true by exact Hfs.
      unfold redis.raise. cbn. rewrite Hfet0. eexists. split; [reflexivity|]. by cbn.
  - replace (negb (secs =? 0)) with true
      by (symmetry; apply negb_true_iff, Z.eqb_neq; lia).
    unfold redis.setex. rewrite command_quiet by exact Hq.
    assert ((secs <=? 0) = true) as E by (apply Z.leb_le; lia).
    unfold redis.raise. cbn. rewrite E, Hfet0. eexists. split; [reflexivity|]. by cbn.
Qed.

Lemma cache_failed_write_fetches_twice_witness :
  cached_value w_write_fails "k" = Some JNull ∧ is_null JNull = true ∧
  fetch_total (fetched w_write_fails) = Ok (JObj [("total", JNum 5)]) ∧
  (faults w_write_fails = false :: true :: [] ∨
   (quiet w_write_fails ∧ default 3600 (Some 300) < 0)) ∧
  ∃ w', cache "k" fetch_total (Some 300) w_write_fails =
          (fetch_total (S (fetched w_write_fails)), w') ∧
        fetched w' = S (S (fetched w_write_fails)) ∧ db w' = db w_write_fails.
Proof.
  assert (cached_value w_write_fails "k" = Some JNull) as H1 by reflexivity.
  assert (is_null JNull = true) as H2 by reflexivity.
  assert (fetch_total (fetched w_write_fails) = Ok (JObj [("total", JNum 5)])) as H3
    by reflexivity.
  assert (faults w_write_fails = false :: true :: [] ∨
          (quiet w_write_fails ∧ default 3600 (Some 300) < 0)) as H4 by (left; reflexivity).
  do 4 (split; [assumption|]).
  exact (cache_failed_write_fetches_twice "k" fetch_total (Some 300) w_write_fails JNull _ []
           H1 H2 H3 H4).
Defined.

(** X12: when, on a miss, the fetcher fails, [cache] logs the failure as a
    cache error and invokes the fetcher a second time; the caller gets the
    outcome of that second invocation, and nothing is stored. *)
Theorem cache_failing_fetcher_retried key fetcher ttl w c e :
  quiet w → cached_value w key = Some c → is_null c = true →
  fetcher (fetched w) = Throw e →
  ∃ w', cache key fetcher ttl w = (fetcher (S (fetched w)), w') ∧
        fetched w' = S (S (fetched w)) ∧ db w' = db w ∧
        head (logged w') = Some (Error, "Cache operation error for key " +:+ key).
Proof.
  intros Hq Hc Hn Hf. unfold cache, try_catch, bind, logger.debug, logger.error, logger.write,
    invoke, ret.
  rewrite (getJson_quiet w key c Hq Hc), Hn. cbn [negb].
  unfold set_logged at 1. cbn [fetched]. change (fetched (tick w)) with (fetched w).
  rewrite Hf. cbn. by eexists.
Qed.

Lemma cache_failing_fetcher_retried_witness :
  quiet w_empty ∧ cached_value w_empty "k" = Some JNull ∧ is_null JNull = true ∧
  fetch_flaky (fetched w_empty) = Throw (AppError "database unavailable") ∧
  ∃ w', cache "k" fetch_flaky (Some 300) w_empty = (fetch_flaky (S (fetched w_empty)), w') ∧
        fetched w' = S (S (fetched w_empty)) ∧ db w' = db w_empty ∧
        head (logged w') = Some (Error, "Cache operation error for key " +:+ "k").
Proof.
  assert (quiet w_empty) as H1 by constructor.
  assert (cached_value w_empty "k" = Some JNull) as H2 by reflexivity.
  assert (is_null JNull = true) as H3 by reflexivity.
  assert (fetch_flaky (fetched w_empty) = Throw (AppError "database unavailable")) as H4
    by reflexivity.
  do 4 (split; [assumption|]).
  exact (cache_failing_fetcher_retried "k" fetch_flaky (Some 300) w_empty JNull _ H1 H2 H3 H4).
Defined.

(** ** Two successive calls of [cache] *)




(** ** The rate limit engine in any world *)

Lemma set_faults_same w : set_faults (faults w) w = w.
Proof. by destruct w. Qed.

(** A command that answered has run its body, on the same keyspace. *)
Lemma command_ran {A} (run : M A) w a w1 :
  redis.command run w = (Ok a, w1) → ∃ fs, run (set_faults fs w) = (Ok a, w1).
Proof.
  unfold redis.command. destruct (faults w) as [|[] fs] eqn:E.
  - intros H. exists (faults w). by rewrite set_faults_same.
  - unfold redis.raise. discriminate.
  - eauto.
Qed.

Lemma zremrangebyscore_ok key ws w n w1 :
  redis.zremrangebyscore key NegInf (Score ws) w = (Ok n, w1) →
  ∃ z, window_set w key = Some z ∧ window_set w1 key = Some (surviving ws z) ∧
       clock w1 = clock w.
Proof.
  unfold redis.zremrangebyscore. intros H. apply command_ran in H as [fs H].
  change (redis.live (set_faults fs w) key) with (redis.live w key) in H.
  unfold window_set at 1.
  destruct (redis.live w key) as [[[s|z] d]|] eqn:El.
  - unfold redis.raise in H. discriminate.
  - injection H as _ <-. exists z. split; [done|].
    apply live_Some in El as [Hdb Hexp].
    destruct (put_zset_spec key (surviving ws z) d (set_faults fs w)) as (Hw & Hf & _); [done|].
    split; [exact Hw|]. apply Hf.
  - injection H as _ <-. exists ∅. split; [done|]. split; [|done].
    unfold surviving. rewrite map_filter_empty.
    change (window_set w key = Some ∅). unfold window_set. by rewrite El.
Qed.

Lemma zcard_ok key w n w1 :
  redis.zcard key w = (Ok n, w1) → window_set w1 key = window_set w key ∧ clock w1 = clock w.
Proof.
  unfold redis.zcard. intros H. apply command_ran in H as [fs H].
  change (redis.live (set_faults fs w) key) with (redis.live w key) in H.
  destruct (redis.live w key) as [[[s|z] d]|] eqn:El;
    [unfold redis.raise in H; discriminate| |]; by injection H as _ <-.
Qed.

Lemma zrange_ok key start stop w l w1 :
  redis.zrange key start stop w = (Ok l, w1) →
  ∃ z, window_set w key = Some z ∧ l = with_scores (zslice (by_score z) start stop).
Proof.
  unfold redis.zrange. intros H. apply command_ran in H as [fs H].
  change (redis.live (set_faults fs w) key) with (redis.live w key) in H.
  unfold window_set.
  destruct (redis.live w key) as [[[s|z] d]|] eqn:El.
  - unfold redis.raise in H. discriminate.
  - injection H as <- _. by exists z.
  - injection H as <- _. exists ∅. split; [done|].
    unfold by_score. rewrite map_to_list_empty. cbn [foldr]. by rewrite zslice_nil.
Qed.

Lemma surviving_lookup ws (z : gmap string Z) m s :
  surviving ws z !! m = Some s ↔ z !! m = Some s ∧ ws < s.
Proof.
  unfold surviving. rewrite map_lookup_filter_Some. cbn.
  unfold in_range. cbn. split; intros [H1 H2]; (split; [done|]).
  - by apply Z.leb_gt.
  - by apply Z.leb_gt.
Qed.

(** X13: whichever commands fail, [checkRateLimit] returns (it never
    throws).  For a positive window, a time of call and an end of window
    within the range of the valid dates, and a window set without member
    stamped later than the call, its [resetAt] is a valid date, later than
    the time of the call and at most [windowMs] later. *)
Theorem checkRateLimit_resetAt_is_later identifier maxRequests windowMs w :
  0 < windowMs →
  valid_time (clock w) = true → valid_time (clock w + windowMs) = true →
  (∀ z m s, window_set w ("rate_limit:" +:+ identifier) = Some z →
            z !! m = Some s → s ≤ clock w) →
  ∃ r w' t, checkRateLimit identifier maxRequests windowMs w = (Ok r, w') ∧
            resetAt r = Date t ∧ valid_time t = true ∧
            clock w < t ≤ clock w + windowMs.
Proof.
  intros Hw Hv0 Hv1 Hstamps. unfold checkRateLimit, bind, try_catch, Date_now.
  set (key := "rate_limit:" +:+ identifier) in *. set (now := clock w) in *.
  assert (now < now + windowMs ≤ now + windowMs) as Hlater by lia.
  assert (∀ t, now < t ≤ now + windowMs → valid_time t = true) as Hvalid.
  { intros t Ht. unfold valid_time in *. apply andb_prop in Hv0 as [H0 _].
    apply andb_prop in Hv1 as [_ H1]. zbool. apply andb_true_intro.
    split; apply Z.leb_le; lia. }
  pose proof (Hvalid _ Hlater) as Hvl.
  destruct (redis.zremrangebyscore key NegInf (Score (now - windowMs)) w)
    as [[n|e] w1] eqn:E1; [|by eexists _, _, _].
  destruct (redis.zcard key w1) as [[count|e] w2] eqn:E2; [|by eexists _, _, _].
  destruct (count <? maxRequests).
  - unfold draw, ret, logger.error, logger.write.
    repeat step; by eexists _, _, _.
  - destruct (redis.zrange key 0 0 w2) as [[l|e] w3] eqn:E3; [|by eexists _, _, _].
    apply zremrangebyscore_ok in E1 as (z & Hz0 & Hz1 & _).
    apply zcard_ok in E2 as [Hz2 _]. rewrite Hz1 in Hz2.
    apply zrange_ok in E3 as (z2 & Hz3 & ->). rewrite Hz2 in Hz3. injection Hz3 as <-.
    rewrite oldest_score. pose proof (by_score_head (surviving (now - windowMs) z)) as Hh.
    destruct (head (by_score (surviving (now - windowMs) z))) as [[m s]|];
      [|by eexists _, _, _].
    destruct Hh as [Hm _]. apply surviving_lookup in Hm as [Hm Hs].
    pose proof (Hstamps z m s Hz0 Hm) as Hle. fold now in Hle.
    cbn [fmap option_fmap option_map snd]. rewrite toString_truthy, parseInt_toString.
    eexists _, _, _. split; [reflexivity|]. split; [reflexivity|].
    split; [apply Hvalid|]; cbn; lia.
Qed.

Lemma checkRateLimit_resetAt_is_later_witness :
  0 < 1000 ∧ valid_time (clock w_full) = true ∧ valid_time (clock w_full + 1000) = true ∧
  (∀ z m s, window_set w_full ("rate_limit:" +:+ "A") = Some z →
            z !! m = Some s → s ≤ clock w_full) ∧
  ∃ r w' t, checkRateLimit "A" 3 1000 w_full = (Ok r, w') ∧
            resetAt r = Date t ∧ valid_time t = true ∧
            clock w_full < t ≤ clock w_full + 1000.
Proof.
  assert (0 < 1000) as H1 by lia.
  assert (valid_time (clock w_full) = true) as H2 by reflexivity.
  assert (valid_time (clock w_full + 1000) = true) as H3 by reflexivity.
  assert (∀ z m s, window_set w_full ("rate_limit:" +:+ "A") = Some z →
            z !! m = Some s → s ≤ clock w_full) as H4.
  { change (clock w_full) with 300.
    change (window_set w_full ("rate_limit:" +:+ "A")) with (Some zset_full).
    intros z m s [= <-]. unfold zset_full. intros H.
    repeat (apply lookup_insert_Some in H as [[_ <-]|[_ H]]; [lia|]).
    by rewrite lookup_empty in H. }
  do 4 (split; [assumption|]).
  exact (checkRateLimit_resetAt_is_later "A" 3 1000 w_full H1 H2 H3 H4).
Defined.

Lemma window_set_later w key z t :
  window_set w key = Some z → clock w ≤ t →
  window_set (set_clock t w) key = Some z ∨ window_set (set_clock t w) key = Some ∅.
Proof.
  intros Hz Ht. destruct (window_set_cases _ _ _ Hz) as [[Hl ->]|[d Hl]].
  - left. unfold window_set, redis.live in *. cbn [db clock set_clock].
    destruct (db w !! key) as [e|]; [|done].
    destruct (redis.expired (clock w) e) eqn:E; [|done].
    replace (redis.expired t e) with true; [done|].
    unfold redis.expired in *. destruct (e_deadline e); [|done]. zbool. symmetry.
    apply Z.leb_le. lia.
  - apply live_Some in Hl as [Hdb _]. unfold window_set, redis.live. cbn [db clock set_clock].
    rewrite Hdb. destruct (redis.expired t _); eauto.
Qed.

(** X14: the meaning of [resetAt].  When the store answers and the purged
    window holds exactly [maxRequests] members, the call is denied with a
    [resetAt] later than now, and a call made at [resetAt] or at any later
    time, nothing else having happened in between, is admitted. *)
Theorem denied_until_resetAt identifier maxRequests windowMs w z :
  let key := "rate_limit:" +:+ identifier in
  let z' := surviving (clock w - windowMs) z in
  quiet w → window_set w key = Some z →
  Z.of_nat (size z') = maxRequests → 1 ≤ maxRequests →
  ∃ w' t, checkRateLimit identifier maxRequests windowMs w =
            (Ok {| allowed := false; remaining := 0; resetAt := Date t; memberId := None |},
             w') ∧
          clock w < t ∧
          ∀ t', t ≤ t' →
            ∃ r2 w2, checkRateLimit identifier maxRequests windowMs (set_clock t' w') =
                       (Ok r2, w2) ∧ allowed r2 = true.
Proof.
  intros key z' Hq Hz Hfull Hmax.
  destruct (checkRateLimit_deny identifier maxRequests windowMs w z Hq Hz)
    as (w' & Hrun & Hz' & Hf); [fold z'; lia|].
  fold key z' in Hrun, Hz'.
  pose proof (by_score_head z') as Hh.
  destruct (head (by_score z')) as [[m s]|].
  2:{ rewrite Hh, map_size_empty in Hfull. lia. }
  destruct Hh as [Hm Hmin]. apply surviving_lookup in Hm as Hm'. destruct Hm' as [_ Hs].
  exists w', (s + windowMs). split; [exact Hrun|]. split; [lia|].
  intros t' Ht'.
  assert (quiet (set_clock t' w')) as Hq' by (by apply Hf).
  assert (∀ zz, zz = z' ∨ zz = ∅ →
            Z.of_nat (size (surviving (t' - windowMs) zz)) < maxRequests) as Hless.
  { intros zz [->| ->].
    - assert (surviving (t' - windowMs) z' ⊆ delete m z') as Hsub.
      { apply map_subseteq_spec. intros m0 s0 H0. apply surviving_lookup in H0 as [H0 Hs0].
        rewrite lookup_delete_Some. split; [|done]. intros <-.
        rewrite Hm in H0. injection H0 as <-. lia. }
      apply map_subseteq_size in Hsub.
      rewrite map_size_delete_Some in Hsub by eauto.
      assert (size z' ≠ 0%nat) by lia. lia.
    - unfold surviving. rewrite map_filter_empty, map_size_empty. lia. }
  destruct Hf as (Hclk & _).
  destruct (window_set_later w' key z' t' Hz') as [Hzz|Hzz]; [lia| |].
  - destruct (checkRateLimit_decision identifier maxRequests windowMs _ _ Hq' Hzz)
      as (r2 & w2 & Hr & Ha & _).
    exists r2, w2. split; [exact Hr|]. rewrite Ha. apply bool_decide_eq_true_2.
    apply Hless. by left.
  - destruct (checkRateLimit_decision identifier maxRequests windowMs _ _ Hq' Hzz)
      as (r2 & w2 & Hr & Ha & _).
    exists r2, w2. split; [exact Hr|]. rewrite Ha. apply bool_decide_eq_true_2.
    apply Hless. by right.
Qed.

Lemma denied_until_resetAt_witness :
  quiet w_full ∧ window_set w_full "rate_limit:A" = Some zset_full ∧
  Z.of_nat (size (surviving (clock w_full - 1000) zset_full)) = 3 ∧ 1 ≤ 3 ∧
  ∃ w' t, checkRateLimit "A" 3 1000 w_full =
            (Ok {| allowed := false; remaining := 0; resetAt := Date t; memberId := None |},
             w') ∧
          clock w_full < t ∧
          ∀ t', t ≤ t' →
            ∃ r2 w2, checkRateLimit "A" 3 1000 (set_clock t' w') = (Ok r2, w2) ∧
                     allowed r2 = true.
Proof.
  assert (quiet w_full) as H1 by constructor.
  assert (window_set w_full "rate_limit:A" = Some zset_full) as H2 by reflexivity.
  assert (Z.of_nat (size (surviving (clock w_full - 1000) zset_full)) = 3) as H3
    by (vm_compute; reflexivity).
  assert (1 ≤ 3) as H4 by lia.
  do 4 (split; [assumption|]).
  exact (denied_until_resetAt "A" 3 1000 w_full zset_full H1 H2 H3 H4).
Defined.

(** ** Isolation of the rate limit keys *)

Ltac touches_only :=
  let H := fresh "H" in
  intros [d c f e n se lg hs vs] o w' H k Hk;
  unfold redis.command, redis.raise, redis.put_zset in H; cbn in H;
  repeat match type of H with
         | context [match ?x with _ => _ end] => destruct x; cbn in H
         end;
  injection H as <- <-; cbn;
  rewrite ?lookup_delete_ne, ?lookup_insert_ne by done; reflexivity.

Lemma zremrangebyscore_touches key lo hi : touches_only key (redis.zremrangebyscore key lo hi).
Proof. unfold redis.zremrangebyscore. touches_only. Qed.
Lemma zcard_touches key : touches_only key (redis.zcard key).
Proof. unfold redis.zcard. touches_only. Qed.
Lemma zadd_touches key s m : touches_only key (redis.zadd key s m).
Proof. unfold redis.zadd. touches_only. Qed.
Lemma expire_touches key s : touches_only key (redis.expire key s).
Proof. unfold redis.expire. touches_only. Qed.
Lemma zrange_touches key a b : touches_only key (redis.zrange key a b).
Proof. unfold redis.zrange. touches_only. Qed.

Lemma checkRateLimit_touches identifier maxRequests windowMs :
  touches_only ("rate_limit:" +:+ identifier) (checkRateLimit identifier maxRequests windowMs).
Proof.
  intros w o w' H k Hk. revert H.
  unfold checkRateLimit, bind, try_catch, Date_now, ret, logger.error, logger.write, draw.
  repeat step; intros [= <- <-];
    repeat match goal with
    | H : redis.zremrangebyscore _ _ _ _ = _ |- _ =>
        apply zremrangebyscore_touches in H; specialize (H k Hk)
    | H : redis.zcard _ _ = _ |- _ => apply zcard_touches in H; specialize (H k Hk)
    | H : redis.zadd _ _ _ _ = _ |- _ => apply zadd_touches in H; specialize (H k Hk)
    | H : redis.expire _ _ _ = _ |- _ => apply expire_touches in H; specialize (H k Hk)
    | H : redis.zrange _ _ _ _ = _ |- _ => apply zrange_touches in H; specialize (H k Hk)
    end; cbn in *; congruence.
Qed.

(** X15: a call of [checkRateLimit] for one identifier, whatever its
    outcome and whichever commands fail, leaves every other key of the store
    as it was: the windows of the other identifiers and the cached values. *)
Theorem checkRateLimit_touches_one_key identifier maxRequests windowMs w :
  ∃ r w', checkRateLimit identifier maxRequests windowMs w = (r, w') ∧
          (∀ k, k ≠ "rate_limit:" +:+ identifier → db w' !! k = db w !! k) ∧
          ∀ other, other ≠ identifier →
                   db w' !! ("rate_limit:" +:+ other) = db w !! ("rate_limit:" +:+ other).
Proof.
  destruct (checkRateLimit identifier maxRequests windowMs w) as [r w'] eqn:E.
  exists r, w'. split; [done|].
  pose proof (checkRateLimit_touches identifier maxRequests windowMs w r w' E) as H.
  split; [exact H|]. intros other Ho. apply H. intros Heq. by apply append_inj_l in Heq.
Qed.

Lemma ceil_div_bounds a : a ≤ ceil_div a 1000 * 1000 < a + 1000.
Proof.
  unfold ceil_div. pose proof (Z.div_mod (- a) 1000 ltac:(lia)) as H.
  pose proof (Z.mod_pos_bound (- a) 1000 ltac:(lia)). lia.
Qed.

(** X16: the expiry of the window key.  An admitted call at time [now]
    leaves the key with a deadline that lies between one and two seconds
    after the end of the window: the key, with the admission in it, is
    there at every time before the deadline, and when no further call
    refreshes it the key is gone from the deadline on. *)
Theorem window_key_outlives_window identifier maxRequests windowMs w z :
  let key := "rate_limit:" +:+ identifier in
  let now := clock w in
  let z' := surviving (now - windowMs) z in
  let mid := toString now +:+ "-" +:+ hd EmptyString (entropy w) in
  let deadline := now + (ceil_div windowMs 1000 + 1) * 1000 in
  quiet w → window_set w key = Some z →
  Z.of_nat (size z') < maxRequests → 0 < windowMs →
  ∃ r w', checkRateLimit identifier maxRequests windowMs w = (Ok r, w') ∧
          allowed r = true ∧
          now + windowMs + 1000 ≤ deadline < now + windowMs + 2000 ∧
          (∀ t, t < deadline → window_set (set_clock t w') key = Some (<[mid := now]> z')) ∧
          (∀ t, deadline ≤ t → redis.live (set_clock t w') key = None).
Proof.
  intros key now z' mid deadline Hq Hz Hlt Hw.
  destruct (checkRateLimit_admit identifier maxRequests windowMs w z Hq Hz Hlt Hw)
    as (w' & Hrun & Hdb & _).
  fold key now z' mid deadline in Hrun, Hdb.
  eexists _, w'. split; [exact Hrun|]. split; [done|]. split.
  { pose proof (ceil_div_bounds windowMs). subst deadline. lia. }
  split; intros t Ht.
  - unfold window_set, redis.live. cbn [db clock set_clock]. rewrite Hdb.
    unfold redis.expired; cbn [e_deadline].
    by rewrite (proj2 (Z.leb_gt _ _)) by done.
  - unfold redis.live. cbn [db clock set_clock]. rewrite Hdb.
    unfold redis.expired; cbn [e_deadline].
    by rewrite (proj2 (Z.leb_le _ _)) by done.
Qed.

Lemma window_key_outlives_window_witness :
  quiet w_empty ∧ window_set w_empty "rate_limit:A" = Some ∅ ∧
  Z.of_nat (size (surviving (clock w_empty - 1500) (∅ : gmap string Z))) < 3 ∧ 0 < 1500 ∧
  ∃ r w', checkRateLimit "A" 3 1500 w_empty = (Ok r, w') ∧
          allowed r = true ∧
          clock w_empty + 1500 + 1000 ≤ clock w_empty + (ceil_div 1500 1000 + 1) * 1000
            < clock w_empty + 1500 + 2000 ∧
          (∀ t, t < clock w_empty + (ceil_div 1500 1000 + 1) * 1000 →
                window_set (set_clock t w') "rate_limit:A" =
                Some (<[toString (clock w_empty) +:+ "-" +:+ hd EmptyString (entropy w_empty)
                        := clock w_empty]> (surviving (clock w_empty - 1500) ∅))) ∧
          (∀ t, clock w_empty + (ceil_div 1500 1000 + 1) * 1000 ≤ t →
                redis.live (set_clock t w') "rate_limit:A" = None).
Proof.
  assert (quiet w_empty) as H1 by constructor.
  assert (window_set w_empty "rate_limit:A" = Some ∅) as H2 by reflexivity.
  assert (Z.of_nat (size (surviving (clock w_empty - 1500) (∅ : gmap string Z))) < 3) as H3
    by (vm_compute; reflexivity).
  assert (0 < 1500) as H4 by lia.
  do 4 (split; [assumption|]).
  exact (window_key_outlives_window "A" 3 1500 w_empty ∅ H1 H2 H3 H4).
Defined.

(** ** The middleware on its other paths *)

(** X17: a client on the whitelist bypasses the limiter: the middleware
    issues no store command, sets no header and uses no quota; its outcome
    is the outcome of the downstream pipeline, run once. *)
Theorem whitelisted_client_bypasses cfg c next w :
  whitelisted cfg c = true → rateLimiter cfg c next w = next w.
Proof.
  intros Hwl. unfold rateLimiter, bind, try_catch.
  change (match whitelist cfg with
          | Some ips => bool_decide (getClientIp c ∈ ips)
          | None => false
          end) with (whitelisted cfg c). by rewrite Hwl.
Qed.

Lemma seconds_until_later s now : now < s → ∃ n, seconds_until (Date s) now = Some n ∧ 1 ≤ n.
Proof.
  intros H. unfold seconds_until. cbn. eexists. split; [reflexivity|].
  pose proof (ceil_div_pos (s - now) ltac:(lia)). lia.
Qed.

Ltac keeps_context :=
  let H := fresh "H" in
  intros [d c f e n se lg hs vs] o w' H;
  unfold redis.command, redis.raise, redis.put_zset in H; cbn in H;
  repeat match type of H with
         | context [match ?x with _ => _ end] => destruct x; cbn in H
         end;
  injection H as <- <-; cbn; auto.

Lemma zremrangebyscore_context key lo hi : keeps_context (redis.zremrangebyscore key lo hi).
Proof. unfold redis.zremrangebyscore. keeps_context. Qed.
Lemma zcard_context key : keeps_context (redis.zcard key).
Proof. unfold redis.zcard. keeps_context. Qed.
Lemma zadd_context key s m : keeps_context (redis.zadd key s m).
Proof. unfold redis.zadd. keeps_context. Qed.
Lemma expire_context key s : keeps_context (redis.expire key s).
Proof. unfold redis.expire. keeps_context. Qed.
Lemma zrange_context key a b : keeps_context (redis.zrange key a b).
Proof. unfold redis.zrange. keeps_context. Qed.

Lemma checkRateLimit_context identifier maxRequests windowMs :
  keeps_context (checkRateLimit identifier maxRequests windowMs).
Proof.
  intros w o w'.
  unfold checkRateLimit, bind, try_catch, Date_now, ret, logger.error, logger.write, draw.
  repeat step; intros [= <- <-];
    repeat match goal with
    | H : redis.zremrangebyscore _ _ _ _ = _ |- _ =>
        apply zremrangebyscore_context in H as (? & ? & ?)
    | H : redis.zcard _ _ = _ |- _ => apply zcard_context in H as (? & ? & ?)
    | H : redis.zadd _ _ _ _ = _ |- _ => apply zadd_context in H as (? & ? & ?)
    | H : redis.expire _ _ _ = _ |- _ => apply expire_context in H as (? & ? & ?)
    | H : redis.zrange _ _ _ _ = _ |- _ => apply zrange_context in H as (? & ? & ?)
    end; cbn in *; repeat split; congruence.
Qed.

(** X18: a request that finds its window full is answered by the middleware
    itself: status 429 and a body that names the error, the configured
    message (or the default one) and the number of seconds to wait; the
    headers [Retry-After] and [X-RateLimit-Reset] carry that same number,
    [X-RateLimit-Remaining] is 0 and [X-RateLimit-Limit] the quota.  The
    downstream pipeline is not run and no admission is recorded. *)
Theorem rateLimiter_denies_with_429 cfg c w z :
  let identifier := keyGenerator cfg c in
  let key := "rate_limit:" +:+ identifier in
  let z' := surviving (clock w - windowMs cfg) z in
  let text := match message cfg with
              | Some m => if truthy m then m
                          else "Rate limit exceeded. Please try again later."
              | None => "Rate limit exceeded. Please try again later."
              end in
  whitelisted cfg c = false → handler cfg = None → standardHeaders cfg = true →
  quiet w → window_set w key = Some z →
  maxRequests cfg ≤ Z.of_nat (size z') →
  ∃ resetTime w',
    (∀ next, rateLimiter cfg c next w =
       (Ok (AResponse (Response 429 (JObj [("error", JStr "Too Many Requests");
                                            ("message", JStr text);
                                            ("retryAfter", num_val resetTime)]))), w')) ∧
    res_headers w' =
      ("Retry-After", num_toString resetTime) ::
      ("X-RateLimit-Reset", num_toString resetTime) ::
      ("X-RateLimit-Remaining", "0") ::
      ("X-RateLimit-Limit", toString (maxRequests cfg)) :: res_headers w ∧
    window_set w' key = Some z'.
Proof.
  intros identifier key z' text Hwl Hh Hstd Hq Hz Hfull.
  destruct (checkRateLimit_deny identifier (maxRequests cfg) (windowMs cfg) w z Hq Hz)
    as (w1 & Hcheck & Hz1 & Hf1); [by fold z'|].
  fold key z' in Hcheck, Hz1.
  destruct Hf1 as (Hclk1 & _ & _ & _).
  apply checkRateLimit_context in Hcheck as Hctx. destruct Hctx as (Hres1 & _ & _).
  eexists. eexists. split; [|split].
  - intros next. unfold rateLimiter. unfold bind at 1. unfold try_catch.
    change (match whitelist cfg with
            | Some ips => bool_decide (getClientIp c ∈ ips)
            | None => false
            end) with (whitelisted cfg c). rewrite Hwl.
    fold identifier. rewrite (bind_ok _ _ _ _ _ Hcheck). cbv beta.
    rewrite (bind_ok _ _ _ _ _ (draw_spec w1)). cbv beta.
    unfold Date_now, c_set, c_header, when, bind, ret.
    cbn [memberId allowed negb resetAt clock set_entropy set_vars set_res_headers].
    rewrite Hstd, Hh. reflexivity.
  - cbn. by rewrite Hres1.
  - exact Hz1.
Qed.

Lemma whitelisted_client_bypasses_witness :
  whitelisted cfg_whitelist req_sample = true ∧
  rateLimiter cfg_whitelist req_sample next_ok w_empty = next_ok w_empty.
Proof.
  assert (whitelisted cfg_whitelist req_sample = true) as H by (vm_compute; reflexivity).
  split; [exact H|].
  exact (whitelisted_client_bypasses cfg_whitelist req_sample next_ok w_empty H).
Defined.

Lemma rateLimiter_denies_with_429_witness :
  whitelisted cfg_A req_sample = false ∧ handler cfg_A = None ∧
  standardHeaders cfg_A = true ∧ quiet w_full ∧
  window_set w_full "rate_limit:A" = Some zset_full ∧
  maxRequests cfg_A ≤ Z.of_nat (size (surviving (clock w_full - windowMs cfg_A) zset_full)) ∧
  ∃ resetTime w',
    (∀ next, rateLimiter cfg_A req_sample next w_full =
       (Ok (AResponse
              (Response 429
                 (JObj [("error", JStr "Too Many Requests");
                        ("message", JStr "Rate limit exceeded. Please try again later.");
                        ("retryAfter", num_val resetTime)]))), w')) ∧
    res_headers w' =
      ("Retry-After", num_toString resetTime) ::
      ("X-RateLimit-Reset", num_toString resetTime) ::
      ("X-RateLimit-Remaining", "0") ::
      ("X-RateLimit-Limit", toString (maxRequests cfg_A)) :: res_headers w_full ∧
    window_set w' "rate_limit:A" = Some (surviving (clock w_full - windowMs cfg_A) zset_full).
Proof.
  assert (whitelisted cfg_A req_sample = false) as H1 by reflexivity.
  assert (handler cfg_A = None) as H2 by reflexivity.
  assert (standardHeaders cfg_A = true) as H3 by reflexivity.
  assert (quiet w_full) as H4 by constructor.
  assert (window_set w_full "rate_limit:A" = Some zset_full) as H5 by reflexivity.
  assert (maxRequests cfg_A ≤
          Z.of_nat (size (surviving (clock w_full - windowMs cfg_A) zset_full))) as H7
    by (vm_compute; discriminate).
  do 6 (split; [assumption|]).
  exact (rateLimiter_denies_with_429 cfg_A req_sample w_full zset_full H1 H2 H3 H4 H5 H7).
Defined.

(** X28: a custom handler answers in place of the middleware.  When a
    request finds its window full and a handler is configured, the headers
    are set as without one and the handler is called on the request: its
    response is the response of the middleware.  The downstream pipeline is
    not run and no admission is recorded. *)
Theorem rateLimiter_denies_with_handler cfg c h w z :
  let identifier := keyGenerator cfg c in
  let key := "rate_limit:" +:+ identifier in
  let z' := surviving (clock w - windowMs cfg) z in
  whitelisted cfg c = false → handler cfg = Some h → standardHeaders cfg = true →
  quiet w → window_set w key = Some z →
  maxRequests cfg ≤ Z.of_nat (size z') →
  ∃ resetTime w1,
    res_headers w1 =
      ("Retry-After", num_toString resetTime) ::
      ("X-RateLimit-Reset", num_toString resetTime) ::
      ("X-RateLimit-Remaining", "0") ::
      ("X-RateLimit-Limit", toString (maxRequests cfg)) :: res_headers w ∧
    window_set w1 key = Some z' ∧
    ∀ next r w2, h c w1 = (Ok r, w2) → rateLimiter cfg c next w = (Ok (AResponse r), w2).
Proof.
  intros identifier key z' Hwl Hh Hstd Hq Hz Hfull.
  destruct (checkRateLimit_deny identifier (maxRequests cfg) (windowMs cfg) w z Hq Hz)
    as (w1 & Hcheck & Hz1 & Hf1); [by fold z'|].
  fold key z' in Hcheck, Hz1.
  apply checkRateLimit_context in Hcheck as Hctx. destruct Hctx as (Hres1 & _ & _).
  eexists. eexists. split; [|split]; cycle 2.
  - intros next r w2 Hrun. unfold rateLimiter. unfold bind at 1. unfold try_catch.
    change (match whitelist cfg with
            | Some ips => bool_decide (getClientIp c ∈ ips)
            | None => false
            end) with (whitelisted cfg c). rewrite Hwl.
    fold identifier. rewrite (bind_ok _ _ _ _ _ Hcheck). cbv beta.
    rewrite (bind_ok _ _ _ _ _ (draw_spec w1)). cbv beta.
    unfold Date_now, c_set, c_header, when, bind, ret.
    cbn [memberId allowed negb resetAt clock set_entropy set_vars set_res_headers].
    rewrite Hstd, Hh. cbv beta iota. rewrite Hrun. reflexivity.
  - cbn. by rewrite Hres1.
  - exact Hz1.
Qed.

Lemma rateLimiter_denies_with_handler_witness :
  whitelisted cfg_handler req_sample = false ∧ handler cfg_handler = Some teapot ∧
  standardHeaders cfg_handler = true ∧ quiet w_full ∧
  window_set w_full "rate_limit:A" = Some zset_full ∧
  maxRequests cfg_handler ≤
    Z.of_nat (size (surviving (clock w_full - windowMs cfg_handler) zset_full)) ∧
  ∃ resetTime w1,
    res_headers w1 =
      ("Retry-After", num_toString resetTime) ::
      ("X-RateLimit-Reset", num_toString resetTime) ::
      ("X-RateLimit-Remaining", "0") ::
      ("X-RateLimit-Limit", toString (maxRequests cfg_handler)) :: res_headers w_full ∧
    window_set w1 "rate_limit:A" =
      Some (surviving (clock w_full - windowMs cfg_handler) zset_full) ∧
    ∀ next r w2, teapot req_sample w1 = (Ok r, w2) →
                 rateLimiter cfg_handler req_sample next w_full = (Ok (AResponse r), w2).
Proof.
  assert (whitelisted cfg_handler req_sample = false) as H1 by reflexivity.
  assert (handler cfg_handler = Some teapot) as H2 by reflexivity.
  assert (standardHeaders cfg_handler = true) as H3 by reflexivity.
  assert (quiet w_full) as H4 by constructor.
  assert (window_set w_full "rate_limit:A" = Some zset_full) as H5 by reflexivity.
  assert (maxRequests cfg_handler ≤
          Z.of_nat (size (surviving (clock w_full - windowMs cfg_handler) zset_full))) as H6
    by (vm_compute; discriminate).
  do 6 (split; [assumption|]).
  exact (rateLimiter_denies_with_handler cfg_handler req_sample teapot w_full zset_full
           H1 H2 H3 H4 H5 H6).
Defined.



(** ** The catch block of the middleware *)

Lemma put_zset_frame key z d w :
  faults (redis.put_zset key z d w) = faults w ∧ clock (redis.put_zset key z d w) = clock w ∧
  entropy (redis.put_zset key z d w) = entropy w ∧
  res_headers (redis.put_zset key z d w) = res_headers w ∧
  vars (redis.put_zset key z d w) = vars w ∧
  store_errors (redis.put_zset key z d w) = store_errors w ∧
  ∀ k, k ≠ key → db (redis.put_zset key z d w) !! k = db w !! k.
Proof.
  unfold redis.put_zset. case_decide; cbn; repeat split; try done; intros k Hk.
  - by rewrite lookup_delete_ne.
  - by rewrite lookup_insert_ne.
Qed.

(** The admitting path of [checkRateLimit] when its four commands answer,
    whatever the fault schedule holds for the commands after them. *)
Lemma checkRateLimit_admit_then identifier maxRequests windowMs w z fs :
  let key := "rate_limit:" +:+ identifier in
  let now := clock w in
  let z' := surviving (now - windowMs) z in
  let mid := toString now +:+ "-" +:+ hd EmptyString (entropy w) in
  faults w = false :: false :: false :: false :: fs → window_set w key = Some z →
  Z.of_nat (size z') < maxRequests → 0 < windowMs →
  ∃ w', checkRateLimit identifier maxRequests windowMs w =
          (Ok {| allowed := true; remaining := maxRequests - Z.of_nat (size z') - 1;
                 resetAt := Date (now + windowMs); memberId := Some mid |}, w') ∧
        db w' !! key = Some (Entry (PZSet (<[mid := now]> z'))
                                   (Some (now + (ceil_div windowMs 1000 + 1) * 1000))) ∧
        clock w' = now ∧ entropy w' = tail (entropy w) ∧ faults w' = fs ∧
        store_errors w' = store_errors w ∧
        ∀ k, k ≠ key → db w' !! k = db w !! k.
Proof.
  intros key now z' mid Hf Hz Hlt Hwin.
  unfold checkRateLimit, bind, try_catch, Date_now. fold key. fold now.
  (* the purge *)
  unfold redis.zremrangebyscore at 1. rewrite (command_false _ w _ Hf).
  change (redis.live (set_faults _ w) key) with (redis.live w key).
  assert (∃ w1, (match redis.live w key with
                 | Some {| e_val := PStr _ |} =>
                     redis.raise (ReplyError redis.wrongtype)
                       (set_faults (false :: false :: false :: fs) w)
                 | Some {| e_val := PZSet z0; e_deadline := d |} =>
                     (Ok (Z.of_nat (size z0 - size (filter
                            (λ ms : string * Z, in_range NegInf (Score (now - windowMs)) ms.2 = false)
                            z0))),
                      redis.put_zset key
                        (filter (λ ms : string * Z,
                                   in_range NegInf (Score (now - windowMs)) ms.2 = false) z0)
                        d (set_faults (false :: false :: false :: fs) w))
                 | None => (Ok 0, set_faults (false :: false :: false :: fs) w)
                 end) = (Ok (Z.of_nat (size z - size z')), w1) ∧
                window_set w1 key = Some z' ∧ faults w1 = false :: false :: false :: fs ∧
                clock w1 = now ∧ entropy w1 = entropy w ∧ store_errors w1 = store_errors w ∧
                ∀ k, k ≠ key → db w1 !! k = db w !! k)
    as (w1 & -> & Hz1 & Hf1 & Hclk1 & Hent1 & Herr1 & Hdb1).
  { destruct (window_set_cases _ _ _ Hz) as [[Hl ->]|[d Hl]]; rewrite Hl.
    - eexists; split; [reflexivity|]. by repeat split.
    - apply live_Some in Hl as [Hdb Hexp].
      set (w0 := set_faults (false :: false :: false :: fs) w).
      destruct (put_zset_spec key z' d w0) as (Hw & _); [done|].
      destruct (put_zset_frame key z' d w0) as (H1 & H2 & H3 & _ & _ & H6 & H7).
      eexists; split; [reflexivity|]. by repeat split. }
  (* the count *)
  unfold redis.zcard at 1. rewrite (command_false _ w1 _ Hf1).
  change (redis.live (set_faults _ w1) key) with (redis.live w1 key).
  assert ((match redis.live w1 key with
           | Some {| e_val := PStr _ |} =>
               redis.raise (ReplyError redis.wrongtype) (set_faults (false :: false :: fs) w1)
           | Some {| e_val := PZSet z0 |} =>
               (Ok (Z.of_nat (size z0)), set_faults (false :: false :: fs) w1)
           | None => (Ok 0, set_faults (false :: false :: fs) w1)
           end) = (Ok (Z.of_nat (size z')), set_faults (false :: false :: fs) w1)) as ->.
  { destruct (window_set_cases _ _ _ Hz1) as [[Hl Hempty]|[d Hl]]; rewrite Hl; [|done].
    by rewrite Hempty, map_size_empty. }
  apply Z.ltb_lt in Hlt as Hlt'. rewrite Hlt'. rewrite draw_spec.
  set (w2 := set_entropy _ (set_faults (false :: false :: fs) w1)).
  assert (faults w2 = false :: false :: fs) as Hf2 by reflexivity.
  change (entropy (set_faults (false :: false :: fs) w1)) with (entropy w1). rewrite Hent1.
  fold mid.
  (* the admission *)
  unfold redis.zadd at 1. rewrite (command_false _ w2 _ Hf2).
  change (redis.live (set_faults _ w2) key) with (redis.live w1 key).
  set (w3 := set_faults (false :: fs) w2).
  assert (∃ n w4 d, (match redis.live w1 key with
                     | Some {| e_val := PStr _ |} => redis.raise (ReplyError redis.wrongtype) w3
                     | Some {| e_val := PZSet z0; e_deadline := dl |} =>
                         (Ok match z0 !! mid with Some _ => 0 | None => 1 end,
                          set_db (<[key := Entry (PZSet (<[mid := now]> z0)) dl]> (db w3)) w3)
                     | None =>
                         (Ok 1, set_db (<[key := Entry (PZSet {[mid := now]}) None]> (db w3)) w3)
                     end) = (Ok n, w4) ∧
                    db w4 !! key = Some (Entry (PZSet (<[mid := now]> z')) d) ∧
                    redis.expired now (Entry (PZSet (<[mid := now]> z')) d) = false ∧
                    faults w4 = false :: fs ∧ clock w4 = now ∧
                    entropy w4 = tail (entropy w) ∧ store_errors w4 = store_errors w ∧
                    ∀ k, k ≠ key → db w4 !! k = db w !! k)
    as (n4 & w4 & d4 & -> & Hdb4 & Hexp4 & Hf4 & Hclk4 & Hent4 & Herr4 & Hoth4).
  { destruct (window_set_cases _ _ _ Hz1) as [[Hl Hempty]|[d Hl]]; rewrite Hl.
    - eexists _, _, None. split; [reflexivity|].
      unfold set_db; cbn [db clock entropy faults store_errors].
      rewrite lookup_insert_eq, Hempty, insert_empty. repeat split; try done.
      + cbn. by rewrite Hent1.
      + intros k Hk. rewrite lookup_insert_ne by done. by apply Hdb1.
    - apply live_Some in Hl as [Hdb Hexp]. rewrite Hclk1 in Hexp.
      eexists _, _, d. split; [reflexivity|].
      unfold set_db; cbn [db clock entropy faults store_errors].
      rewrite lookup_insert_eq. repeat split; try done.
      + cbn. by rewrite Hent1.
      + intros k Hk. rewrite lookup_insert_ne by done. by apply Hdb1. }
  cbv beta.
  (* the expiry *)
  unfold redis.expire at 1. rewrite (command_false _ w4 _ Hf4).
  change (redis.live (set_faults fs w4) key) with (redis.live w4 key).
  rewrite (live_lookup w4 key _ Hdb4) by (by rewrite Hclk4).
  assert (0 < ceil_div windowMs 1000 + 1) as Hsec by (pose proof (ceil_div_pos _ Hwin); lia).
  destruct (ceil_div windowMs 1000 + 1 <=? 0) eqn:E; [zbool; lia|].
  cbv beta. unfold ret.
  eexists. split; [reflexivity|].
  unfold set_db; cbn [db clock entropy faults store_errors set_faults].
  rewrite lookup_insert_eq, Hclk4. repeat split; try done.
  intros k Hk. rewrite lookup_insert_ne by done. by apply Hoth4.
Qed.

(** X20: the middleware's own fail-open path.  A request is admitted, a
    skip option is on, and the store fails on the command that stores the
    Rollback Record: the failure is logged as a rate limiter error and the
    request is handed to [next()], called once, whose outcome is the outcome
    of the middleware.  No rate-limit header has been set, the request id
    is on the context, the admission stays in the window set, and there is
    no Rollback Record for it. *)
Theorem rateLimiter_fails_open_without_record cfg c next w z fs :
  let identifier := keyGenerator cfg c in
  let key := "rate_limit:" +:+ identifier in
  let now := clock w in
  let z' := surviving (now - windowMs cfg) z in
  let mid := toString now +:+ "-" +:+ hd EmptyString (entropy w) in
  let requestId := hd EmptyString (tail (entropy w)) in
  whitelisted cfg c = false →
  skipSuccessfulRequests cfg || skipFailedRequests cfg = true →
  faults w = false :: false :: false :: false :: true :: fs →
  window_set w key = Some z →
  Z.of_nat (size z') < maxRequests cfg → 0 < windowMs cfg →
  ∃ w1 deadline,
    rateLimiter cfg c next w = next w1 ∧
    head (logged w1) = Some (Error, "Rate limiter error") ∧
    store_errors w1 = S (store_errors w) ∧
    res_headers w1 = res_headers w ∧
    vars w1 = ("rateLimitRequestId", requestId) :: vars w ∧
    db w1 !! key = Some (Entry (PZSet (<[mid := now]> z')) (Some deadline)) ∧
    now + windowMs cfg < deadline ∧
    db w1 !! request_key requestId = db w !! request_key requestId.
Proof.
  intros identifier key now z' mid requestId Hwl Hskip Hf Hz Hroom Hwin.
  destruct (checkRateLimit_admit_then identifier (maxRequests cfg) (windowMs cfg) w z
              (true :: fs) Hf Hz Hroom Hwin)
    as (w1 & Hcheck & Hdb1 & Hclk1 & Hent1 & Hf1 & Herr1 & Hoth1).
  fold key now z' mid in Hcheck, Hdb1.
  apply checkRateLimit_context in Hcheck as Hctx. destruct Hctx as (Hres1 & Hvars1 & _).
  assert (truthy mid = true) as Hmid by apply truthy_app, toString_truthy.
  eexists _, _. split; [|split; [|split; [|split; [|split; [|split; [|split]]]]]]; cycle 1.
  8:{ unfold rateLimiter. unfold bind at 1. unfold try_catch.
      change (match whitelist cfg with
              | Some ips => bool_decide (getClientIp c ∈ ips)
              | None => false
              end) with (whitelisted cfg c). rewrite Hwl.
      fold identifier. rewrite (bind_ok _ _ _ _ _ Hcheck). cbv beta.
      rewrite (bind_ok _ _ _ _ _ (draw_spec w1)). cbv beta.
      unfold Date_now at 1. unfold bind at 1. unfold c_set, bind at 1.
      cbn [memberId allowed negb remaining resetAt].
      rewrite Hskip, Hmid. cbn [andb].
      match goal with |- context [setWithExpiry ?k ?v 60] =>
        assert (∀ w0, faults w0 = true :: fs →
                  setWithExpiry k v 60 w0 =
                  (Throw ConnectionError,
                   set_logged ((Error, "Redis setWithExpiry error for key " +:+ k) :: logged w0)
                     (set_store_errors (S (store_errors w0)) (set_faults fs w0)))) as Hset
      end.
      { intros w0 Hf0. unfold setWithExpiry, try_catch, redis.setex.
        by rewrite (command_true _ w0 fs Hf0). }
      unfold bind. rewrite Hset by exact Hf1.
      unfold logger.error, logger.write, ret. reflexivity. }
  - reflexivity.
  - cbn. by rewrite Herr1.
  - cbn. exact Hres1.
  - cbn. rewrite Hent1, Hvars1. reflexivity.
  - cbn. exact Hdb1.
  - pose proof (ceil_div_pos _ Hwin). lia.
  - cbn. apply Hoth1. apply keys_differ.
Qed.

Lemma rateLimiter_fails_open_without_record_witness :
  whitelisted cfg_skip req_sample = false ∧
  skipSuccessfulRequests cfg_skip || skipFailedRequests cfg_skip = true ∧
  faults w_record_fails = false :: false :: false :: false :: true :: [] ∧
  window_set w_record_fails ("rate_limit:" +:+ keyGenerator cfg_skip req_sample) = Some ∅ ∧
  Z.of_nat (size (surviving (clock w_record_fails - windowMs cfg_skip) (∅ : gmap string Z)))
    < maxRequests cfg_skip ∧
  0 < windowMs cfg_skip ∧
  ∃ w1 deadline,
    rateLimiter cfg_skip req_sample next_ok w_record_fails = next_ok w1 ∧
    head (logged w1) = Some (Error, "Rate limiter error") ∧
    store_errors w1 = S (store_errors w_record_fails) ∧
    res_headers w1 = res_headers w_record_fails ∧
    vars w1 = ("rateLimitRequestId", hd EmptyString (tail (entropy w_record_fails)))
              :: vars w_record_fails ∧
    db w1 !! ("rate_limit:" +:+ keyGenerator cfg_skip req_sample) =
      Some (Entry (PZSet (<[toString (clock w_record_fails) +:+ "-" +:+
                             hd EmptyString (entropy w_record_fails)
                            := clock w_record_fails]>
                            (surviving (clock w_record_fails - windowMs cfg_skip) ∅)))
                  (Some deadline)) ∧
    clock w_record_fails + windowMs cfg_skip < deadline ∧
    db w1 !! request_key (hd EmptyString (tail (entropy w_record_fails))) =
      db w_record_fails !! request_key (hd EmptyString (tail (entropy w_record_fails))).
Proof.
  assert (whitelisted cfg_skip req_sample = false) as H1 by reflexivity.
  assert (skipSuccessfulRequests cfg_skip || skipFailedRequests cfg_skip = true) as H2
    by reflexivity.
  assert (faults w_record_fails = false :: false :: false :: false :: true :: []) as H3
    by reflexivity.
  assert (window_set w_record_fails ("rate_limit:" +:+ keyGenerator cfg_skip req_sample)
          = Some ∅) as H4 by reflexivity.
  assert (Z.of_nat (size (surviving (clock w_record_fails - windowMs cfg_skip)
                            (∅ : gmap string Z))) < maxRequests cfg_skip) as H5
    by (vm_compute; reflexivity).
  assert (0 < windowMs cfg_skip) as H6 by (simpl; lia).
  do 6 (split; [assumption|]).
  exact (rateLimiter_fails_open_without_record cfg_skip req_sample next_ok w_record_fails ∅ []
           H1 H2 H3 H4 H5 H6).
Defined.

Section Downstream.
Variables (cfg : RateLimitConfig) (c : request).
Variables (w : world) (z : gmap string Z).
Let identifier := keyGenerator cfg c.
Let key := "rate_limit:" +:+ identifier.
Let now := clock w.
Let z' := surviving (now - windowMs cfg) z.
Let mid := toString now +:+ "-" +:+ hd EmptyString (entropy w).
Let requestId := hd EmptyString (tail (entropy w)).
Let admitted : gmap string Z := <[mid := now]> z'.
Let record := JSON.stringify (rollback_record identifier now mid).
Let deadline := now + (ceil_div (windowMs cfg) 1000 + 1) * 1000.

Hypothesis Hwl : whitelisted cfg c = false.
Hypothesis Hq : quiet w.
Hypothesis Hz : window_set w key = Some z.
Hypothesis Hroom : Z.of_nat (size z') < maxRequests cfg.
Hypothesis Hwin : 0 < windowMs cfg.

(** An admitted request reaches the call of [next()] with its admission
    recorded, its Rollback Record stored when a skip option is on, and its
    headers set. *)
Lemma rateLimiter_reaches_downstream :
  ∃ w5, quiet w5 ∧ clock w5 = now ∧ fetched w5 = fetched w ∧
        db w5 !! key = Some (Entry (PZSet admitted) (Some deadline)) ∧
        db w5 !! request_key requestId =
          (if skipSuccessfulRequests cfg || skipFailedRequests cfg
           then Some (Entry (PStr record) (Some (now + 60 * 1000)))
           else db w !! request_key requestId) ∧
        vars w5 = ("rateLimitRequestId", requestId) :: vars w ∧
        res_headers w5 =
          ((if standardHeaders cfg
           then [("X-RateLimit-Reset",
                  num_toString (seconds_until (Date (now + windowMs cfg)) now));
                 ("X-RateLimit-Remaining",
                  toString (maxRequests cfg - Z.of_nat (size z') - 1));
                 ("X-RateLimit-Limit", toString (maxRequests cfg))]
           else []) ++ res_headers w)%list ∧
        ∀ next, rateLimiter cfg c next w = downstream cfg requestId next w5.
Proof.
  destruct (checkRateLimit_admit identifier (maxRequests cfg) (windowMs cfg) w z
              Hq Hz Hroom Hwin) as (w1 & Hcheck & Hdb1 & Hclk1 & Hent1 & Hq1 & Hoth1).
  fold key now z' mid admitted deadline in Hcheck, Hdb1.
  apply checkRateLimit_context in Hcheck as Hctx. destruct Hctx as (Hres1 & Hvars1 & Hfet1).
  assert (truthy mid = true) as Hmid by apply truthy_app, toString_truthy.
  set (w3 := set_vars
               (("rateLimitRequestId", requestId)
                :: vars (set_entropy (tail (tail (entropy w))) w1))
               (set_entropy (tail (tail (entropy w))) w1)).
  assert (quiet w3) as Hq3 by exact Hq1.
  assert (clock w3 = now) as Hclk3 by exact Hclk1.
  assert (∃ w4, (if skipSuccessfulRequests cfg || skipFailedRequests cfg
                 then setWithExpiry (request_key requestId) record 60 ;;; ret tt
                 else ret tt) w3 = (Ok tt, w4) ∧ quiet w4 ∧ clock w4 = now ∧
                fetched w4 = fetched w ∧
                vars w4 = ("rateLimitRequestId", requestId) :: vars w ∧
                res_headers w4 = res_headers w ∧
                db w4 !! key = Some (Entry (PZSet admitted) (Some deadline)) ∧
                db w4 !! request_key requestId =
                  (if skipSuccessfulRequests cfg || skipFailedRequests cfg
                   then Some (Entry (PStr record) (Some (now + 60 * 1000)))
                   else db w !! request_key requestId))
    as (w4 & Hstore & Hq4 & Hclk4 & Hfet4 & Hvars4 & Hres4 & Hdb4 & Hrec4).
  { destruct (skipSuccessfulRequests cfg || skipFailedRequests cfg) eqn:Hskip.
    - rewrite (bind_ok _ _ _ _ _ (setWithExpiry_quiet w3 _ record 60 Hq3 ltac:(lia))).
      eexists; split; [reflexivity|].
      unfold set_db; cbn [db clock entropy fetched vars res_headers].
      rewrite lookup_insert_ne by apply keys_differ. rewrite lookup_insert_eq, Hclk3.
      repeat split; try done; [by apply quiet_tick|cbn; by rewrite Hvars1].
    - exists w3. repeat split; try done; [cbn; by rewrite Hvars1|].
      apply Hoth1. apply keys_differ. }
  assert (∃ w5, (if standardHeaders cfg
                 then c_header "X-RateLimit-Limit" (toString (maxRequests cfg)) ;;;
                      c_header "X-RateLimit-Remaining"
                        (toString (maxRequests cfg - Z.of_nat (size z') - 1)) ;;;
                      let! now0 := Date_now in
                      c_header "X-RateLimit-Reset"
                        (num_toString (seconds_until (Date (now + windowMs cfg)) now0))
                 else ret tt) w4 = (Ok tt, w5) ∧
                db w5 = db w4 ∧ faults w5 = faults w4 ∧ clock w5 = clock w4 ∧
                fetched w5 = fetched w4 ∧ vars w5 = vars w4 ∧
                res_headers w5 =
                  ((if standardHeaders cfg
                   then [("X-RateLimit-Reset",
                          num_toString (seconds_until (Date (now + windowMs cfg)) now));
                         ("X-RateLimit-Remaining",
                          toString (maxRequests cfg - Z.of_nat (size z') - 1));
                         ("X-RateLimit-Limit", toString (maxRequests cfg))]
                   else []) ++ res_headers w4)%list)
    as (w5 & Hhead & Hdb5 & Hf5 & Hclk5 & Hfet5 & Hvars5 & Hres5).
  { destruct (standardHeaders cfg).
    - eexists. split; [reflexivity|]. cbn. by rewrite Hclk4.
    - by exists w4. }
  exists w5. split; [by apply (quiet_faults w4)|]. split; [congruence|].
  split; [congruence|]. split; [by rewrite Hdb5|]. split; [by rewrite Hdb5|].
  split; [congruence|]. split; [by rewrite Hres5, Hres4|].
  intros next. unfold rateLimiter. unfold bind at 1. unfold try_catch.
  change (match whitelist cfg with
          | Some ips => bool_decide (getClientIp c ∈ ips)
          | None => false
          end) with (whitelisted cfg c). rewrite Hwl.
  fold identifier. rewrite (bind_ok _ _ _ _ _ Hcheck). cbv beta.
  rewrite (bind_ok _ _ _ _ _ (draw_spec w1)). cbv beta.
  rewrite Hent1. fold requestId.
  unfold Date_now at 1. unfold bind at 1. unfold c_set, bind at 1.
  cbn [memberId allowed negb remaining resetAt].
  fold w3. cbn [clock set_entropy]. rewrite Hclk1.
  rewrite Hmid, andb_true_r. fold key.
  change (JObj [("identifier", JStr identifier); ("timestamp", JNum now);
                ("memberId", JStr mid); ("key", JStr key)])
    with (rollback_record identifier now mid).
  fold record.
  rewrite (bind_ok _ _ _ _ _ Hstore). cbv beta.
  rewrite (bind_ok _ _ _ _ _ Hhead). cbv beta.
  reflexivity.
Qed.

(** X29: an admitted request, with both skip options off: before the
    downstream pipeline runs, the admission is in the window set, the
    request id is set on the context and, with the standard headers on, the
    headers [X-RateLimit-Limit], [X-RateLimit-Remaining] (the requests left
    after this one) and [X-RateLimit-Reset] are set; the middleware then
    answers whatever [next()] resolves to. *)
Theorem rateLimiter_admits_with_headers :
  skipSuccessfulRequests cfg = false → skipFailedRequests cfg = false →
  standardHeaders cfg = true →
  ∃ w5 reset,
        window_set w5 key = Some admitted ∧
        vars w5 = ("rateLimitRequestId", requestId) :: vars w ∧
        res_headers w5 =
          ("X-RateLimit-Reset", reset) ::
          ("X-RateLimit-Remaining", toString (maxRequests cfg - Z.of_nat (size z') - 1)) ::
          ("X-RateLimit-Limit", toString (maxRequests cfg)) :: res_headers w ∧
        ∀ next answer w6, next w5 = (Ok answer, w6) →
                          rateLimiter cfg c next w = (Ok answer, w6).
Proof.
  intros Hs1 Hs2 Hstd.
  destruct rateLimiter_reaches_downstream
    as (w5 & _ & Hclk & _ & Hadm & _ & Hvars & Hres & Hrun).
  exists w5. eexists. split.
  { apply (window_set_db w5 key admitted deadline Hadm). rewrite Hclk. subst deadline.
    pose proof (ceil_div_pos _ Hwin). lia. }
  split; [exact Hvars|]. split.
  { rewrite Hres, Hstd. reflexivity. }
  intros next answer w6 Hnext. rewrite Hrun. unfold downstream. unfold bind at 1.
  unfold try_catch. rewrite (bind_ok _ _ _ _ _ Hnext). cbv beta.
  unfold skip_matches, bind, ret. rewrite Hs1, Hs2. reflexivity.
Qed.

(** What the middleware does when [next()] resolves to the response
    itself, as its skip logic presumes, and the downstream stages leave the
    window set and the Rollback Record alone: when the skip condition
    matches the response, the admitted member is removed from the window
    set and the Rollback Record is deleted. *)
Lemma rateLimiter_admitted next resp :
  leaves_alone next (AResponse resp) [key; request_key requestId] →
  ∃ w', rateLimiter cfg c next w = (Ok (AResponse resp), w') ∧ quiet w' ∧
        (skipped cfg resp = true → db w' !! request_key requestId = None) ∧
        db w' !! key =
          (let zs := if skipped cfg resp then delete mid admitted else admitted in
           if decide (size zs = 0%nat) then None else Some (Entry (PZSet zs) (Some deadline))).
Proof.
  intros Hnext.
  destruct rateLimiter_reaches_downstream
    as (w5 & Hq5 & Hclk5 & _ & Hdb5 & Hrec5 & _ & _ & Hrun).
  assert (now + windowMs cfg < deadline) as Hdl.
  { subst deadline. pose proof (ceil_div_pos _ Hwin). lia. }
  assert (truthy mid = true) as Hmid by apply truthy_app, toString_truthy.
  rewrite Hrun. unfold downstream. unfold bind at 1. unfold try_catch.
  destruct (Hnext w5) as (w6 & Hnext6 & Hq6 & Hlive6).
  rewrite (bind_ok _ _ _ _ _ Hnext6). cbv beta.
  rewrite (bind_ok _ _ _ _ _ (skip_matches_response cfg resp w6)). cbv beta.
  assert (redis.live w6 key = Some (Entry (PZSet admitted) (Some deadline))) as Hkey6.
  { rewrite Hlive6 by set_solver. apply live_lookup; [done|].
    unfold redis.expired. cbn. rewrite Hclk5. apply Z.leb_gt. lia. }
  destruct (skipped cfg resp) eqn:Hsk; cbn [when].
  - assert (skipSuccessfulRequests cfg || skipFailedRequests cfg = true) as Hon.
    { unfold skipped in Hsk. destruct (skipSuccessfulRequests cfg), (skipFailedRequests cfg);
        try done. }
    rewrite Hon in Hrec5.
    assert (redis.live w6 (request_key requestId) =
              Some (Entry (PStr record) (Some (now + 60 * 1000)))) as Hrec6.
    { rewrite Hlive6 by set_solver. apply live_lookup; [done|].
      unfold redis.expired. cbn. rewrite Hclk5. apply Z.leb_gt. lia. }
    destruct (rollback_quiet w6 requestId identifier now mid _ admitted (Some deadline)
                (Hq6 Hq5) Hmid Hrec6 Hkey6) as (w7 & Hroll & Hq7 & Hrec7 & Hkey7).
    rewrite (bind_ok _ _ _ _ _ Hroll). cbv beta. unfold ret.
    exists w7. repeat split; done.
  - unfold ret, bind. exists w6. split; [done|]. split; [by apply Hq6|]. split; [done|].
    apply live_Some in Hkey6 as [-> _]. cbv zeta. rewrite decide_False; [done|].
    unfold admitted. intros Hsz. apply map_size_empty_inv in Hsz.
    by apply insert_non_empty in Hsz.
Qed.

(** What it does under Hono, where [next()] resolves to the context: the
    skip condition is false whatever the response, so nothing is rolled
    back.  The downstream stages may take any time. *)
Lemma rateLimiter_admitted_hono next res :
  resolves_to next (HonoContext res) [key; request_key requestId] →
  ∃ w', rateLimiter cfg c next w = (Ok (HonoContext res), w') ∧
        db w' !! key = Some (Entry (PZSet admitted) (Some deadline)) ∧
        db w' !! request_key requestId =
          (if skipSuccessfulRequests cfg || skipFailedRequests cfg
           then Some (Entry (PStr record) (Some (now + 60 * 1000)))
           else db w !! request_key requestId).
Proof.
  intros Hnext.
  destruct rateLimiter_reaches_downstream
    as (w5 & _ & _ & _ & Hdb5 & Hrec5 & _ & _ & Hrun).
  rewrite Hrun. unfold downstream. unfold bind at 1. unfold try_catch.
  destruct (Hnext w5) as (w6 & Hnext6 & Hdb6).
  rewrite (bind_ok _ _ _ _ _ Hnext6). cbv beta.
  rewrite (bind_ok _ _ _ _ _ (skip_matches_context cfg res w6)). cbv beta.
  cbn [when]. unfold ret, bind. exists w6. split; [done|].
  rewrite !Hdb6 by set_solver. done.
Qed.
End Downstream.

(** ** The client address *)

Lemma first_ip_skips c pre rest :
  (∀ h, h ∈ pre → header c h = None ∨ header c h = Some EmptyString) →
  first_ip c (pre ++ rest) = first_ip c rest.
Proof.
  induction pre as [|h pre IH]; intros Hpre; [done|]. cbn [app first_ip].
  destruct (Hpre h) as [-> | ->]; [by left| |]; apply IH; intros h' Hh'; apply Hpre; by right.
Qed.

Lemma first_hop_no_comma s : ","%char ∉ chars (first_hop s).
Proof.
  induction s as [|a s IH]; cbn [first_hop chars]; [apply not_elem_of_nil|].
  destruct (Ascii.eqb a ",") eqn:E; cbn [chars]; [apply not_elem_of_nil|].
  apply not_elem_of_cons. split; [|done]. intros <-. by rewrite Ascii.eqb_refl in E.
Qed.

Lemma first_hop_prefix s : ∃ r, s = first_hop s +:+ r ∧ (r = EmptyString ∨ ∃ r', r = String "," r').
Proof.
  induction s as [|a s (r & IH & Hr)]; cbn [first_hop]; [by exists EmptyString; eauto|].
  destruct (Ascii.eqb a ",") eqn:E.
  - apply Ascii.eqb_eq in E as ->. exists (String "," s). rewrite app_nil. eauto.
  - exists r. rewrite app_cons. by rewrite <- IH.
Qed.

(** X21: the address of the client is the value of the first header, in the
    order cf-connecting-ip, x-real-ip, x-forwarded-for, x-client-ip,
    true-client-ip, x-cluster-client-ip, that is present and not empty,
    whatever the later headers say; of x-forwarded-for it is the first hop,
    trimmed. *)
Theorem getClientIp_first_present_header c pre name post v :
  ipHeaders = (pre ++ name :: post)%list →
  (∀ h, h ∈ pre → header c h = None ∨ header c h = Some EmptyString) →
  header c name = Some v → truthy v = true →
  getClientIp c = if String.eqb name "x-forwarded-for" then trim (first_hop v) else v.
Proof.
  intros Hsplit Hpre Hname Hv. unfold getClientIp. rewrite Hsplit.
  rewrite first_ip_skips by done. cbn [first_ip]. rewrite Hname, Hv.
  by destruct (String.eqb name "x-forwarded-for").
Qed.

Lemma getClientIp_first_present_header_witness :
  ipHeaders = (["cf-connecting-ip"] ++ "x-real-ip" :: ["x-forwarded-for"; "x-client-ip";
                "true-client-ip"; "x-cluster-client-ip"])%list ∧
  (∀ h, h ∈ ["cf-connecting-ip"] →
        header req_sample h = None ∨ header req_sample h = Some EmptyString) ∧
  header req_sample "x-real-ip" = Some "1.2.3.4" ∧ truthy "1.2.3.4" = true ∧
  getClientIp req_sample =
    if String.eqb "x-real-ip" "x-forwarded-for" then trim (first_hop "1.2.3.4") else "1.2.3.4".
Proof.
  assert (ipHeaders = (["cf-connecting-ip"] ++ "x-real-ip" :: ["x-forwarded-for"; "x-client-ip";
                "true-client-ip"; "x-cluster-client-ip"])%list) as H1 by reflexivity.
  assert (∀ h, h ∈ ["cf-connecting-ip"] →
            header req_sample h = None ∨ header req_sample h = Some EmptyString) as H2.
  { intros h Hh. apply list_elem_of_singleton in Hh as ->. by left. }
  assert (header req_sample "x-real-ip" = Some "1.2.3.4") as H3 by reflexivity.
  assert (truthy "1.2.3.4" = true) as H4 by reflexivity.
  do 4 (split; [assumption|]).
  exact (getClientIp_first_present_header req_sample _ _ _ _ H1 H2 H3 H4).
Defined.

(** ** The first hop of x-forwarded-for *)

Lemma chars_rev_app s t :
  chars (String.rev_app s t) = (reverse (chars s) ++ chars t)%list.
Proof.
  revert t. induction s as [|a s IH]; intros t; [done|].
  cbn [String.rev_app chars]. rewrite IH, reverse_cons. cbn [chars].
  by rewrite <- app_assoc.
Qed.

Lemma chars_rev s : chars (String.rev s) = reverse (chars s).
Proof. unfold String.rev. rewrite chars_rev_app. cbn [chars]. by rewrite List.app_nil_r. Qed.

Lemma skip_spaces_head s a r : skip_spaces s = String a r → is_space a = false.
Proof.
  induction s as [|b s IH]; [done|]. cbn [skip_spaces].
  destruct (is_space b) eqn:E; [done|]. by intros [= <- _].
Qed.

Lemma skip_spaces_suffix s :
  ∃ pre, chars s = (pre ++ chars (skip_spaces s))%list ∧ Forall (λ a, is_space a = true) pre.
Proof.
  induction s as [|b s (pre & IH & Hpre)]; [by exists []|]. cbn [skip_spaces].
  destruct (is_space b) eqn:E.
  - exists (b :: pre). cbn [chars]. rewrite IH. split; [done|by constructor].
  - by exists [].
Qed.

(** What [trim] keeps of a string: the text between the leading and the
    trailing blanks. *)
Lemma trim_spec s :
  ∃ pre post, chars s = (pre ++ chars (trim s) ++ post)%list ∧
              Forall (λ a, is_space a = true) pre ∧ Forall (λ a, is_space a = true) post ∧
              (∀ a, head (chars (trim s)) = Some a → is_space a = false) ∧
              (∀ a, last (chars (trim s)) = Some a → is_space a = false).
Proof.
  unfold trim. set (u := skip_spaces s). set (v := skip_spaces (String.rev u)).
  destruct (skip_spaces_suffix s) as (pre & Hs & Hpre). fold u in Hs.
  destruct (skip_spaces_suffix (String.rev u)) as (post & Hu & Hpost). fold v in Hu.
  rewrite chars_rev in Hu. apply (f_equal reverse) in Hu.
  rewrite reverse_involutive, reverse_app in Hu.
  exists pre, (reverse post). rewrite chars_rev, <- Hu. split; [done|].
  split; [done|]. split; [by apply Forall_reverse|]. split.
  - intros a Ha. destruct (reverse (chars v)) as [|b l] eqn:E; [done|].
    injection Ha as ->. destruct u as [|b u'] eqn:Eu; [done|].
    cbn [chars app] in Hu. injection Hu as -> _.
    by apply (skip_spaces_head s a u').
  - intros a Ha. rewrite last_reverse in Ha. destruct v as [|b v'] eqn:E; [done|].
    injection Ha as ->. by apply (skip_spaces_head (String.rev u) a v').
Qed.

(** X22: the address taken from x-forwarded-for is its first hop: what
    stands before the first comma, without the white space around it (tab,
    line feed, vertical tab, form feed, carriage return, space, no-break
    space).  It holds no comma and neither starts nor ends with white
    space. *)
Theorem forwarded_for_first_hop c v :
  (∀ h, h ∈ ["cf-connecting-ip"; "x-real-ip"] →
        header c h = None ∨ header c h = Some EmptyString) →
  header c "x-forwarded-for" = Some v → truthy v = true →
  ∃ pre post rest,
    chars v = (pre ++ chars (getClientIp c) ++ post ++ rest)%list ∧
    Forall (λ a, is_space a = true) pre ∧ Forall (λ a, is_space a = true) post ∧
    (rest = [] ∨ head rest = Some ","%char) ∧
    (","%char ∉ chars (getClientIp c)) ∧
    (∀ a, head (chars (getClientIp c)) = Some a → is_space a = false) ∧
    (∀ a, last (chars (getClientIp c)) = Some a → is_space a = false).
Proof.
  intros Hpre Hv Ht.
  assert (getClientIp c = trim (first_hop v)) as ->.
  { unfold getClientIp.
    change ipHeaders with (["cf-connecting-ip"; "x-real-ip"] ++
      "x-forwarded-for" :: ["x-client-ip"; "true-client-ip"; "x-cluster-client-ip"])%list.
    rewrite first_ip_skips by done. cbn [first_ip]. by rewrite Hv, Ht. }
  destruct (trim_spec (first_hop v)) as (pre & post & Hsplit & Hp & Hq & Hhd & Hlast).
  destruct (first_hop_prefix v) as (r & Hr & Hcomma).
  exists pre, post, (chars r). split; [|split; [done|split; [done|split; [|split]]]].
  - rewrite Hr at 1. rewrite chars_app, Hsplit. by rewrite <- !app_assoc.
  - destruct Hcomma as [->|[r' ->]]; [by left|by right].
  - intros Hin. apply (first_hop_no_comma v). rewrite Hsplit.
    apply elem_of_app. right. apply elem_of_app. by left.
  - done.
Qed.

Lemma forwarded_for_first_hop_witness :
  (∀ h, h ∈ ["cf-connecting-ip"; "x-real-ip"] →
        header req_forwarded h = None ∨ header req_forwarded h = Some EmptyString) ∧
  header req_forwarded "x-forwarded-for" = Some " 203.0.113.7 , 10.0.0.1" ∧
  truthy " 203.0.113.7 , 10.0.0.1" = true ∧
  ∃ pre post rest,
    chars " 203.0.113.7 , 10.0.0.1" =
      (pre ++ chars (getClientIp req_forwarded) ++ post ++ rest)%list ∧
    Forall (λ a, is_space a = true) pre ∧ Forall (λ a, is_space a = true) post ∧
    (rest = [] ∨ head rest = Some ","%char) ∧
    (","%char ∉ chars (getClientIp req_forwarded)) ∧
    (∀ a, head (chars (getClientIp req_forwarded)) = Some a → is_space a = false) ∧
    (∀ a, last (chars (getClientIp req_forwarded)) = Some a → is_space a = false).
Proof.
  assert (∀ h, h ∈ ["cf-connecting-ip"; "x-real-ip"] →
            header req_forwarded h = None ∨ header req_forwarded h = Some EmptyString) as H1.
  { intros h Hh. apply elem_of_cons in Hh as [->|Hh]; [by left|].
    apply list_elem_of_singleton in Hh as ->. by left. }
  assert (header req_forwarded "x-forwarded-for" = Some " 203.0.113.7 , 10.0.0.1") as H2
    by reflexivity.
  assert (truthy " 203.0.113.7 , 10.0.0.1" = true) as H3 by reflexivity.
  do 3 (split; [assumption|]).
  exact (forwarded_for_first_hop req_forwarded _ H1 H2 H3).
Defined.

Example getClientIp_forwarded : getClientIp req_forwarded = "203.0.113.7".
Proof. reflexivity. Qed.

Example getClientIp_no_break_space : getClientIp req_padded = "203.0.113.7".
Proof. reflexivity. Qed.

(** ** The connection settings and the health check *)

(** X23: the delay before a reconnection attempt grows by 50 ms per attempt,
    never decreases from one attempt to the next and never exceeds two
    seconds, which it reaches at the fortieth attempt. *)
Theorem retryStrategy_bounds times times' :
  0 ≤ times ≤ times' →
  0 ≤ retryStrategy times ≤ retryStrategy times' ∧ retryStrategy times' ≤ 2000 ∧
  (times ≤ 40 → retryStrategy times = times * 50) ∧
  (40 ≤ times → retryStrategy times = 2000).
Proof. unfold retryStrategy. lia. Qed.

Lemma retryStrategy_bounds_witness :
  0 ≤ 3 ≤ 50 ∧
  0 ≤ retryStrategy 3 ≤ retryStrategy 50 ∧ retryStrategy 50 ≤ 2000 ∧
  (3 ≤ 40 → retryStrategy 3 = 3 * 50) ∧ (40 ≤ 3 → retryStrategy 3 = 2000).
Proof.
  assert (0 ≤ 3 ≤ 50) as H by lia. split; [exact H|]. exact (retryStrategy_bounds 3 50 H).
Defined.

Lemma prefix_spec p s : String.prefix p s = true ↔ ∃ r, s = p +:+ r.
Proof.
  revert s. induction p as [|a p IH]; intros s.
  - split; [intros _; exists s; by rewrite app_nil|by destruct s].
  - destruct s as [|b s]; cbn [String.prefix].
    + split; [done|]. intros (r & H). by rewrite app_cons in H.
    + destruct (ascii_dec a b) as [->|Hab].
      * rewrite IH. split; intros (r & H); exists r.
        -- by rewrite app_cons, H.
        -- rewrite app_cons in H. by injection H.
      * split; [done|]. intros (r & H). rewrite app_cons in H. by injection H as <-.
Qed.

Lemma includes_spec sub s : includes sub s = true ↔ ∃ a b, s = a +:+ sub +:+ b.
Proof.
  induction s as [|c s IH]; cbn [includes]; rewrite orb_true_iff, prefix_spec.
  - split.
    + intros [[r H]|?]; [|done]. exists EmptyString, r. by rewrite app_nil.
    + intros (a & b & H). left. destruct a as [|c a]; [|by rewrite app_cons in H].
      exists b. by rewrite app_nil in H.
  - rewrite IH. split.
    + intros [[r H]|(a & b & H)].
      * exists EmptyString, r. by rewrite app_nil.
      * exists (String c a), b. by rewrite app_cons, H.
    + intros (a & b & H). destruct a as [|c' a].
      * left. exists b. by rewrite app_nil in H.
      * right. rewrite app_cons in H. injection H as -> H. eauto.
Qed.

(** X24: [reconnectOnError] asks for a reconnection exactly for the errors
    whose message contains READONLY, wherever in the message it stands. *)
Theorem reconnectOnError_spec err_message :
  reconnectOnError err_message = true ↔ ∃ a b, err_message = a +:+ "READONLY" +:+ b.
Proof.
  unfold reconnectOnError. cbv zeta. rewrite <- includes_spec.
  by destruct (includes "READONLY" err_message).
Qed.


(** ** Counters *)




(** ** Failures during the rollback *)

(** X27: a failure inside the rollback does not reach the response: once
    the Rollback Record has been read, whatever it holds and whichever of
    the later commands fail, [rollback] completes; a record that cannot be
    parsed or a failed removal only leaves a warning in the log. *)
Theorem rollback_failure_is_swallowed requestId w info w1 :
  getValue (request_key requestId) w = (Ok info, w1) →
  ∃ w', rollback requestId w = (Ok tt, w').
Proof.
  intros Hget. unfold rollback. rewrite (bind_ok _ _ _ _ _ Hget). cbv beta.
  destruct info as [info|]; [|by eexists].
  unfold when. destruct (truthy info); [|by eexists].
  unfold try_catch, logger.warn, logger.write.
  match goal with |- context [match ?body w1 with _ => _ end] =>
    destruct (body w1) as [[[]|e] w2]
  end; by eexists.
Qed.

Lemma rollback_failure_is_swallowed_witness :
  ∃ w1, getValue (request_key "b") w_corrupt_record = (Ok (Some "{oops"), w1) ∧
        ∃ w', rollback "b" w_corrupt_record = (Ok tt, w').
Proof.
  eexists. assert (getValue (request_key "b") w_corrupt_record = (Ok (Some "{oops"), _)) as H
    by reflexivity.
  split; [exact H|]. exact (rollback_failure_is_swallowed "b" w_corrupt_record _ _ H).
Defined.

(** ** The rollback of an admission *)

(** C8: the middleware evaluated where it is mounted, on Hono, whose
    [next()] resolves to the context object.  A request is admitted on a
    store that answers, a skip option is on and the skip condition matches
    the response of the downstream stages, which may take any time and
    leave the window set and the Rollback Record alone.  The middleware
    then removes nothing: the admitted member stays in the window set,
    exactly as with both skip options off, the Rollback Record stays in the
    store, and every later count taken within the window still counts the
    admission. *)
Theorem rollback_skipped_under_hono cfg c next res w z :
  let identifier := keyGenerator cfg c in
  let key := "rate_limit:" +:+ identifier in
  let now := clock w in
  let z' := surviving (now - windowMs cfg) z in
  let mid := toString now +:+ "-" +:+ hd EmptyString (entropy w) in
  let requestId := hd EmptyString (tail (entropy w)) in
  let admitted : gmap string Z := <[mid := now]> z' in
  let record := JSON.stringify (rollback_record identifier now mid) in
  whitelisted cfg c = false → quiet w → window_set w key = Some z →
  Z.of_nat (size z') < maxRequests cfg → 0 < windowMs cfg →
  skipped cfg res = true →
  resolves_to next (HonoContext res) [key; request_key requestId] →
  ∃ w' w0' deadline,
    rateLimiter cfg c next w = (Ok (HonoContext res), w') ∧
    rateLimiter (no_skip cfg) c next w = (Ok (HonoContext res), w0') ∧
    db w' !! request_key requestId = Some (Entry (PStr record) (Some (now + 60 * 1000))) ∧
    db w' !! key = Some (Entry (PZSet admitted) (Some deadline)) ∧
    db w0' !! key = db w' !! key ∧
    ∀ t, now ≤ t < now + windowMs cfg →
      window_set (set_clock t w') key = Some admitted ∧
      surviving (t - windowMs cfg) admitted !! mid = Some now.
Proof.
  intros identifier key now z' mid requestId admitted record Hwl Hq Hz Hroom Hwin Hsk Hnext.
  destruct (rateLimiter_admitted_hono cfg c w z Hwl Hq Hz Hroom Hwin next res Hnext)
    as (w' & Hrun & Hdb & Hrec).
  destruct (rateLimiter_admitted_hono (no_skip cfg) c w z Hwl Hq Hz Hroom Hwin next res Hnext)
    as (w0' & Hrun0 & Hdb0 & _).
  change (keyGenerator (no_skip cfg)) with (keyGenerator cfg) in *.
  change (windowMs (no_skip cfg)) with (windowMs cfg) in *.
  fold identifier key now z' mid requestId admitted record in Hdb, Hrec, Hdb0.
  assert (skipSuccessfulRequests cfg || skipFailedRequests cfg = true) as Hon.
  { unfold skipped in Hsk. by destruct (skipSuccessfulRequests cfg), (skipFailedRequests cfg). }
  rewrite Hon in Hrec.
  exists w', w0', (now + (ceil_div (windowMs cfg) 1000 + 1) * 1000).
  split; [exact Hrun|]. split; [exact Hrun0|]. split; [exact Hrec|]. split; [exact Hdb|].
  split; [by rewrite Hdb0, Hdb|].
  intros t Ht. split.
  - apply (window_set_db (set_clock t w') key admitted _ Hdb). cbn [clock set_clock].
    pose proof (ceil_div_pos _ Hwin). lia.
  - apply surviving_lookup. split; [apply lookup_insert_eq|lia].
Qed.

Lemma rollback_skipped_under_hono_witness :
  let key := "rate_limit:" +:+ keyGenerator cfg_once req_sample in
  let mid := toString 0 +:+ "-" +:+ "a" in
  let admitted : gmap string Z := <[mid := 0]> (surviving (0 - 1000) ∅) in
  let record := JSON.stringify (rollback_record (keyGenerator cfg_once req_sample) 0 mid) in
  whitelisted cfg_once req_sample = false ∧ quiet w_empty ∧
  window_set w_empty key = Some ∅ ∧
  Z.of_nat (size (surviving (0 - 1000) (∅ : gmap string Z))) < 1 ∧ 0 < 1000 ∧
  skipped cfg_once resp_ok = true ∧
  resolves_to next_hono (HonoContext resp_ok) [key; request_key "b"] ∧
  ∃ w' w0' deadline,
    rateLimiter cfg_once req_sample next_hono w_empty = (Ok (HonoContext resp_ok), w') ∧
    rateLimiter (no_skip cfg_once) req_sample next_hono w_empty =
      (Ok (HonoContext resp_ok), w0') ∧
    db w' !! request_key "b" = Some (Entry (PStr record) (Some (0 + 60 * 1000))) ∧
    db w' !! key = Some (Entry (PZSet admitted) (Some deadline)) ∧
    db w0' !! key = db w' !! key ∧
    ∀ t, 0 ≤ t < 0 + 1000 →
      window_set (set_clock t w') key = Some admitted ∧
      surviving (t - 1000) admitted !! mid = Some 0.
Proof.
  intros key mid admitted record.
  assert (whitelisted cfg_once req_sample = false) as Hwl by reflexivity.
  assert (quiet w_empty) as Hq by constructor.
  assert (window_set w_empty key = Some ∅) as Hz by reflexivity.
  assert (Z.of_nat (size (surviving (0 - 1000) (∅ : gmap string Z))) < 1) as Hroom
    by (vm_compute; reflexivity).
  assert (0 < 1000) as Hwin by lia.
  assert (skipped cfg_once resp_ok = true) as Hsk by reflexivity.
  assert (resolves_to next_hono (HonoContext resp_ok) [key; request_key "b"]) as Hnext
    by (intros w0; by eexists).
  repeat (split; [assumption|]).
  exact (rollback_skipped_under_hono cfg_once req_sample next_hono resp_ok w_empty ∅
           Hwl Hq Hz Hroom Hwin Hsk Hnext).
Defined.

(** The run goes on: a second request of the same client, 25 ms after the
    first, under that quota of one request per second that is not to count
    successful requests.  The first was answered 200 by the downstream
    handler, and the second is refused all the same. *)
Example successful_request_still_counted :
  ∃ w1 w2 body,
    rateLimiter cfg_once req_sample next_hono w_empty = (Ok (HonoContext resp_ok), w1) ∧
    clock w1 = 25 ∧
    rateLimiter cfg_once req_sample next_hono w1 = (Ok (AResponse (Response 429 body)), w2).
Proof.
  eexists _, _, _. split; [vm_compute; reflexivity|]. split; [reflexivity|].
  vm_compute. reflexivity.
Qed.

(** Had [next()] resolved to the response itself, the rollback would have
    taken place: the Rollback Record deleted, the admitted member removed
    and the others left, and every later count within the window lower by
    one than with both skip options off. *)
Lemma rollback_for_a_response cfg c next resp w z :
  let identifier := keyGenerator cfg c in
  let key := "rate_limit:" +:+ identifier in
  let now := clock w in
  let z' := surviving (now - windowMs cfg) z in
  let mid := toString now +:+ "-" +:+ hd EmptyString (entropy w) in
  let requestId := hd EmptyString (tail (entropy w)) in
  let admitted : gmap string Z := <[mid := now]> z' in
  whitelisted cfg c = false → quiet w → window_set w key = Some z →
  Z.of_nat (size z') < maxRequests cfg → 0 < windowMs cfg →
  leaves_alone next (AResponse resp) [key; request_key requestId] →
  skipped cfg resp = true →
  ∃ w' w0',
    rateLimiter cfg c next w = (Ok (AResponse resp), w') ∧
    rateLimiter (no_skip cfg) c next w = (Ok (AResponse resp), w0') ∧
    db w' !! request_key requestId = None ∧
    ∀ t, now ≤ t < now + windowMs cfg →
      window_set (set_clock t w0') key = Some admitted ∧
      window_set (set_clock t w') key = Some (delete mid admitted) ∧
      size (surviving (t - windowMs cfg) admitted) =
        S (size (surviving (t - windowMs cfg) (delete mid admitted))).
Proof.
  intros identifier key now z' mid requestId admitted Hwl Hq Hz Hroom Hwin Hnext Hsk.
  destruct (rateLimiter_admitted cfg c w z Hwl Hq Hz Hroom Hwin next resp Hnext)
    as (w' & Hrun & Hq' & Hrec & Hdb).
  destruct (rateLimiter_admitted (no_skip cfg) c w z Hwl Hq Hz Hroom Hwin next resp Hnext)
    as (w0' & Hrun0 & Hq0' & _ & Hdb0).
  change (keyGenerator (no_skip cfg)) with (keyGenerator cfg) in *.
  change (windowMs (no_skip cfg)) with (windowMs cfg) in *.
  fold identifier key now z' mid requestId admitted in Hrec, Hdb, Hdb0.
  rewrite Hsk in Hdb. change (skipped (no_skip cfg) resp) with false in Hdb0.
  cbv zeta in Hdb, Hdb0.
  pose proof (ceil_div_pos _ Hwin) as Hceil.
  exists w', w0'. split; [exact Hrun|]. split; [exact Hrun0|]. split; [by apply Hrec|].
  intros t Ht. split; [|split].
  - apply (window_set_of_db (set_clock t w0') key admitted _ Hdb0). simpl. fold now. lia.
  - apply (window_set_of_db (set_clock t w') key (delete mid admitted) _ Hdb). simpl.
    fold now. lia.
  - apply (surviving_delete _ mid admitted now); [apply lookup_insert_eq|lia].
Qed.

Lemma rateLimiter_admits_with_headers_witness :
  whitelisted cfg_A req_sample = false ∧ quiet w_empty ∧
  window_set w_empty ("rate_limit:" +:+ keyGenerator cfg_A req_sample) = Some ∅ ∧
  Z.of_nat (size (surviving (clock w_empty - windowMs cfg_A) (∅ : gmap string Z)))
    < maxRequests cfg_A ∧
  0 < windowMs cfg_A ∧
  skipSuccessfulRequests cfg_A = false ∧ skipFailedRequests cfg_A = false ∧
  standardHeaders cfg_A = true ∧
  ∃ w5 reset,
        window_set w5 ("rate_limit:" +:+ keyGenerator cfg_A req_sample) =
          Some (<[toString (clock w_empty) +:+ "-" +:+ hd EmptyString (entropy w_empty)
                  := clock w_empty]> (surviving (clock w_empty - windowMs cfg_A) ∅)) ∧
        vars w5 = ("rateLimitRequestId", hd EmptyString (tail (entropy w_empty)))
                  :: vars w_empty ∧
        res_headers w5 =
          ("X-RateLimit-Reset", reset) ::
          ("X-RateLimit-Remaining",
           toString (maxRequests cfg_A -
                     Z.of_nat (size (surviving (clock w_empty - windowMs cfg_A)
                                       (∅ : gmap string Z))) - 1)) ::
          ("X-RateLimit-Limit", toString (maxRequests cfg_A)) :: res_headers w_empty ∧
        ∀ next answer w6, next w5 = (Ok answer, w6) →
                          rateLimiter cfg_A req_sample next w_empty = (Ok answer, w6).
Proof.
  assert (whitelisted cfg_A req_sample = false) as H1 by reflexivity.
  assert (quiet w_empty) as H2 by constructor.
  assert (window_set w_empty ("rate_limit:" +:+ keyGenerator cfg_A req_sample) = Some ∅) as H3
    by reflexivity.
  assert (Z.of_nat (size (surviving (clock w_empty - windowMs cfg_A) (∅ : gmap string Z)))
          < maxRequests cfg_A) as H4 by (vm_compute; reflexivity).
  assert (0 < windowMs cfg_A) as H5 by (simpl; lia).
  assert (skipSuccessfulRequests cfg_A = false) as H6 by reflexivity.
  assert (skipFailedRequests cfg_A = false) as H7 by reflexivity.
  assert (standardHeaders cfg_A = true) as H8 by reflexivity.
  do 8 (split; [assumption|]).
  exact (rateLimiter_admits_with_headers cfg_A req_sample w_empty ∅ H1 H2 H3 H4 H5 H6 H7 H8).
Defined.

(** ** The quota over a run of calls *)

(** A member id determines its time stamp and its suffix. *)
Lemma member_id_inj t1 x1 t2 x2 :
  toString t1 +:+ "-" +:+ x1 = toString t2 +:+ "-" +:+ x2 → t1 = t2 ∧ x1 = x2.
Proof.
  intros H. rewrite !(app_cons "-"), !app_nil in H.
  pose proof (parse_number_toString t1 (String "-" x1) ltac:(done) ltac:(done)) as H1.
  pose proof (parse_number_toString t2 (String "-" x2) ltac:(done) ltac:(done)) as H2.
  rewrite H, H2 in H1. by injection H1 as -> ->.
Qed.

Lemma surviving_surviving ws ws' (z : gmap string Z) :
  ws ≤ ws' → surviving ws' (surviving ws z) = surviving ws' z.
Proof.
  intros Hle. apply map_eq. intros m. apply option_eq. intros s.
  rewrite !surviving_lookup. split; [tauto|]. intros [? ?]. repeat split; try done. lia.
Qed.

Lemma surviving_insert ws m s (z : gmap string Z) :
  z !! m = None →
  Z.of_nat (size (surviving ws (<[m := s]> z))) =
  Z.of_nat (size (surviving ws z)) + (if bool_decide (ws < s) then 1 else 0).
Proof.
  intros Hm. unfold surviving. case_bool_decide as Hs.
  - rewrite map_filter_insert_True by (cbn; by apply Z.leb_gt).
    rewrite map_size_insert_None; [lia|]. by rewrite map_lookup_filter_None_2; [|left].
  - rewrite map_filter_insert_False by (cbn; rewrite (proj2 (Z.leb_le _ _)) by lia; done).
    rewrite delete_id by done. lia.
Qed.

Lemma later_than_cons ws t adm :
  later_than ws (t :: adm) = later_than ws adm + (if bool_decide (ws < t) then 1 else 0).
Proof.
  unfold later_than. rewrite filter_cons. case_bool_decide.
  - rewrite decide_True by done. cbn [length]. lia.
  - rewrite decide_False by done. lia.
Qed.

Lemma later_than_none ws adm : Forall (λ s, s ≤ ws) adm → later_than ws adm = 0.
Proof.
  unfold later_than. induction 1 as [|s adm Hs _ IH]; [done|].
  rewrite filter_cons, decide_False by lia. exact IH.
Qed.

Lemma within_cons a windowMs t adm :
  within a windowMs (t :: adm) =
  within a windowMs adm + (if bool_decide (a < t ≤ a + windowMs) then 1 else 0).
Proof.
  unfold within. rewrite filter_cons. case_bool_decide.
  - rewrite decide_True by done. cbn [length]. lia.
  - rewrite decide_False by done. lia.
Qed.

Lemma within_later_than a windowMs t adm :
  Forall (λ s, s ≤ t) adm → t ≤ a + windowMs →
  within a windowMs adm ≤ later_than (t - windowMs) adm.
Proof.
  unfold within, later_than. induction 1 as [|s adm Hs _ IH]; intros Ht; [done|].
  specialize (IH Ht). rewrite !filter_cons.
  destruct (decide (a < s ≤ a + windowMs)), (decide (t - windowMs < s));
    cbn [length]; lia.
Qed.

(** A denied call keeps the key, its purged set and its deadline. *)
Lemma checkRateLimit_deny_db identifier maxRequests windowMs w z d :
  let key := "rate_limit:" +:+ identifier in
  let z' := surviving (clock w - windowMs) z in
  quiet w → redis.live w key = Some (Entry (PZSet z) d) →
  maxRequests ≤ Z.of_nat (size z') → size z' ≠ 0%nat →
  ∃ r w', checkRateLimit identifier maxRequests windowMs w = (Ok r, w') ∧
          allowed r = false ∧ quiet w' ∧ entropy w' = entropy w ∧
          db w' !! key = Some (Entry (PZSet z') d).
Proof.
  intros key z' Hq Hl Hge Hne.
  apply live_Some in Hl as Hl'. destruct Hl' as [_ Hexp].
  unfold checkRateLimit, bind, try_catch, Date_now. fold key.
  unfold redis.zremrangebyscore. rewrite command_quiet by done.
  change (redis.live (tick w) key) with (redis.live w key). rewrite Hl. fold z'.
  destruct (put_zset_spec key z' d (tick w)) as (Hw1 & Hf1 & Hdb1 & _); [exact Hexp|].
  change (filter (λ ms : string * Z,
                    in_range NegInf (Score (clock w - windowMs)) ms.2 = false) z) with z'.
  set (w1 := redis.put_zset key z' d (tick w)) in *.
  assert (quiet w1) as Hq1 by (apply Hf1; by apply quiet_tick).
  rewrite (zcard_quiet w1 key z' Hq1 Hw1).
  destruct (Z.of_nat (size z') <? maxRequests) eqn:E; [apply Z.ltb_lt in E; lia|].
  rewrite (zrange_quiet (tick w1) key z' 0 0); [|by apply quiet_tick|exact Hw1].
  eexists _, _. split; [reflexivity|]. cbn [allowed].
  split; [done|]. split; [by do 2 apply quiet_tick|]. split; [apply Hf1|].
  by apply Hdb1.
Qed.

Section Quota.
Variables (identifier : string) (maxRequests windowMs : Z).
Let key := "rate_limit:" +:+ identifier.
Hypothesis Hmax : 1 ≤ maxRequests.
Hypothesis Hwin : 0 < windowMs.

(** What a call at time [t] finds in a store that follows the admissions. *)
Lemma tracks_visible w adm tlast t :
  tracks windowMs key w adm tlast → tlast ≤ t →
  ∃ zv, window_set (set_clock t w) key = Some zv ∧
        (∀ ws, t - windowMs ≤ ws → Z.of_nat (size (surviving ws zv)) = later_than ws adm) ∧
        (∀ m, is_Some (zv !! m) → ∃ s x, m = toString s +:+ "-" +:+ x ∧ x ∉ entropy w) ∧
        (zv ≠ ∅ → ∃ d, redis.live (set_clock t w) key = Some (Entry (PZSet zv) (Some d)) ∧
                       Forall (λ s, s + windowMs < d) adm).
Proof.
  intros (Hq & Hnd & Hle & Hst) Ht.
  assert (∀ ws, t - windowMs ≤ ws → size (surviving ws (∅ : gmap string Z)) = 0%nat) as He.
  { intros ws _. unfold surviving. by rewrite map_filter_empty, map_size_empty. }
  destruct Hst as [[Hdb ->]|(z & d & Hdb & Hcount & Hd & Hfresh)].
  - exists ∅. unfold window_set, redis.live. cbn [db clock set_clock]. rewrite Hdb.
    split; [done|]. split; [|split; [|done]].
    + intros ws Hws. by rewrite He.
    + intros m [? Hm]. by rewrite lookup_empty in Hm.
  - unfold window_set, redis.live. cbn [db clock set_clock]. rewrite Hdb.
    unfold redis.expired. cbn [e_deadline]. destruct (d <=? t) eqn:E; zbool.
    + exists ∅. split; [done|]. split; [|split; [|done]].
      * intros ws Hws. rewrite He by done. symmetry. apply later_than_none.
        eapply Forall_impl; [exact Hd|]. cbn. intros s Hs. lia.
      * intros m [? Hm]. by rewrite lookup_empty in Hm.
    + exists z. split; [done|]. split; [|split; [done|]].
      * intros ws Hws. apply Hcount. lia.
      * intros _. by exists d.
Qed.

(** One call keeps the store following the admissions, and decides by the
    number of admissions of the last [windowMs] milliseconds. *)
Lemma tracks_step w adm tlast t :
  tracks windowMs key w adm tlast → tlast ≤ t → entropy w ≠ [] →
  ∃ r w', checkRateLimit identifier maxRequests windowMs (set_clock t w) = (Ok r, w') ∧
          allowed r = bool_decide (later_than (t - windowMs) adm < maxRequests) ∧
          tracks windowMs key w' (if allowed r then t :: adm else adm) t ∧
          (length (entropy w) ≤ S (length (entropy w')))%nat.
Proof.
  intros Htr Ht Hent.
  destruct (tracks_visible w adm tlast t Htr Ht) as (zv & Hzv & Hcount & Hfresh & Hlive).
  destruct Htr as (Hq & Hnd & Hle & _).
  assert (Forall (λ s, s ≤ t) adm) as Hle'.
  { eapply Forall_impl; [exact Hle|]. cbn. intros s Hs. lia. }
  pose proof (Hcount (t - windowMs) ltac:(lia)) as Hc.
  destruct (decide (later_than (t - windowMs) adm < maxRequests)) as [Hlt|Hge].
  - destruct (checkRateLimit_admit identifier maxRequests windowMs (set_clock t w) zv)
      as (w' & Hrun & Hdb & Hclk & Hent' & Hq' & _); [exact Hq|exact Hzv| |exact Hwin|].
    { change (clock (set_clock t w)) with t. lia. }
    change (clock (set_clock t w)) with t in *.
    change (entropy (set_clock t w)) with (entropy w) in *. fold key in Hdb.
    destruct (entropy w) as [|x0 rest] eqn:Ee; [done|]. cbn [hd tail] in *.
    apply NoDup_cons in Hnd as [Hx0 Hrest].
    set (mid := toString t +:+ "-" +:+ x0) in *.
    assert (zv !! mid = None) as Hmid.
    { destruct (zv !! mid) eqn:E; [|done]. exfalso.
      destruct (Hfresh mid ltac:(eauto)) as (s & x & Heq & Hx).
      apply member_id_inj in Heq as [_ <-]. apply Hx. left. }
    eexists _, w'. split; [exact Hrun|]. cbn [allowed].
    split; [by rewrite bool_decide_eq_true_2|]. split; [|rewrite Hent'; cbn; lia].
    split; [exact Hq'|]. split; [by rewrite Hent'|]. split; [by constructor|].
    right. eexists _, _. split; [exact Hdb|]. split; [|split].
    + intros ws Hws. rewrite surviving_insert.
      2:{ apply map_lookup_filter_None_2. by left. }
      rewrite surviving_surviving by done. rewrite later_than_cons, Hcount by done. done.
    + pose proof (ceil_div_pos windowMs Hwin). constructor; [lia|].
      eapply Forall_impl; [exact Hle'|]. cbn. intros s Hs. lia.
    + intros m [s Hm]. apply lookup_insert_Some in Hm as [[<- _]|[_ Hm]].
      * exists t, x0. split; [done|]. by rewrite Hent'.
      * apply map_lookup_filter_Some in Hm as [Hm _].
        destruct (Hfresh m ltac:(eauto)) as (s' & x & Heq & Hx).
        exists s', x. split; [done|]. rewrite Hent'. intros Hin. apply Hx. by right.
  - assert (zv ≠ ∅) as Hne.
    { intros ->. unfold surviving in Hc. rewrite map_filter_empty, map_size_empty in Hc. lia. }
    destruct (Hlive Hne) as (d & Hl & Hd).
    destruct (checkRateLimit_deny_db identifier maxRequests windowMs (set_clock t w) zv (Some d))
      as (r & w' & Hrun & Hr & Hq' & Hent' & Hdb); [exact Hq|exact Hl| | |].
    { change (clock (set_clock t w)) with t. lia. }
    { change (clock (set_clock t w)) with t. lia. }
    change (clock (set_clock t w)) with t in *.
    change (entropy (set_clock t w)) with (entropy w) in *. fold key in Hdb.
    exists r, w'. split; [exact Hrun|]. rewrite Hr.
    split; [by rewrite bool_decide_eq_false_2|]. split; [|rewrite Hent'; lia].
    split; [exact Hq'|]. split; [by rewrite Hent'|]. split; [exact Hle'|].
    right. eexists _, _. split; [exact Hdb|]. split; [|split; [exact Hd|]].
    + intros ws Hws. rewrite surviving_surviving by lia. by apply Hcount.
    + intros m [s Hm]. apply map_lookup_filter_Some in Hm as [Hm _].
      rewrite Hent'. by apply Hfresh; eauto.
Qed.
Lemma within_nonneg a adm : 0 ≤ within a windowMs adm.
Proof. unfold within. lia. Qed.

(** Admitting a request that finds fewer than [maxRequests] admissions in
    its window keeps every interval of [windowMs] milliseconds within the
    quota. *)
Lemma quota_after_admission t adm :
  Forall (λ s, s ≤ t) adm → later_than (t - windowMs) adm < maxRequests →
  (∀ a, within a windowMs adm ≤ maxRequests) →
  ∀ a, within a windowMs (t :: adm) ≤ maxRequests.
Proof.
  intros Hle Hlt HJ a. rewrite within_cons. case_bool_decide as Hin.
  - pose proof (within_later_than a windowMs t adm Hle ltac:(lia)). lia.
  - specialize (HJ a). lia.
Qed.

Lemma quota_kept times :
  ∀ w adm tlast,
    tracks windowMs key w adm tlast → ascending tlast times →
    (length times ≤ length (entropy w))%nat →
    (∀ a, within a windowMs adm ≤ maxRequests) →
    ∃ rs w', calls_at identifier maxRequests windowMs times w = (Ok rs, w') ∧
             length rs = length times ∧
             ∀ a, within a windowMs (admitted_times times rs) + within a windowMs adm
                  ≤ maxRequests.
Proof.
  induction times as [|t ts IH]; intros w adm tlast Htr Hasc Hlen HJ.
  { eexists _, _. split; [reflexivity|]. split; [done|]. intros a. specialize (HJ a).
    cbn [admitted_times]. unfold within at 1. cbn. lia. }
  destruct Hasc as [Ht Hasc]. cbn [length] in Hlen.
  assert (entropy w ≠ []) as Hent by (destruct (entropy w); [cbn in Hlen; lia|done]).
  destruct (tracks_step w adm tlast t Htr Ht Hent) as (r & w1 & Hrun & Hr & Htr1 & Hlen1).
  assert (Forall (λ s, s ≤ t) adm) as Hle.
  { destruct Htr as (_ & _ & Hle & _). eapply Forall_impl; [exact Hle|]. cbn. lia. }
  destruct (IH w1 (if allowed r then t :: adm else adm) t Htr1 Hasc) as (rs & w' & Hrs & Hl & HJ').
  { lia. }
  { destruct (allowed r); [|exact HJ]. apply quota_after_admission; [done| |done].
    symmetry in Hr. by apply bool_decide_eq_true in Hr. }
  cbn [calls_at]. unfold bind at 1, at_time. unfold bind at 1. rewrite Hrun.
  unfold bind at 1. rewrite Hrs. eexists _, _. split; [reflexivity|].
  split; [cbn; by rewrite Hl|]. intros a. specialize (HJ' a). cbn [admitted_times].
  destruct (allowed r); [|exact HJ']. rewrite within_cons in *. lia.
Qed.

(** X30: the quota holds over every run.  For calls of [checkRateLimit]
    for one identifier made at times that never go back, on a store that
    answers and held no window for the identifier, with pairwise distinct
    random suffixes: in every interval of [windowMs] milliseconds, wherever
    it starts, at most [maxRequests] of the calls are allowed. *)
Theorem never_more_than_quota times w :
  quiet w → db w !! key = None →
  NoDup (entropy w) → (length times ≤ length (entropy w))%nat →
  (∀ t0, head times = Some t0 → ascending t0 times) →
  ∃ rs w', calls_at identifier maxRequests windowMs times w = (Ok rs, w') ∧
           length rs = length times ∧
           ∀ a, within a windowMs (admitted_times times rs) ≤ maxRequests.
Proof.
  intros Hq Hdb Hnd Hlen Hasc.
  destruct (quota_kept times w [] (default 0 (head times))) as (rs & w' & Hrun & Hl & HJ).
  - split; [done|]. split; [done|]. split; [constructor|]. by left.
  - destruct times as [|t0 ts]; [done|]. by apply Hasc.
  - exact Hlen.
  - intros a. unfold within. cbn. lia.
  - exists rs, w'. split; [exact Hrun|]. split; [exact Hl|]. intros a.
    specialize (HJ a). unfold within at 2 in HJ. cbn in HJ. lia.
Qed.
End Quota.

Lemma never_more_than_quota_witness :
  1 ≤ 3 ∧ 0 < 1000 ∧ quiet w_empty ∧ db w_empty !! ("rate_limit:" +:+ "A") = None ∧
  NoDup (entropy w_empty) ∧ (length [0; 100; 900; 1050] ≤ length (entropy w_empty))%nat ∧
  (∀ t0, head [0; 100; 900; 1050] = Some t0 → ascending t0 [0; 100; 900; 1050]) ∧
  ∃ rs w', calls_at "A" 3 1000 [0; 100; 900; 1050] w_empty = (Ok rs, w') ∧
           length rs = length [0; 100; 900; 1050] ∧
           ∀ a, within a 1000 (admitted_times [0; 100; 900; 1050] rs) ≤ 3.
Proof.
  assert (1 ≤ 3) as H1 by lia.
  assert (0 < 1000) as H2 by lia.
  assert (quiet w_empty) as H3 by constructor.
  assert (db w_empty !! ("rate_limit:" +:+ "A") = None) as H4 by reflexivity.
  assert (NoDup (entropy w_empty)) as H5
    by (apply (bool_decide_unpack (NoDup (entropy w_empty))); vm_compute; exact I).
  assert (length [0; 100; 900; 1050] ≤ length (entropy w_empty))%nat as H6 by (simpl; lia).
  assert (∀ t0, head [0; 100; 900; 1050] = Some t0 → ascending t0 [0; 100; 900; 1050]) as H7.
  { intros t0 [= <-]. simpl. lia. }
  do 7 (split; [assumption|]).
  exact (never_more_than_quota "A" 3 1000 H1 H2 [0; 100; 900; 1050] w_empty H3 H4 H5 H6 H7).
Defined.

(** A run of five calls: the fourth finds the window full and is denied; the
    fifth, made once the first admission has left the window, is allowed. *)
Example quota_run :
  map allowed (default [] (match (calls_at "A" 3 1000 [0; 100; 200; 900; 1050]
                                    (set_entropy ["a"; "b"; "c"; "d"; "e"] w_empty)).1 with
                           | Ok rs => Some rs
                           | Throw _ => None
                           end)) = [true; true; true; false; true].
Proof. reflexivity. Qed.
